(** * orc_automata: a shallow embedding of the simulation kernel

    The development follows the three source modules
    [orc.py], [environment.py] and [simulation.py].

    - Python [float] is IEEE binary64: modelled by Rocq's primitive floats.
    - Python [int] is unbounded: modelled by [Z].
    - The generator [random.Random] is a library class; it is modelled by the
      interface [PyRandom] (a state and the two primitive draws), with the
      derived methods [uniform], [shuffle] and [choice] written as in the
      library.
    - Objects are mutated in place and shared between the grid, the population
      dictionary and local variables: the model keeps a store of objects
      ([objs]) and passes references.
    - Exceptions ([IndexError], [ValueError], [ZeroDivisionError]) are the
      [None] of an option. *)

From Stdlib Require Import ZArith Floats Lia Bool Sorted.
From stdpp Require Import gmap list.

Set Warnings "-inexact-float".
Local Open Scope Z_scope.

(** A statement that can raise: the rest runs only when it returns. *)
Notation "'let?' x ':=' m 'in' k" :=
  (match m with Some x => k | None => None end)
  (at level 10, x pattern, m at level 100, k at level 200, only parsing).

(** ** Python primitives *)

Module Py.

(** [min(a, b)] and [max(a, b)] on floats: the builtin keeps its first
    argument unless the second compares strictly smaller (greater). *)
Definition min (a b : float) : float := if (b <? a)%float then b else a.
Definition max (a b : float) : float := if (a <? b)%float then b else a.

(** Truth value of a float: [bool(x)] is [x != 0.0]. *)
Definition truthy (x : float) : bool := negb (x =? 0)%float.

(** [float(n)] for an int: rounding to nearest even.  (CPython raises
    [OverflowError] from [2**1024] on; the integers converted in this program
    are cell counts, coordinates and radii.) *)
Definition float_of_int (z : Z) : float :=
  SF2Prim (binary_normalize prec emax z 0 false).

(** [int(x)] for a float truncates toward zero and raises on [nan] and
    infinities. *)
Definition int_of_float (x : float) : option Z :=
  match Prim2SF x with
  | S754_zero _ => Some 0
  | S754_finite sg m e =>
      let a := Z.shiftl (Z.pos m) e in Some (if sg then - a else a)
  | _ => None
  end.

(** True division.  [a / b] raises [ZeroDivisionError] on a zero divisor; an
    int operand is converted first (for two ints CPython rounds the exact
    quotient, which is the same value when both are below [2**53]). *)
Definition fdiv (a b : float) : option float :=
  if (b =? 0)%float then None else Some (a / b)%float.
Definition fdiv_int (a : float) (b : Z) : option float :=
  if b =? 0 then None else Some (a / float_of_int b)%float.
Definition int_div_f (a : Z) (b : float) : option float :=
  if (b =? 0)%float then None else Some (float_of_int a / b)%float.
Definition truediv (a b : Z) : option float :=
  if b =? 0 then None else Some (float_of_int a / float_of_int b)%float.

(** [range(a, b)] *)
Definition range (a b : Z) : list Z :=
  (fun i => a + Z.of_nat i) <$> seq 0 (Z.to_nat (b - a)).

(** [l[i]]: negative indices count from the end, anything else out of range
    raises [IndexError]. *)
Definition index {A} (l : list A) (i : Z) : option A :=
  if 0 <=? i then l !! Z.to_nat i
  else if 0 <=? Z.of_nat (length l) + i
       then l !! Z.to_nat (Z.of_nat (length l) + i)
       else None.

(** [l[i] = v] *)
Definition setitem {A} (l : list A) (i : Z) (v : A) : option (list A) :=
  let n := Z.of_nat (length l) in
  if (0 <=? i) && (i <? n) then Some (<[Z.to_nat i := v]> l)
  else if (i <? 0) && (0 <=? n + i) then Some (<[Z.to_nat (n + i) := v]> l)
  else None.

(** [l[:k]] *)
Definition slice_to {A} (l : list A) (k : Z) : list A :=
  if 0 <=? k then take (Z.to_nat k) l
  else take (Z.to_nat (Z.of_nat (length l) + k)) l.

(** [g[y][x]] and [g[y][x] = v] on a list of rows. *)
Definition index2 {A} (g : list (list A)) (x y : Z) : option A :=
  let? row := index g y in index row x.
Definition setitem2 {A} (g : list (list A)) (x y : Z) (v : A)
  : option (list (list A)) :=
  let? row := index g y in
  let? row' := setitem row x v in setitem g y row'.

(** A stable sort that compares with [<] only, as [list.sort] and [sorted]
    do.  On keys without [nan] every stable sort returns this list. *)
Section Sort.
Context {A : Type} (lt : A -> A -> bool).
Fixpoint insert_sorted (x : A) (l : list A) : list A :=
  match l with
  | [] => [x]
  | y :: l' => if lt y x then y :: insert_sorted x l' else x :: y :: l'
  end.
Definition sorted (l : list A) : list A := foldr insert_sorted [] l.
(** [l.sort(reverse=True)]: reverse, sort, reverse. *)
Definition sorted_reverse (l : list A) : list A := rev (sorted (rev l)).
End Sort.

(** [sum(xs)] on floats starts from the int [0]. *)
Definition fsum (xs : list float) : float :=
  foldl (fun acc x => acc + x)%float (float_of_int 0) xs.

(** Left fold with early failure, for a [for] loop whose body can raise. *)
Fixpoint foldM {A B} (f : B -> A -> option B) (b : B) (l : list A) : option B :=
  match l with
  | [] => Some b
  | x :: l' => let? b' := f b x in foldM f b' l'
  end.

End Py.

(** ** The generator: [random.Random] *)

(** The two primitive draws of a generator and its seeding.  [randbelow n]
    is [_randbelow(n)], which returns an int in [range(n)]. *)
Class PyRandom := {
  rng_state : Type;
  seed_rng : Z -> rng_state;
  rng_random : rng_state -> float * rng_state;
  rng_randbelow : Z -> rng_state -> Z * rng_state;
  rng_randbelow_range :
    forall n g, 0 < n -> 0 <= (rng_randbelow n g).1 < n
}.

(** [float.__pow__(x, 0.5)] goes to the C library. *)
Class Libm := { pow_half : float -> float }.

Module Random.
Section Random.
Context {R : PyRandom}.

(** [uniform(a, b)] is [a + (b - a) * random()]. *)
Definition uniform (a b : float) (g : rng_state) : float * rng_state :=
  let '(u, g') := rng_random g in ((a + (b - a) * u)%float, g').

Definition swap {A} (x : list A) (i j : nat) : list A :=
  match x !! i, x !! j with
  | Some a, Some b => <[j := a]> (<[i := b]> x)
  | _, _ => x
  end.

(** [shuffle(x)]: for [i] from [len(x) - 1] down to [1], swap [x[i]] with
    [x[randbelow(i + 1)]]. *)
Fixpoint shuffle_from {A} (i : nat) (x : list A) (g : rng_state)
  : list A * rng_state :=
  match i with
  | O => (x, g)
  | S i' =>
      let '(j, g') := rng_randbelow (Z.of_nat i + 1) g in
      shuffle_from i' (swap x i (Z.to_nat j)) g'
  end.
Definition shuffle {A} (x : list A) (g : rng_state) : list A * rng_state :=
  shuffle_from (length x - 1)%nat x g.

(** [choice(seq)] raises [IndexError] on an empty sequence. *)
Definition choice {A} (l : list A) (g : rng_state) : option (A * rng_state) :=
  match l with
  | [] => None
  | _ =>
      let '(j, g') := rng_randbelow (Z.of_nat (length l)) g in
      let? a := Py.index l j in Some (a, g')
  end.
End Random.
End Random.

(** A small linear congruential generator, used to run the model on concrete
    inputs. *)
Module Lcg.
Definition modulus : Z := 2 ^ 31.
Definition next (g : Z) : Z := (1103515245 * g + 12345) mod modulus.
Definition random (g : Z) : float * Z :=
  let g' := next g in
  ((Py.float_of_int g' / Py.float_of_int modulus)%float, g').
Definition randbelow (n : Z) (g : Z) : Z * Z :=
  let g' := next g in ((g' / 65536) mod n, g').
End Lcg.

Definition lcg_random : PyRandom := {|
  rng_state := Z;
  seed_rng := fun z => z mod Lcg.modulus;
  rng_random := Lcg.random;
  rng_randbelow := Lcg.randbelow;
  rng_randbelow_range := fun n g (Hn : 0 < n) =>
    Z.mod_pos_bound (Lcg.next g / 65536) n Hn
|}.

Definition sqrt_libm : Libm := {| pow_half := PrimFloat.sqrt |}.

(** ** orc.py *)

Module Orc.

Record t := mk {
  id : Z;
  position : Z * Z;
  kind : Z;
  strength : float;
  agility : float;
  resilience : float;
  energy : float;
  age : Z;
  infected : bool;
  infection_timer : Z
}.

Definition with_position (o : t) (p : Z * Z) : t :=
  mk (id o) p (kind o) (strength o) (agility o) (resilience o) (energy o)
     (age o) (infected o) (infection_timer o).
Definition with_traits (o : t) (s a r : float) : t :=
  mk (id o) (position o) (kind o) s a r (energy o)
     (age o) (infected o) (infection_timer o).
Definition with_energy (o : t) (e : float) : t :=
  mk (id o) (position o) (kind o) (strength o) (agility o) (resilience o) e
     (age o) (infected o) (infection_timer o).
Definition with_age (o : t) (a : Z) : t :=
  mk (id o) (position o) (kind o) (strength o) (agility o) (resilience o)
     (energy o) a (infected o) (infection_timer o).
Definition with_infection (o : t) (b : bool) (n : Z) : t :=
  mk (id o) (position o) (kind o) (strength o) (agility o) (resilience o)
     (energy o) (age o) b n.

Definition tick (energy_decay : float) (o : t) : t :=
  with_energy (with_age o (age o + 1)) (energy o - energy_decay).

Definition adjust_energy (delta : float) (o : t) : t :=
  with_energy o (energy o + delta).

Definition fitness (o : t) : float :=
  (strength o * 1.1) + (agility o * 0.9) + (resilience o * 0.8).

Definition infect (duration : Z) (o : t) : t :=
  with_infection o true (Z.max duration 1).

Section Clone.
Context {R : PyRandom}.

(** The local function [mutate] of [clone_with_mutation]: the second draw
    happens only when the first one passes. *)
Definition mutate (mutation_rate mutation_scale value : float)
    (g : rng_state) : float * rng_state :=
  let '(u, g1) := rng_random g in
  if (u <? mutation_rate)%float then
    let '(d, g2) := Random.uniform (- mutation_scale) mutation_scale g1 in
    (Py.max 0.1 (value + d), g2)
  else (value, g1).

Definition clone_with_mutation (o : t) (mutation_rate mutation_scale : float)
    (next_id : Z) (g : rng_state) : t * rng_state :=
  let '(s, g1) := mutate mutation_rate mutation_scale (strength o) g in
  let '(a, g2) := mutate mutation_rate mutation_scale (agility o) g1 in
  let '(r, g3) := mutate mutation_rate mutation_scale (resilience o) g2 in
  (mk next_id (position o) (kind o) s a r (energy o * 0.6) 0 false 0, g3).
End Clone.

End Orc.

(** ** config.py *)

Record SimulationSettings := {
  grid_width : Z;
  grid_height : Z;
  cell_size : Z;
  tick_rate : Z;
  classes : Z;
  initial_orc_ratio : float;
  max_age : Z;
  base_energy : float;
  energy_decay : float;
  move_cost : float;
  fight_reward : float;
  fight_cost : float;
  reproduction_threshold : float;
  reproduction_chance : float;
  reproduction_energy_share : float;
  reproduction_overpop_pop_threshold : Z;
  reproduction_overpop_factor : float;
  mutation_rate : float;
  mutation_scale : float;
  humidity_penalty : float;
  humidity_bonus : float;
  forage_gain : float;
  forage_cost : float;
  rest_threshold : float;
  aggression_bias : float;
  herd_radius : Z;
  herd_attraction : float;
  pair_seek_multiplier : float;
  escape_strength_threshold : float;
  escape_threat_radius : Z;
  escape_threat_weight : float;
  biome_bonus : float;
  biome_penalty : float;
  peace_floor_count : Z;
  skirmish_threshold : float;
  skirmish_cost_factor : float;
  group_support_bonus : float;
  group_support_radius : Z;
  loner_grit_bonus : float;
  loner_grit_threshold : Z;
  support_score_factor : float;
  virus_spawn_base : float;
  virus_spawn_stressed : float;
  virus_crowd_threshold : Z;
  virus_crowd_pop_threshold : Z;
  virus_crowd_multiplier : float;
  virus_spread_chance : float;
  virus_duration : Z;
  virus_energy_penalty : float;
  virus_fight_penalty : float;
  max_population : Z;
  overpop_base : float;
  overpop_scale : float;
  habitat_seek_radius : Z;
  habitat_seek_bonus : float;
  habitat_bad_threshold : float;
  endangered_threshold : Z;
  endangered_repro_bonus : float;
  endangered_repro_factor : float;
  kind_strength_mods : float * float * float;
  kind_agility_mods : float * float * float;
  kind_resilience_mods : float * float * float;
  seed : option Z
}.

Definition DEFAULT_SETTINGS : SimulationSettings := {|
  grid_width := 64;
  grid_height := 40;
  cell_size := 16;
  tick_rate := 6;
  classes := 3;
  initial_orc_ratio := 0.08;
  max_age := 220;
  base_energy := 18.0;
  energy_decay := 0.32;
  move_cost := 0.55;
  fight_reward := 2.6;
  fight_cost := 0.8;
  reproduction_threshold := 6.0;
  reproduction_chance := 0.12;
  reproduction_energy_share := 0.35;
  reproduction_overpop_pop_threshold := 200;
  reproduction_overpop_factor := 0.5;
  mutation_rate := 0.15;
  mutation_scale := 0.25;
  humidity_penalty := 0.18;
  humidity_bonus := 0.15;
  forage_gain := 1.8;
  forage_cost := 0.25;
  rest_threshold := 5.5;
  aggression_bias := 0.45;
  herd_radius := 3;
  herd_attraction := 0.55;
  pair_seek_multiplier := 1.8;
  escape_strength_threshold := 0.95;
  escape_threat_radius := 2;
  escape_threat_weight := 0.6;
  biome_bonus := 0.16;
  biome_penalty := 0.12;
  peace_floor_count := 4;
  skirmish_threshold := 0.9;
  skirmish_cost_factor := 0.7;
  group_support_bonus := 0.15;
  group_support_radius := 2;
  loner_grit_bonus := 0.35;
  loner_grit_threshold := 3;
  support_score_factor := 0.12;
  virus_spawn_base := 0.0002;
  virus_spawn_stressed := 0.0012;
  virus_crowd_threshold := 6;
  virus_crowd_pop_threshold := 150;
  virus_crowd_multiplier := 5;
  virus_spread_chance := 0.04;
  virus_duration := 30;
  virus_energy_penalty := 0.6;
  virus_fight_penalty := 0.12;
  max_population := 400;
  overpop_base := 0.04;
  overpop_scale := 0.18;
  habitat_seek_radius := 4;
  habitat_seek_bonus := 0.4;
  habitat_bad_threshold := 0.48;
  endangered_threshold := 15;
  endangered_repro_bonus := 0.08;
  endangered_repro_factor := 0.65;
  kind_strength_mods := (1.1, 0.9, 1.0)%float;
  kind_agility_mods := (0.95, 1.1, 1.0)%float;
  kind_resilience_mods := (1.0, 0.95, 1.1)%float;
  seed := None
|}.

(** ** environment.py *)

Module Environment.

(** The grid holds references to the agents (their ids, see the store
    [Simulation.objs]).  The attribute [rng] of the class is the generator of
    the caller; it is drawn from during construction only and is threaded
    through [init]. *)
Record t := mk {
  width : Z;
  height : Z;
  _grid : list (list (option Z));
  _humidity : list (list float);
  _fertility : list (list float);
  _biome : list (list Z)
}.

Definition with_grid (e : t) (g : list (list (option Z))) : t :=
  mk (width e) (height e) g (_humidity e) (_fertility e) (_biome e).

Definition in_bounds (e : t) (x y : Z) : bool :=
  (0 <=? x) && (x <? width e) && (0 <=? y) && (y <? height e).

Definition get (e : t) (x y : Z) : option (option Z) :=
  Py.index2 (_grid e) x y.

Definition humidity_at (e : t) (x y : Z) : option float :=
  Py.index2 (_humidity e) x y.
Definition fertility_at (e : t) (x y : Z) : option float :=
  Py.index2 (_fertility e) x y.
Definition biome_at (e : t) (x y : Z) : option Z :=
  Py.index2 (_biome e) x y.

(** [place], [move] and [remove] write the grid and the agent's [position]:
    they act on the store and the environment together. *)
Definition place (r : Z) (x y : Z) (h : gmap Z Orc.t) (e : t)
  : option (gmap Z Orc.t * t) :=
  if negb (in_bounds e x y) then None
  else
    let? c := get e x y in
    match c with
    | Some _ => None
    | None =>
        let? g' := Py.setitem2 (_grid e) x y (Some r) in
        let? o := h !! r in
        Some (<[r := Orc.with_position o (x, y)]> h, with_grid e g')
    end.

Definition move (r : Z) (dest : Z * Z) (h : gmap Z Orc.t) (e : t)
  : option (gmap Z Orc.t * t) :=
  let '(dx, dy) := dest in
  if negb (in_bounds e dx dy) then Some (h, e)
  else
    let? o := h !! r in
    let '(sx, sy) := Orc.position o in
    let? c := get e dx dy in
    match c with
    | None =>
        let? g1 := Py.setitem2 (_grid e) sx sy None in
        let? g2 := Py.setitem2 g1 dx dy (Some r) in
        Some (<[r := Orc.with_position o (dx, dy)]> h, with_grid e g2)
    | Some _ => Some (h, e)
    end.

Definition remove (r : Z) (h : gmap Z Orc.t) (e : t) : option t :=
  let? o := h !! r in
  let '(x, y) := Orc.position o in
  let? c := get e x y in
  if decide (c = Some r) then
    let? g' := Py.setitem2 (_grid e) x y None in Some (with_grid e g')
  else Some e.

Definition neighbors (e : t) (x y : Z) : list (Z * Z) :=
  omap (fun '(dx, dy) =>
          let '(nx, ny) := (x + dx, y + dy) in
          if in_bounds e nx ny then Some (nx, ny) else None)
       [(1, 0); (-1, 0); (0, 1); (0, -1)].

(** A comprehension with a condition that reads the grid. *)
Definition filter_cells (keep : option Z -> bool) (e : t) (cs : list (Z * Z))
  : option (list (Z * Z)) :=
  Py.foldM (fun acc '(x, y) =>
              let? c := get e x y in
              Some (if keep c then acc ++ [(x, y)] else acc)) [] cs.

(** [c is None] and the truth value of [c] (an agent object is always
    true). *)
Definition is_none (c : option Z) : bool :=
  match c with None => true | Some _ => false end.
Definition occupied (c : option Z) : bool := negb (is_none c).

Definition empty_neighbors (e : t) (x y : Z) : option (list (Z * Z)) :=
  filter_cells is_none e (neighbors e x y).
Definition occupied_neighbors (e : t) (x y : Z) : option (list (Z * Z)) :=
  filter_cells occupied e (neighbors e x y).

Definition iter_orcs (e : t) : list Z :=
  omap (fun c => c) (concat (_grid e)).

Section Generation.
Context {R : PyRandom}.

(** A [for] loop that appends one value per element and draws from the
    generator. *)
Fixpoint collect {A B} (f : A -> rng_state -> option (B * rng_state))
    (l : list A) (g : rng_state) : option (list B * rng_state) :=
  match l with
  | [] => Some ([], g)
  | x :: l' =>
      let? (b, g1) := f x g in
      let? (bs, g2) := collect f l' g1 in
      Some (b :: bs, g2)
  end.

Definition three : list Z := [-1; 0; 1].

Definition cell_in (w h nx ny : Z) : bool :=
  (0 <=? nx) && (nx <? w) && (0 <=? ny) && (ny <? h).

Definition smooth_cell (w h : Z) (layer : list (list float)) (x y : Z)
  : option float :=
  let cell_weight := 0.5%float in
  let neighbor_weight := 0.5%float in
  let count :=
    foldl (fun c dy =>
      foldl (fun c dx =>
        if (dx =? 0) && (dy =? 0) then c
        else if cell_in w h (x + dx) (y + dy) then c + 1 else c)
        c three) 0 three in
  let? weight_per_neighbor := Py.fdiv_int neighbor_weight (Z.max 1 count) in
  let? v := Py.index2 layer x y in
  let? acc := Py.foldM (fun acc dy =>
           Py.foldM (fun acc dx =>
             if (dx =? 0) && (dy =? 0) then Some acc
             else if cell_in w h (x + dx) (y + dy) then
               let? n := Py.index2 layer (x + dx) (y + dy) in
               Some (acc + n * weight_per_neighbor)%float
             else Some acc) acc three)
         (v * cell_weight)%float three in
  Some (if count =? 0 then v else acc).

Definition _smooth (w h : Z) (layer : list (list float))
  : option (list (list float)) :=
  mapM (fun y => mapM (fun x => smooth_cell w h layer x y) (Py.range 0 w))
       (Py.range 0 h).

Definition clamp01 (v : float) : float := Py.max 0.0 (Py.min 1.0 v).

Definition _generate_layer (w h : Z)
    (bias variation vertical_pull : float) (smooth_passes : Z)
    (g : rng_state) : option (list (list float) * rng_state) :=
  let denom := Z.max 1 (h - 1) in
  let? (layer, g') := collect (fun y g =>
      let? gradient := Py.truediv y denom in
      collect (fun _x g =>
        let base := (bias + vertical_pull * (gradient - 0.5))%float in
        let '(noise, g1) := Random.uniform (- variation) variation g in
        Some ((base + noise)%float, g1)) (Py.range 0 w) g)
      (Py.range 0 h) g in
  let? smoothed := Py.foldM (fun layer (_ : Z) => _smooth w h layer) layer
                      (Py.range 0 (Z.max 0 smooth_passes)) in
  Some ((fun row : list float => clamp01 <$> row) <$> smoothed, g').

Definition biome_class (t1 t2 v : float) : Z :=
  if (v <? t1)%float then 0 else if (v <? t2)%float then 1 else 2.

(** The part of [_generate_biomes] after the noise layer is drawn. *)
Definition classify (noise : list (list float)) : option (list (list Z)) :=
  let flat := concat noise in
  let sorted_vals := Py.sorted PrimFloat.ltb flat in
  let third := Z.of_nat (length sorted_vals) / 3 in
  let? t1 := Py.index sorted_vals third in
  let? t2 := Py.index sorted_vals (2 * third) in
  Some ((fun row : list float => biome_class t1 t2 <$> row) <$> noise).

Definition _generate_biomes (w h : Z) (g : rng_state)
  : option (list (list Z) * rng_state) :=
  let? (noise, g') := _generate_layer w h 0.5 0.35 0.0 3 g in
  let? b := classify noise in
  Some (b, g').

(** [Environment(width, height, rng)] *)
Definition init (w h : Z) (g : rng_state) : option (t * rng_state) :=
  let grid : list (list (option Z)) :=
    (fun _ => (fun _ => None) <$> Py.range 0 w) <$> Py.range 0 h in
  let? (hum, g1) := _generate_layer w h 0.55 0.22 (-0.2) 4 g in
  let? (fer, g2) := _generate_layer w h 0.5 0.24 0.16 4 g1 in
  let? (bio, g3) := _generate_biomes w h g2 in
  Some (mk w h grid hum fer bio, g3).
End Generation.

End Environment.

(** ** simulation.py *)

Module SimulationMetrics.
Record t := mk {
  tick : Z;
  population : Z;
  average_strength : float;
  average_agility : float;
  average_resilience : float
}.
End SimulationMetrics.

Module Simulation.
Section Simulation.
Context {R : PyRandom} {L : Libm}.

(** The engine.  [objs] is the store of the agent objects created since
    construction or the last [reset], keyed by reference; a reference is
    the agent's id, which [_next_id] hands out once.  [population] is the
    dictionary's keys in insertion order (a key maps to the object of that
    reference), and the grid cells hold references. *)
Record t := mk {
  settings : SimulationSettings;
  rng : rng_state;
  environment : Environment.t;
  objs : gmap Z Orc.t;
  population : list Z;
  tick : Z;
  _next_id : Z
}.

Definition with_rng (s : t) (g : rng_state) : t :=
  mk (settings s) g (environment s) (objs s) (population s) (tick s)
     (_next_id s).
Definition with_world (s : t) (h : gmap Z Orc.t) (e : Environment.t) : t :=
  mk (settings s) (rng s) e h (population s) (tick s) (_next_id s).
Definition with_objs (s : t) (h : gmap Z Orc.t) : t :=
  with_world s h (environment s).
Definition with_population (s : t) (p : list Z) : t :=
  mk (settings s) (rng s) (environment s) (objs s) p (tick s) (_next_id s).
Definition with_tick (s : t) (n : Z) : t :=
  mk (settings s) (rng s) (environment s) (objs s) (population s) n
     (_next_id s).
Definition with_next_id (s : t) (n : Z) : t :=
  mk (settings s) (rng s) (environment s) (objs s) (population s) (tick s) n.

(** Methods that write the engine: state passing with failure. *)
Definition M (A : Type) : Type := t -> option (A * t).
Definition ret {A} (a : A) : M A := fun s => Some (a, s).
Definition bind {A B} (m : M A) (k : A -> M B) : M B :=
  fun s => match m s with Some (a, s') => k a s' | None => None end.

(** Reading the engine, drawing from the generator, mutating an agent. *)
Definition read {A} (f : t -> option A) : M A :=
  fun s => match f s with Some a => Some (a, s) | None => None end.
Definition gets {A} (f : t -> A) : M A := fun s => Some (f s, s).
Definition draw {A} (f : rng_state -> A * rng_state) : M A :=
  fun s => let '(a, g) := f (rng s) in Some (a, with_rng s g).
Definition deref (r : Z) : M Orc.t := read (fun s => objs s !! r).
Definition update_orc (r : Z) (f : Orc.t -> Orc.t) : M unit :=
  fun s => match objs s !! r with
           | Some o => Some (tt, with_objs s (<[r := f o]> (objs s)))
           | None => None
           end.

Notation "'let!' x ':=' m 'in' k" := (bind m (fun x => k))
  (at level 10, x pattern, m at level 100, k at level 200, only parsing).
Notation "m ;; k" := (bind m (fun _ => k))
  (at level 100, k at level 200, right associativity, only parsing).

(** A [for] loop over a list. *)
Fixpoint for_each {A} (l : list A) (body : A -> M unit) : M unit :=
  match l with
  | [] => ret tt
  | x :: l' => body x;; for_each l' body
  end.
(** A [for] loop that appends one value per element. *)
Fixpoint for_collect {A B} (l : list A) (body : A -> M B) : M (list B) :=
  match l with
  | [] => ret []
  | x :: l' =>
      let! b := body x in
      let! bs := for_collect l' body in
      ret (b :: bs)
  end.

(** *** Readers: methods that only look at the engine *)

Definition _biome_effect (st : SimulationSettings) (kind biome : Z)
  : float * float :=
  if biome =? kind then (biome_bonus st, 0.0%float)
  else if (biome + 1) mod 3 =? kind then (0.0%float, 0.0%float)
  else (0.0%float, biome_penalty st).

Definition _biome_move_bonus (st : SimulationSettings) (kind biome : Z)
  : float :=
  let '(bonus, penalty) := _biome_effect st kind biome in
  (bonus * 1.0 - penalty * 0.7)%float.

Definition _kind_for_biome (st : SimulationSettings) (biome : Z) : Z :=
  biome mod Z.max 1 (classes st).

Definition _kind_count (s : t) (kind : Z) : option Z :=
  Py.foldM (fun n r =>
              let? o := objs s !! r in
              Some (if Orc.kind o =? kind then n + 1 else n))
           0 (population s).

(** The agent standing on a cell, if any. *)
Definition agent_at (s : t) (x y : Z) : option (option Orc.t) :=
  let? c := Environment.get (environment s) x y in
  match c with
  | None => Some None
  | Some r => let? o := objs s !! r in Some (Some o)
  end.

(** The two nested loops over the square of a radius around a cell, clipped
    to the grid; [body] is the loop body for the cell [(x, y)]. *)
Definition scan_square {A} (s : t) (x0 y0 radius : Z)
    (body : A -> Z -> Z -> option A) (a : A) : option A :=
  let e := environment s in
  Py.foldM (fun a y =>
    Py.foldM (fun a x => body a x y) a
      (Py.range (Z.max 0 (x0 - radius))
                (Z.min (Environment.width e) (x0 + radius + 1))))
    a
    (Py.range (Z.max 0 (y0 - radius))
              (Z.min (Environment.height e) (y0 + radius + 1))).

Definition _social_counts (s : t) (orc : Z) : option (Z * Z) :=
  let? o := objs s !! orc in
  let radius := group_support_radius (settings s) in
  let '(x0, y0) := Orc.position o in
  scan_square s x0 y0 radius
    (fun '(friends, foes) x y =>
       if (x =? x0) && (y =? y0) then Some (friends, foes)
       else
         let? other := agent_at s x y in
         match other with
         | None => Some (friends, foes)
         | Some other =>
             if Orc.kind other =? Orc.kind o then Some (friends + 1, foes)
             else Some (friends, foes + 1)
         end)
    (0, 0).

Definition _local_support_score (s : t) (orc : Z) : option float :=
  let? (friends, foes) := _social_counts s orc in
  let net := (Py.float_of_int friends - Py.float_of_int foes * 0.6)%float in
  Some (net * support_score_factor (settings s))%float.

Definition _herd_bonus (s : t) (orc : Z) (coord : Z * Z) : option float :=
  let radius := herd_radius (settings s) in
  if radius <=? 0 then Some 0.0%float
  else
    let? o := objs s !! orc in
    let '(ox, oy) := coord in
    let? total :=
      scan_square s ox oy radius
        (fun total x y =>
           let? neighbor := agent_at s x y in
           match neighbor with
           | Some n => Some (if Orc.kind n =? Orc.kind o then total + 1 else total)
           | None => Some total
           end) 0 in
    let? w := Py.fdiv_int (herd_attraction (settings s))
                          (Z.max 1 (radius * radius)) in
    Some (Py.float_of_int total * w)%float.

Definition _threat_penalty (s : t) (orc : Z) (coord : Z * Z) : option float :=
  let radius := escape_threat_radius (settings s) in
  if radius <=? 0 then Some 0.0%float
  else
    let? o := objs s !! orc in
    let '(ox, oy) := coord in
    let? enemies :=
      scan_square s ox oy radius
        (fun enemies x y =>
           if (x =? ox) && (y =? oy) then Some enemies
           else
             let? other := agent_at s x y in
             match other with
             | Some n =>
                 Some (if negb (Orc.kind n =? Orc.kind o) then enemies + 1
                       else enemies)
             | None => Some enemies
             end) 0 in
    Some (Py.float_of_int enemies * escape_threat_weight (settings s))%float.

Definition _env_score (s : t) (kind : Z) (coord : Z * Z) : option float :=
  let '(x, y) := coord in
  let e := environment s in
  let? humidity := Environment.humidity_at e x y in
  let? fertility := Environment.fertility_at e x y in
  let? biome := Environment.biome_at e x y in
  let score := (humidity * 0.35 + fertility * 0.5)%float in
  Some (score + _biome_move_bonus (settings s) kind biome)%float.

Definition _seek_habitat_direction (s : t) (orc : Z) (current_score : float)
  : option (option (Z * Z)) :=
  let radius := habitat_seek_radius (settings s) in
  if radius <=? 0 then Some None
  else
    let? o := objs s !! orc in
    let '(ox, oy) := Orc.position o in
    let? (_, best_coord) :=
      scan_square s ox oy radius
        (fun '(best_score, best_coord) x y =>
           let? score := _env_score s (Orc.kind o) (x, y) in
           if (best_score + 0.05 <? score)%float then Some (score, Some (x, y))
           else Some (best_score, best_coord))
        (current_score, None) in
    match best_coord with
    | None => Some None
    | Some (bx, by_) => Some (Some (bx - ox, by_ - oy))
    end.

Definition _virus_spawn_chance (s : t) (orc : Z) : option float :=
  let st := settings s in
  let? o := objs s !! orc in
  let '(x, y) := Orc.position o in
  let? biome := Environment.biome_at (environment s) x y in
  let '(_bonus, penalty) := _biome_effect st (Orc.kind o) biome in
  let base := if (0 <? penalty)%float then virus_spawn_stressed st
              else virus_spawn_base st in
  if virus_crowd_pop_threshold st <=? Z.of_nat (length (population s)) then
    let? (friends, _) := _social_counts s orc in
    if virus_crowd_threshold st <=? friends
    then Some (base * virus_crowd_multiplier st)%float
    else Some base
  else Some base.

Definition _effective_fitness (st : SimulationSettings) (o : Orc.t) : float :=
  let fitness := Orc.fitness o in
  if Orc.infected o
  then (fitness * Py.max 0.2 (1.0 - virus_fight_penalty st))%float
  else fitness.

Definition _is_dead (st : SimulationSettings) (o : Orc.t) : bool :=
  (Orc.energy o <=? 0)%float || (max_age st <? Orc.age o).

(** The [any(...)] over the occupied neighbours of the agent's cell: is
    an agent of the same kind on an adjacent cell? *)
Definition ally_adjacent (s : t) (orc : Z) : option bool :=
  let? o := objs s !! orc in
  let '(x, y) := Orc.position o in
  let? occ := Environment.occupied_neighbors (environment s) x y in
  Py.foldM (fun found '(cx, cy) =>
              if found : bool then Some true
              else
                let? neighbor := agent_at s cx cy in
                match neighbor with
                | Some n => Some (Orc.kind n =? Orc.kind o)
                | None => Some false
                end) false occ.

Definition score_lt {A} (a b : float * A) : bool := (a.1 <? b.1)%float.

Definition _pick_target (s : t) (orc : Z) (occupied_neighbors : list (Z * Z))
  : option (option (Z * Z)) :=
  let? o := objs s !! orc in
  let? candidates :=
    Py.foldM (fun candidates '(cx, cy) =>
      let? target := agent_at s cx cy in
      match target with
      | None => Some candidates
      | Some tg =>
          if Orc.kind tg =? Orc.kind o then Some candidates
          else
            let advantage := (Orc.fitness o - Orc.fitness tg)%float in
            let energy_gap := ((Orc.energy o - Orc.energy tg) * 0.1)%float in
            let score := (advantage + energy_gap)%float in
            Some (candidates ++ [(score, (cx, cy))])
      end) [] occupied_neighbors in
  match Py.sorted_reverse score_lt candidates with
  | [] => Some None
  | (best_score, best_coord) :: _ =>
      Some (if (-0.3 <? best_score)%float then Some best_coord else None)
  end.

Definition metrics (s : t) : option SimulationMetrics.t :=
  let? pop := mapM (fun r => objs s !! r) (population s) in
  let count := Z.of_nat (length pop) in
  if count =? 0 then
    Some (SimulationMetrics.mk (tick s) 0 0.0 0.0 0.0)
  else
    let? a := Py.fdiv_int (Py.fsum (Orc.strength <$> pop)) count in
    let? b := Py.fdiv_int (Py.fsum (Orc.agility <$> pop)) count in
    let? c := Py.fdiv_int (Py.fsum (Orc.resilience <$> pop)) count in
    Some (SimulationMetrics.mk (tick s) count a b c).

(** [counts_by_kind()]: one counter per class, and the agents of the
    population counted under [kind % len(counts)].  The list of counters is
    never empty. *)
Definition counts_by_kind (s : t) : option (list Z) :=
  let counts :=
    (fun _ : Z => 0) <$> Py.range 0 (Z.max 1 (classes (settings s))) in
  Py.foldM (fun counts r =>
              let? o := objs s !! r in
              let idx := Orc.kind o mod Z.of_nat (length counts) in
              let? c := Py.index counts idx in
              Py.setitem counts idx (c + 1))
           counts (population s).

(** *** Methods that write the engine *)

Definition draw_opt {A} (f : rng_state -> option (A * rng_state)) : M A :=
  fun s => match f (rng s) with
           | Some (a, g) => Some (a, with_rng s g)
           | None => None
           end.

(** A new agent object enters the store under its id. *)
Definition new_orc (o : Orc.t) : M Z :=
  fun s => Some (Orc.id o, with_objs s (<[Orc.id o := o]> (objs s))).

Definition inb (k : Z) (l : list Z) : bool := existsb (Z.eqb k) l.

(** [population[k] = ...] and [population.pop(k, None)] on the keys. *)
Definition dict_set (k : Z) : M unit :=
  fun s => Some (tt, with_population s
                       (if inb k (population s) then population s
                        else population s ++ [k])).
Definition dict_pop (k : Z) : M unit :=
  fun s => Some (tt, with_population s (filter (fun j => j <> k) (population s))).

Definition place (orc : Z) (dest : Z * Z) : M unit :=
  fun s => match Environment.place orc dest.1 dest.2 (objs s) (environment s) with
           | Some (h, e) => Some (tt, with_world s h e)
           | None => None
           end.
Definition move (orc : Z) (dest : Z * Z) : M unit :=
  fun s => match Environment.move orc dest (objs s) (environment s) with
           | Some (h, e) => Some (tt, with_world s h e)
           | None => None
           end.

Definition _remove_orc (orc : Z) : M unit :=
  (fun s => match Environment.remove orc (objs s) (environment s) with
            | Some e => Some (tt, with_world s (objs s) e)
            | None => None
            end);;
  let! o := deref orc in
  dict_pop (Orc.id o).

Definition tuple3 (m : float * float * float) : list float :=
  let '(a, b, c) := m in [a; b; c].

Definition _apply_kind_modifiers (orc : Z) : M unit :=
  let! st := gets settings in
  let! o := deref orc in
  let idx :=
    Orc.kind o mod Z.max 1 (Z.of_nat (length (tuple3 (kind_strength_mods st)))) in
  let! strength_mod := read (fun _ => Py.index (tuple3 (kind_strength_mods st)) idx) in
  let! agility_mod := read (fun _ => Py.index (tuple3 (kind_agility_mods st)) idx) in
  let! resilience_mod := read (fun _ => Py.index (tuple3 (kind_resilience_mods st)) idx) in
  update_orc orc (fun o =>
    Orc.with_traits o (Orc.strength o * strength_mod)
                      (Orc.agility o * agility_mod)
                      (Orc.resilience o * resilience_mod)).

Definition _spawn_orc (position : Z * Z) : M Z :=
  let! st := gets settings in
  let! biome :=
    read (fun s => Environment.biome_at (environment s) position.1 position.2) in
  let kind := _kind_for_biome st biome in
  let! next_id := gets _next_id in
  let! strength := draw (Random.uniform 0.5 1.5) in
  let! agility := draw (Random.uniform 0.5 1.5) in
  let! resilience := draw (Random.uniform 0.5 1.5) in
  let! orc :=
    new_orc (Orc.mk next_id position kind strength agility resilience
                    (base_energy st) 0 false 0) in
  (fun s => Some (tt, with_next_id s (_next_id s + 1)));;
  _apply_kind_modifiers orc;;
  let! o := deref orc in
  dict_set (Orc.id o);;
  place orc position;;
  ret orc.

Definition all_coords (w h : Z) : list (Z * Z) :=
  x ← Py.range 0 w; (fun y => (x, y)) <$> Py.range 0 h.

Definition _seed_initial_population : M unit :=
  let! st := gets settings in
  let capacity := grid_width st * grid_height st in
  let! target :=
    read (fun _ => Py.int_of_float
                     (Py.float_of_int capacity * initial_orc_ratio st)) in
  let coords := all_coords (grid_width st) (grid_height st) in
  let! coords := draw (Random.shuffle coords) in
  for_each (Py.slice_to coords target) (fun c => _spawn_orc c;; ret tt).

(** [Simulation(settings, rng)].  With no generator passed and no seed in
    the settings, [random.Random(None)] seeds itself from the operating
    system: [os_rng] is the generator it then is. *)
Definition init (st : SimulationSettings) (rng_arg : option rng_state)
    (os_rng : rng_state) : option t :=
  let g := match rng_arg with
           | Some g => g
           | None => match seed st with
                     | Some z => seed_rng z
                     | None => os_rng
                     end
           end in
  let? (e, g') := Environment.init (grid_width st) (grid_height st) g in
  let? (_, s) := _seed_initial_population (mk st g' e ∅ [] 0 1) in
  Some s.

(** [reset()]: the old agents are dropped with the old grid and the cleared
    dictionary, so the store starts empty again. *)
Definition reset : M unit :=
  fun s =>
    let st := settings s in
    let? (e, g') := Environment.init (grid_width st) (grid_height st) (rng s) in
    _seed_initial_population (mk st g' e ∅ [] 0 1).

Definition _apply_environment_pressure (orc : Z) : M unit :=
  let! st := gets settings in
  let! o := deref orc in
  let '(x, y) := Orc.position o in
  let! humidity := read (fun s => Environment.humidity_at (environment s) x y) in
  (if (humidity <? 0.45)%float then
     let penalty := ((0.45 - humidity) * humidity_penalty st)%float in
     update_orc orc (Orc.adjust_energy (- penalty))
   else if (0.65 <? humidity)%float then
     let bonus := ((humidity - 0.65) * humidity_bonus st)%float in
     update_orc orc (Orc.adjust_energy bonus)
   else ret tt);;
  let! biome := read (fun s => Environment.biome_at (environment s) x y) in
  let '(bonus, penalty) := _biome_effect st (Orc.kind o) biome in
  (if Py.truthy bonus then update_orc orc (Orc.adjust_energy bonus) else ret tt);;
  (if Py.truthy penalty then update_orc orc (Orc.adjust_energy (- penalty))
   else ret tt).

Definition _apply_social_context (orc : Z) : M unit :=
  let! st := gets settings in
  let! (friends, foes) := read (fun s => _social_counts s orc) in
  (if 2 <=? friends then
     let boost :=
       (Py.float_of_int (Z.min 3 friends) * group_support_bonus st)%float in
     update_orc orc (Orc.adjust_energy boost)
   else ret tt);;
  (if friends + loner_grit_threshold st <=? foes
   then update_orc orc (Orc.adjust_energy (loner_grit_bonus st))
   else ret tt).

(** The body of the loop of [_apply_disease] over the occupied
    neighbours: the draw happens only for a neighbour not yet infected. *)
Definition spread_to (st : SimulationSettings) (coord : Z * Z) : M unit :=
  let! c := read (fun s => Environment.get (environment s) coord.1 coord.2) in
  match c with
  | None => ret tt
  | Some target =>
      let! tg := deref target in
      if Orc.infected tg then ret tt
      else
        let! u := draw rng_random in
        if (u <? virus_spread_chance st)%float
        then update_orc target (Orc.infect (virus_duration st))
        else ret tt
  end.

Definition _apply_disease (orc : Z) : M unit :=
  let! st := gets settings in
  let! o := deref orc in
  (if negb (Orc.infected o) then
     let! u := draw rng_random in
     let! chance := read (fun s => _virus_spawn_chance s orc) in
     if (u <? chance)%float
     then update_orc orc (Orc.infect (virus_duration st))
     else ret tt
   else ret tt);;
  let! o := deref orc in
  if negb (Orc.infected o) then ret tt
  else
    update_orc orc (fun o =>
      Orc.with_infection o (Orc.infected o) (Orc.infection_timer o - 1));;
    update_orc orc (Orc.adjust_energy (- virus_energy_penalty st));;
    let! occ :=
      read (fun s => Environment.occupied_neighbors (environment s)
                       (Orc.position o).1 (Orc.position o).2) in
    for_each occ (spread_to st);;
    let! o := deref orc in
    if Orc.infection_timer o <=? 0
    then update_orc orc (fun o => Orc.with_infection o false 0)
    else ret tt.

(** The chance of the overpopulation cull for a population of [current]. *)
Definition overpop_chance (st : SimulationSettings) (current : Z)
  : option float :=
  let limit := max_population st in
  let? overload := Py.truediv (current - limit) limit in
  Some (Py.min 0.75 (overpop_base st + overload * overpop_scale st)).

Definition _overpop_kill_check (orc : Z) : M bool :=
  let! st := gets settings in
  let limit := max_population st in
  if limit <=? 0 then ret false
  else
    let! current := gets (fun s => Z.of_nat (length (population s))) in
    if current <=? limit then ret false
    else
      let! chance := read (fun _ => overpop_chance st current) in
      let! u := draw rng_random in
      if (u <? chance)%float then _remove_orc orc;; ret true
      else ret false.

(** The energy handed to a child. *)
Definition energy_for_child (st : SimulationSettings) (parent_energy : float)
  : float :=
  Py.max 2.0 (Py.min (base_energy st)
                     (parent_energy * reproduction_energy_share st)).

Definition _maybe_reproduce (orc : Z) : M bool :=
  let! st := gets settings in
  let! o := deref orc in
  let! pop_kind := read (fun s => _kind_count s (Orc.kind o)) in
  let endangered := pop_kind <=? endangered_threshold st in
  let threshold :=
    if endangered
    then (reproduction_threshold st * endangered_repro_factor st)%float
    else reproduction_threshold st in
  let chance :=
    if endangered
    then Py.min 1.0 (reproduction_chance st + endangered_repro_bonus st)
    else reproduction_chance st in
  let! n := gets (fun s => Z.of_nat (length (population s))) in
  let chance :=
    if reproduction_overpop_pop_threshold st <=? n
    then (chance * reproduction_overpop_factor st)%float
    else chance in
  if (Orc.energy o <? threshold)%float then ret false
  else
    let! u := draw rng_random in
    if (chance <? u)%float then ret false
    else
      let! ally := read (fun s => ally_adjacent s orc) in
      if negb ally then ret false
      else
        let! empties :=
          read (fun s => Environment.empty_neighbors (environment s)
                           (Orc.position o).1 (Orc.position o).2) in
        match empties with
        | [] => ret false
        | _ :: _ =>
            let! dest := draw_opt (Random.choice empties) in
            let efc := energy_for_child st (Orc.energy o) in
            let! next_id := gets _next_id in
            let! c :=
              draw (Orc.clone_with_mutation o (mutation_rate st)
                      (mutation_scale st) next_id) in
            let! child := new_orc c in
            (fun s => Some (tt, with_next_id s (_next_id s + 1)));;
            update_orc child (fun c => Orc.with_energy c efc);;
            let! c := deref child in
            dict_set (Orc.id c);;
            place child dest;;
            update_orc orc (Orc.adjust_energy (- efc));;
            ret true
        end.

Definition _forage (orc : Z) (fertility : float) : M unit :=
  let! st := gets settings in
  let gain := (forage_gain st * (0.4 + fertility))%float in
  let! u := draw (Random.uniform 0.6 1.2) in
  let gain := (gain * u)%float in
  update_orc orc (Orc.adjust_energy (gain - forage_cost st)).

Definition _should_attack (challenger defender : Z) : M bool :=
  let! st := gets settings in
  let! c := deref challenger in
  let! d := deref defender in
  let advantage := (Orc.fitness c - Orc.fitness d)%float in
  if Orc.kind c =? Orc.kind d then ret false
  else if (advantage <? -0.6)%float then ret false
  else
    let! nd := read (fun s => _kind_count s (Orc.kind d)) in
    if nd <=? endangered_threshold st then ret false
    else
      let! nc := read (fun s => _kind_count s (Orc.kind c)) in
      if nc <=? peace_floor_count st then ret false
      else
        let aggression := (aggression_bias st + advantage * 0.1)%float in
        let energy_edge := (Orc.energy c - Orc.energy d)%float in
        let aggression :=
          if (2 <? energy_edge)%float then (aggression + 0.1)%float
          else aggression in
        let! u := draw rng_random in
        ret (u <? aggression)%float.

(** The body of the loop of [_choose_move_target] for one empty cell. *)
Definition desirability_of (orc : Z) (o : Orc.t) (current_score : float)
    (target_vec : option (Z * Z)) (friends_adjacent low_pop low_strength : bool)
    (coord : Z * Z) : M (float * (Z * Z)) :=
  let! st := gets settings in
  let! base := read (fun s => _env_score s (Orc.kind o) coord) in
  let! herd_bonus := read (fun s => _herd_bonus s orc coord) in
  let herd_bonus :=
    if negb friends_adjacent then (herd_bonus * pair_seek_multiplier st)%float
    else herd_bonus in
  let! threat_penalty :=
    if low_pop && low_strength then read (fun s => _threat_penalty s orc coord)
    else ret 0.0%float in
  let desirability := (base + herd_bonus - threat_penalty)%float in
  let! desirability :=
    match target_vec with
    | Some (vx, vy) =>
        let dx := coord.1 - (Orc.position o).1 in
        let dy := coord.2 - (Orc.position o).2 in
        let dot := dx * vx + dy * vy in
        let norm :=
          Py.max 1e-3 (pow_half (Py.float_of_int (dx * dx + dy * dy))
                       * pow_half (Py.float_of_int (vx * vx + vy * vy)))%float in
        let! q := read (fun _ => Py.int_div_f dot norm) in
        let align := Py.max 0.0 q in
        ret (desirability + habitat_seek_bonus st * align)%float
    | None => ret desirability
    end in
  let desirability :=
    if (current_score <? habitat_bad_threshold st)%float
    then (desirability + (base - current_score) * 0.8)%float
    else desirability in
  let! u := draw (Random.uniform (-0.1) 0.1) in
  ret ((desirability + u)%float, coord).

Definition _choose_move_target (orc : Z) (empties : list (Z * Z))
  : M (Z * Z) :=
  let! st := gets settings in
  let! o := deref orc in
  let! current_score :=
    read (fun s => _env_score s (Orc.kind o) (Orc.position o)) in
  let! target_vec :=
    read (fun s => _seek_habitat_direction s orc current_score) in
  let! friends_adjacent := read (fun s => ally_adjacent s orc) in
  let! n := read (fun s => _kind_count s (Orc.kind o)) in
  let low_pop := n <=? endangered_threshold st in
  let low_strength :=
    (Orc.strength o <=? escape_strength_threshold st)%float in
  let! weighted :=
    for_collect empties
      (desirability_of orc o current_score target_vec friends_adjacent
                       low_pop low_strength) in
  let weighted := Py.sorted_reverse score_lt weighted in
  let top := Py.slice_to weighted (Z.min 3 (Z.of_nat (length weighted))) in
  let! chosen := draw_opt (Random.choice top) in
  ret chosen.2.

(** The two combat scores of [_resolve_fight], in the order they are
    computed: both supports, then each side's sum with its own draw. *)
Definition fight_scores (challenger defender : Z) : M (float * float) :=
  let! st := gets settings in
  let! support_challenger := read (fun s => _local_support_score s challenger) in
  let! support_defender := read (fun s => _local_support_score s defender) in
  let! c := deref challenger in
  let! jc := draw (Random.uniform (-0.4) 0.4) in
  let challenge_score :=
    (_effective_fitness st c + jc + support_challenger)%float in
  let! d := deref defender in
  let! jd := draw (Random.uniform (-0.4) 0.4) in
  let defense_score :=
    (_effective_fitness st d + jd + support_defender)%float in
  ret (challenge_score, defense_score).

Definition remove_if_exhausted (orc : Z) : M unit :=
  let! o := deref orc in
  if (Orc.energy o <=? 0)%float then _remove_orc orc else ret tt.

Definition _resolve_fight (challenger defender : Z) : M unit :=
  let! st := gets settings in
  let! c := deref challenger in
  let! d := deref defender in
  let! pop := gets population in
  if negb (inb (Orc.id d) pop) || negb (inb (Orc.id c) pop) then ret tt
  else
    update_orc challenger (Orc.adjust_energy (- fight_cost st * 0.5));;
    update_orc defender (Orc.adjust_energy (- fight_cost st * 0.5));;
    let! c := deref challenger in
    if (Orc.energy c <=? 0)%float then _remove_orc challenger
    else
      let! d := deref defender in
      if (Orc.energy d <=? 0)%float then _remove_orc defender
      else
        let! (challenge_score, defense_score) :=
          fight_scores challenger defender in
        let diff := abs (challenge_score - defense_score) in
        let '(winner, loser) :=
          if (defense_score <=? challenge_score)%float
          then (challenger, defender) else (defender, challenger) in
        if (diff <? skirmish_threshold st)%float then
          update_orc challenger
            (Orc.adjust_energy (- fight_cost st * skirmish_cost_factor st));;
          update_orc defender
            (Orc.adjust_energy (- fight_cost st * skirmish_cost_factor st));;
          update_orc winner (Orc.adjust_energy (fight_reward st * 0.4));;
          remove_if_exhausted challenger;;
          remove_if_exhausted defender
        else
          _remove_orc loser;;
          update_orc winner
            (Orc.adjust_energy (fight_reward st - fight_cost st * 0.5));;
          update_orc winner (fun w =>
            Orc.with_traits w (Orc.strength w + 0.05) (Orc.agility w)
                              (Orc.resilience w));;
          update_orc winner (fun w =>
            Orc.with_traits w (Orc.strength w) (Orc.agility w)
                              (Orc.resilience w + 0.03));;
          remove_if_exhausted winner.

Definition _take_action (orc : Z) : M unit :=
  let! st := gets settings in
  let! o := deref orc in
  let '(x, y) := Orc.position o in
  let! occupied :=
    read (fun s => Environment.occupied_neighbors (environment s) x y) in
  let! empties :=
    read (fun s => Environment.empty_neighbors (environment s) x y) in
  let! fertility_here :=
    read (fun s => Environment.fertility_at (environment s) x y) in
  let low_energy := (Orc.energy o <? rest_threshold st)%float in
  let! rest :=
    if low_energy then let! u := draw rng_random in ret (u <? 0.55)%float
    else ret false in
  if rest then _forage orc fertility_here
  else
    let! target_coord := read (fun s => _pick_target s orc occupied) in
    let! fought :=
      match target_coord with
      | Some (tx, ty) =>
          let! target := read (fun s => Environment.get (environment s) tx ty) in
          match target with
          | Some target =>
              let! attack := _should_attack orc target in
              if attack then _resolve_fight orc target;; ret true
              else ret false
          | None => ret false
          end
      | None => ret false
      end in
    if fought then ret tt
    else
      match empties with
      | _ :: _ =>
          let! dest := _choose_move_target orc empties in
          move orc dest;;
          update_orc orc (Orc.adjust_energy (- move_cost st));;
          let! o := deref orc in
          if (Orc.energy o <? rest_threshold st)%float then
            let! u := draw rng_random in
            if (u <? 0.35)%float then
              let! fertility_moved :=
                read (fun s => Environment.fertility_at (environment s)
                                 dest.1 dest.2) in
              _forage orc fertility_moved
            else ret tt
          else ret tt
      | [] =>
          let! u := draw rng_random in
          if (u <? 0.4)%float then _forage orc fertility_here else ret tt
      end.

(** The body of the loop of [step] for one agent of the shuffled order. *)
Definition step_orc (orc : Z) : M unit :=
  let! st := gets settings in
  let! o := deref orc in
  let! pop := gets population in
  if negb (inb (Orc.id o) pop) then ret tt
  else
    update_orc orc (Orc.tick (energy_decay st));;
    _apply_environment_pressure orc;;
    _apply_social_context orc;;
    _apply_disease orc;;
    let! culled := _overpop_kill_check orc in
    if culled then ret tt
    else
      let! o := deref orc in
      if _is_dead st o then _remove_orc orc
      else
        let! reproduced := _maybe_reproduce orc in
        if reproduced then ret tt else _take_action orc.

Definition step : M unit :=
  let! order := gets population in
  let! order := draw (Random.shuffle order) in
  for_each order step_orc;;
  (fun s => Some (tt, with_tick s (tick s + 1))).
End Simulation.
End Simulation.

(** ** Concrete inputs *)

(** A generator whose draws never change: [random()] is always [0.5] and
    [_randbelow(n)] always [0]. *)
Definition const_random : PyRandom := {|
  rng_state := unit;
  seed_rng := fun _ => tt;
  rng_random := fun g => (0.5%float, g);
  rng_randbelow := fun _ g => (0, g);
  rng_randbelow_range := fun n g (Hn : 0 < n) => conj (Z.le_refl 0) Hn
|}.

(** The default settings with the fields that the examples vary. *)
Definition settings_with (w h : Z) (ratio : float) (cls maxpop : Z)
    (rchance skirmish : float) (sd : option Z) : SimulationSettings := {|
  grid_width := w;
  grid_height := h;
  cell_size := cell_size DEFAULT_SETTINGS;
  tick_rate := tick_rate DEFAULT_SETTINGS;
  classes := cls;
  initial_orc_ratio := ratio;
  max_age := max_age DEFAULT_SETTINGS;
  base_energy := base_energy DEFAULT_SETTINGS;
  energy_decay := energy_decay DEFAULT_SETTINGS;
  move_cost := move_cost DEFAULT_SETTINGS;
  fight_reward := fight_reward DEFAULT_SETTINGS;
  fight_cost := fight_cost DEFAULT_SETTINGS;
  reproduction_threshold := reproduction_threshold DEFAULT_SETTINGS;
  reproduction_chance := rchance;
  reproduction_energy_share := reproduction_energy_share DEFAULT_SETTINGS;
  reproduction_overpop_pop_threshold := reproduction_overpop_pop_threshold DEFAULT_SETTINGS;
  reproduction_overpop_factor := reproduction_overpop_factor DEFAULT_SETTINGS;
  mutation_rate := mutation_rate DEFAULT_SETTINGS;
  mutation_scale := mutation_scale DEFAULT_SETTINGS;
  humidity_penalty := humidity_penalty DEFAULT_SETTINGS;
  humidity_bonus := humidity_bonus DEFAULT_SETTINGS;
  forage_gain := forage_gain DEFAULT_SETTINGS;
  forage_cost := forage_cost DEFAULT_SETTINGS;
  rest_threshold := rest_threshold DEFAULT_SETTINGS;
  aggression_bias := aggression_bias DEFAULT_SETTINGS;
  herd_radius := herd_radius DEFAULT_SETTINGS;
  herd_attraction := herd_attraction DEFAULT_SETTINGS;
  pair_seek_multiplier := pair_seek_multiplier DEFAULT_SETTINGS;
  escape_strength_threshold := escape_strength_threshold DEFAULT_SETTINGS;
  escape_threat_radius := escape_threat_radius DEFAULT_SETTINGS;
  escape_threat_weight := escape_threat_weight DEFAULT_SETTINGS;
  biome_bonus := biome_bonus DEFAULT_SETTINGS;
  biome_penalty := biome_penalty DEFAULT_SETTINGS;
  peace_floor_count := peace_floor_count DEFAULT_SETTINGS;
  skirmish_threshold := skirmish;
  skirmish_cost_factor := skirmish_cost_factor DEFAULT_SETTINGS;
  group_support_bonus := group_support_bonus DEFAULT_SETTINGS;
  group_support_radius := group_support_radius DEFAULT_SETTINGS;
  loner_grit_bonus := loner_grit_bonus DEFAULT_SETTINGS;
  loner_grit_threshold := loner_grit_threshold DEFAULT_SETTINGS;
  support_score_factor := support_score_factor DEFAULT_SETTINGS;
  virus_spawn_base := virus_spawn_base DEFAULT_SETTINGS;
  virus_spawn_stressed := virus_spawn_stressed DEFAULT_SETTINGS;
  virus_crowd_threshold := virus_crowd_threshold DEFAULT_SETTINGS;
  virus_crowd_pop_threshold := virus_crowd_pop_threshold DEFAULT_SETTINGS;
  virus_crowd_multiplier := virus_crowd_multiplier DEFAULT_SETTINGS;
  virus_spread_chance := virus_spread_chance DEFAULT_SETTINGS;
  virus_duration := virus_duration DEFAULT_SETTINGS;
  virus_energy_penalty := virus_energy_penalty DEFAULT_SETTINGS;
  virus_fight_penalty := virus_fight_penalty DEFAULT_SETTINGS;
  max_population := maxpop;
  overpop_base := overpop_base DEFAULT_SETTINGS;
  overpop_scale := overpop_scale DEFAULT_SETTINGS;
  habitat_seek_radius := habitat_seek_radius DEFAULT_SETTINGS;
  habitat_seek_bonus := habitat_seek_bonus DEFAULT_SETTINGS;
  habitat_bad_threshold := habitat_bad_threshold DEFAULT_SETTINGS;
  endangered_threshold := endangered_threshold DEFAULT_SETTINGS;
  endangered_repro_bonus := endangered_repro_bonus DEFAULT_SETTINGS;
  endangered_repro_factor := endangered_repro_factor DEFAULT_SETTINGS;
  kind_strength_mods := kind_strength_mods DEFAULT_SETTINGS;
  kind_agility_mods := kind_agility_mods DEFAULT_SETTINGS;
  kind_resilience_mods := kind_resilience_mods DEFAULT_SETTINGS;
  seed := sd
|}.

(** ** Notions used to state the properties *)

(** Strict order of two floats, and two floats that compare different. *)
Definition flt (x y : float) : Prop := (x <? y)%float = true.
Definition apart (x y : float) : Prop := flt x y \/ flt y x.

#[global] Instance flt_dec (x y : float) : Decision (flt x y).
Proof. unfold flt. apply _. Defined.

(** The values of a list compare pairwise different. *)
Fixpoint pairwise_distinct (l : list float) : bool :=
  match l with
  | [] => true
  | x :: l' =>
      forallb (fun y => (x <? y)%float || (y <? x)%float) l'
      && pairwise_distinct l'
  end.
Fixpoint Distinct (l : list float) : Prop :=
  match l with
  | [] => True
  | x :: l' => Forall (apart x) l' /\ Distinct l'
  end.

(** How many values of a list are strictly below [t]. *)
Definition below (t : float) (l : list float) : nat :=
  length (filter (fun z => flt z t) l).

(** How many cells of a biome layer are of class [k]. *)
Definition count_class (k : Z) (cs : list Z) : nat :=
  length (filter (fun v => v = k) cs).
Definition class_size (k : Z) (b : list (list Z)) : nat :=
  count_class k (concat b).

(** The first two statements of the body of the loop of [step] for one
    agent: it ages and pays the decay, then the pressure of its cell. *)
Definition decay_then_pressure {R : PyRandom} (orc : Z) : Simulation.M unit :=
  Simulation.bind (Simulation.gets Simulation.settings) (fun st =>
  Simulation.bind (Simulation.update_orc orc (Orc.tick (energy_decay st))) (fun _ =>
  Simulation._apply_environment_pressure orc)).

(** The effect of a biome on a kind as the cycle over the configured number
    of classes describes it. *)
Definition biome_effect_by_classes (st : SimulationSettings) (kind biome : Z)
  : float * float :=
  if biome =? kind then (biome_bonus st, 0.0%float)
  else if (biome + 1) mod classes st =? kind then (0.0%float, 0.0%float)
  else (0.0%float, biome_penalty st).

(** Three classes whose sizes are within the remainder of the cell count
    by three of one another. *)
Definition balanced (b : list (list Z)) : Prop :=
  forall i j, i ∈ [0; 1; 2] -> j ∈ [0; 1; 2] ->
    (class_size i b <= class_size j b + length (concat b) mod 3)%nat.

(** What is seen of an engine between two ticks: the agents in the order of
    the population dictionary, the grid, and the metrics. *)
Section Observation.
Context {R : PyRandom} {L : Libm}.

Definition observation : Type :=
  list (option Orc.t) * list (list (option Z)) * option SimulationMetrics.t.

Definition snapshot (s : Simulation.t) : list (option Orc.t) :=
  (fun r => Simulation.objs s !! r) <$> Simulation.population s.

Definition observe (s : Simulation.t) : observation :=
  (snapshot s, Environment._grid (Simulation.environment s),
   Simulation.metrics s).

(** [n] calls of [step()], observing before each and after the last; the
    engine that is left comes with the observations. *)
Fixpoint run (n : nat) (s : Simulation.t)
  : option (list observation * Simulation.t) :=
  match n with
  | O => Some ([observe s], s)
  | S n' =>
      let? (_, s1) := Simulation.step s in
      let? (tr, s2) := run n' s1 in
      Some (observe s :: tr, s2)
  end.

(** [Simulation(settings)] followed by [n] ticks. *)
Definition simulate (st : SimulationSettings) (os_rng : rng_state) (n : nat)
  : option (list observation * Simulation.t) :=
  let? s := Simulation.init st None os_rng in
  run n s.
End Observation.

(** ** Running a method *)

(** [wp m Q s]: from [s] the method [m] returns (raises nothing) and its
    result and final state satisfy [Q]. *)
Definition wp {R : PyRandom} {A} (m : Simulation.M A)
    (Q : A -> Simulation.t -> Prop) (s : Simulation.t) : Prop :=
  exists a s', m s = Some (a, s') /\ Q a s'.

(** ** The invariant of the engine *)

(** A grid of [h] rows of [w] cells. *)
Definition rect {A} (w h : Z) (g : list (list A)) : Prop :=
  length g = Z.to_nat h /\ Forall (fun row => length row = Z.to_nat w) g.

(** A function on agents that leaves id, position and kind alone. *)
Definition keeps_place (f : Orc.t -> Orc.t) : Prop :=
  forall o, Orc.id (f o) = Orc.id o /\ Orc.position (f o) = Orc.position o /\
            Orc.kind (f o) = Orc.kind o.

Section Invariant.
Context {R : PyRandom} {L : Libm}.
Import Simulation.

Definition inside (e : Environment.t) (p : Z * Z) : Prop :=
  0 <= p.1 < Environment.width e /\ 0 <= p.2 < Environment.height e.

Record env_wf (e : Environment.t) : Prop := {
  wf_grid : rect (Environment.width e) (Environment.height e) (Environment._grid e);
  wf_humidity :
    rect (Environment.width e) (Environment.height e) (Environment._humidity e);
  wf_fertility :
    rect (Environment.width e) (Environment.height e) (Environment._fertility e);
  wf_biome : rect (Environment.width e) (Environment.height e) (Environment._biome e)
}.

(** The grid and the population dictionary agree. *)
Record consistent (s : t) : Prop := {
  (** an occupied cell holds a live agent, registered under its id, whose
      position is the cell *)
  cell_agent : forall x y r,
    Environment.in_bounds (environment s) x y = true ->
    Environment.get (environment s) x y = Some (Some r) ->
    exists o, objs s !! r = Some o /\ Orc.id o = r /\
              Orc.id o ∈ population s /\ Orc.position o = (x, y);
  (** no agent id is on two cells *)
  cell_unique : forall x y x' y' r r' o o',
    Environment.in_bounds (environment s) x y = true ->
    Environment.in_bounds (environment s) x' y' = true ->
    Environment.get (environment s) x y = Some (Some r) ->
    Environment.get (environment s) x' y' = Some (Some r') ->
    objs s !! r = Some o -> objs s !! r' = Some o' ->
    Orc.id o = Orc.id o' -> (x, y) = (x', y');
  (** a registered agent stands on the cell of its position *)
  agent_cell : forall k,
    k ∈ population s ->
    exists o, objs s !! k = Some o /\ Orc.id o = k /\
      Environment.in_bounds (environment s) (Orc.position o).1 (Orc.position o).2 = true /\
      Environment.get (environment s) (Orc.position o).1 (Orc.position o).2
        = Some (Some k)
}.

(** The invariant kept by every method between two statements that touch
    the grid or the dictionary. *)
Record Inv (s : t) : Prop := {
  inv_env : env_wf (environment s);
  inv_width : Environment.width (environment s) = grid_width (settings s);
  inv_height : Environment.height (environment s) = grid_height (settings s);
  inv_w_pos : 0 < grid_width (settings s);
  inv_h_pos : 0 < grid_height (settings s);
  inv_target :
    is_Some (Py.int_of_float
               (Py.float_of_int (grid_width (settings s) * grid_height (settings s))
                * initial_orc_ratio (settings s)));
  inv_store : forall r o,
    objs s !! r = Some o ->
    Orc.id o = r /\ inside (environment s) (Orc.position o) /\ r < _next_id s;
  inv_grid : forall x y r,
    inside (environment s) (x, y) ->
    Environment.get (environment s) x y = Some (Some r) ->
    r ∈ population s /\ exists o, objs s !! r = Some o /\ Orc.position o = (x, y);
  inv_pop : forall r,
    r ∈ population s ->
    exists o, objs s !! r = Some o /\
      Environment.get (environment s) (Orc.position o).1 (Orc.position o).2
        = Some (Some r);
  inv_nodup : NoDup (population s)
}.

(** [s'] differs from [s] in the generator and in the mutable attributes of
    the agents only. *)
Record same_shape (s s' : t) : Prop := {
  ss_settings : settings s' = settings s;
  ss_environment : environment s' = environment s;
  ss_population : population s' = population s;
  ss_tick : tick s' = tick s;
  ss_next_id : _next_id s' = _next_id s;
  ss_objs : forall r,
    match objs s !! r, objs s' !! r with
    | Some o, Some o' =>
        Orc.id o' = Orc.id o /\ Orc.position o' = Orc.position o /\
        Orc.kind o' = Orc.kind o
    | None, None => True
    | _, _ => False
    end
}.

(** No object leaves the store. *)
Definition store_le (s s' : t) : Prop :=
  forall r, is_Some (objs s !! r) -> is_Some (objs s' !! r).

(** [s'] is a later state of the same run. *)
Definition later (s s' : t) : Prop :=
  Inv s' /\ store_le s s' /\ settings s' = settings s /\ tick s' = tick s.

(** The state right after the environment is built. *)
Definition fresh (s : t) : Prop :=
  objs s = ∅ /\ population s = [] /\ _next_id s = 1 /\
  forall x y, inside (environment s) (x, y) ->
              Environment.get (environment s) x y = Some None.

(** The states of an engine between two ticks: what the construction gives,
    and what [step()] and [reset()] make of such a state. *)
Inductive reachable : t -> Prop :=
| reach_init st rng_arg os_rng s :
    init st rng_arg os_rng = Some s -> reachable s
| reach_step s s' : reachable s -> step s = Some (tt, s') -> reachable s'
| reach_reset s s' : reachable s -> reset s = Some (tt, s') -> reachable s'.
End Invariant.

(** ** Engines of the examples *)

Definition blank {R : PyRandom} (st : SimulationSettings) (g : rng_state)
  : Simulation.t :=
  Simulation.mk st g (Environment.mk 0 0 [] [] [] []) ∅ [] 0 1.

Definition built {R : PyRandom} (st : SimulationSettings) (os_rng : rng_state)
  : Simulation.t :=
  match Simulation.init st None os_rng with
  | Some s => s
  | None => blank st os_rng
  end.

Definition after {R : PyRandom} {A} (m : Simulation.M A) (s : Simulation.t)
  : Simulation.t :=
  match m s with
  | Some (_, s') => s'
  | None => s
  end.

(** A 4 by 3 grid, half of it seeded, under the congruential generator. *)
Definition demo_settings : SimulationSettings :=
  settings_with 4 3 0.5 3 400 0.12 0.9 (Some 42).
Definition demo_engine : @Simulation.t lcg_random :=
  Eval vm_compute in @built lcg_random demo_settings 0.
Definition demo_step : @Simulation.t lcg_random :=
  Eval vm_compute in after (@Simulation.step lcg_random sqrt_libm) demo_engine.
Definition demo_step_reset : @Simulation.t lcg_random :=
  Eval vm_compute in after Simulation.reset demo_step.
Definition demo_reset : @Simulation.t lcg_random :=
  Eval vm_compute in after Simulation.reset demo_engine.
Definition demo_birth : @Simulation.t lcg_random :=
  Eval vm_compute in after (Simulation._maybe_reproduce 1) demo_engine.
Definition demo_noise : list (list float) * Z :=
  Eval vm_compute in
    match @Environment._generate_layer lcg_random 4 3 0.5 0.35 0.0 3 42 with
    | Some r => r
    | None => ([], 0)
    end.

(** The same grid with a cap of three agents for the six that are seeded. *)
Definition crowded_settings : SimulationSettings :=
  settings_with 4 3 0.5 3 3 0.12 0.9 (Some 42).
Definition crowded_engine : @Simulation.t lcg_random :=
  Eval vm_compute in @built lcg_random crowded_settings 0.

(** A grid on which no agent is seeded. *)
Definition empty_settings : SimulationSettings :=
  settings_with 2 1 0.0 3 400 0.12 0.9 (Some 42).
Definition empty_engine : @Simulation.t lcg_random :=
  Eval vm_compute in @built lcg_random empty_settings 0.

(** Two agents side by side under the constant generator, with no skirmish
    margin: their scores are equal. *)
Definition fight_settings : SimulationSettings :=
  settings_with 2 1 1.0 3 400 0.12 0.0 (Some 1).
Definition fight_engine : @Simulation.t const_random :=
  Eval vm_compute in @built const_random fight_settings tt.

(** One agent of energy 18.0 on the only cell of a grid, of humidity 0.3. *)
Definition pressure_state (kind biome : Z) : @Simulation.t const_random :=
  @Simulation.mk const_random (settings_with 1 1 1.0 3 400 0.12 0.9 (Some 1)) tt
    (Environment.mk 1 1 [[Some 1]] [[0.3%float]] [[0.5%float]] [[biome]])
    {[1 := Orc.mk 1 (0, 0) kind 1.0 1.0 1.0 18.0 0 false 0]} [1] 0 2.

(** ** Notions of the further properties *)

(** A float between 0.0 and 1.0, the ends included. *)
Definition in_unit (v : float) : Prop :=
  (0 <=? v)%float = true /\ (v <=? 1)%float = true.

(** A function on agents that leaves id and age alone. *)
Definition keeps_age (f : Orc.t -> Orc.t) : Prop :=
  forall o, Orc.id (f o) = Orc.id o /\ Orc.age (f o) = Orc.age o.

(** A function on agents that leaves the kind alone. *)
Definition keeps_kind (f : Orc.t -> Orc.t) : Prop :=
  forall o, Orc.kind (f o) = Orc.kind o.

Section FurtherNotions.
Context {R : PyRandom} {L : Libm}.
Import Simulation.

(** What [_spawn_orc] leaves of the agent it makes on a cell. *)
Definition seeded (st : SimulationSettings) (e : Environment.t) (r : Z)
    (o : Orc.t) : Prop :=
  Orc.id o = r /\ Orc.energy o = base_energy st /\ Orc.age o = 0 /\
  Orc.infected o = false /\ Orc.infection_timer o = 0 /\
  Environment.in_bounds e (Orc.position o).1 (Orc.position o).2 = true /\
  exists b, Environment.biome_at e (Orc.position o).1 (Orc.position o).2 = Some b /\
            Orc.kind o = _kind_for_biome st b.

(** The end of [_apply_disease] for an agent that is infected when its
    timer is at [t]: it has paid the penalty, and either the timer goes on
    one lower or it ran out and the agent is cured. *)
Definition sick_tick (st : SimulationSettings) (t : Z) (o o' : Orc.t) : Prop :=
  Orc.energy o' = (Orc.energy o + - virus_energy_penalty st)%float /\
  if t - 1 <=? 0
  then Orc.infected o' = false /\ Orc.infection_timer o' = 0
  else Orc.infected o' = true /\ Orc.infection_timer o' = t - 1.

(** What no method but the construction and [reset] writes: the size of
    the environment and its three layers. *)
Definition terrain (e : Environment.t)
  : Z * Z * list (list float) * list (list float) * list (list Z) :=
  (Environment.width e, Environment.height e, Environment._humidity e,
   Environment._fertility e, Environment._biome e).

(** [s'] has the settings, the terrain and the tick of [s], and a next id
    that is not lower. *)
Record frame (s s' : t) : Prop := {
  fr_settings : settings s' = settings s;
  fr_terrain : terrain (environment s') = terrain (environment s);
  fr_tick : tick s' = tick s;
  fr_next_id : _next_id s <= _next_id s'
}.

(** A method that, when it returns, has kept the frame. *)
Definition keeps_frame {A} (m : M A) : Prop :=
  forall s a s', m s = Some (a, s') -> frame s s'.

(** [s'] has the settings of [s], no agent has joined the population, and
    the store holds the same objects with their ids and ages. *)
Record ages_kept (s s' : t) : Prop := {
  ak_settings : settings s' = settings s;
  ak_population : forall r, r ∈ population s' -> r ∈ population s;
  ak_objs : forall r,
    match objs s !! r, objs s' !! r with
    | Some o, Some o' => Orc.id o' = Orc.id o /\ Orc.age o' = Orc.age o
    | None, None => True
    | _, _ => False
    end
}.

(** [s'] has the settings of [s], and an agent of its population is of age
    [0] or was in the population of [s] at the same age. *)
Record ages_born (s s' : t) : Prop := {
  ab_settings : settings s' = settings s;
  ab_population : forall r o',
    r ∈ population s' -> objs s' !! r = Some o' ->
    Orc.age o' = 0 \/
    (r ∈ population s /\ exists o, objs s !! r = Some o /\ Orc.age o' = Orc.age o)
}.

Definition keeps_ages {A} (m : M A) : Prop :=
  forall s a s', m s = Some (a, s') -> ages_kept s s'.
Definition bears {A} (m : M A) : Prop :=
  forall s a s', m s = Some (a, s') -> ages_born s s'.

(** No agent of the population is older than [max_age]. *)
Definition ages_bounded (s : t) : Prop :=
  forall r o, r ∈ population s -> objs s !! r = Some o ->
              0 <= Orc.age o <= Z.max 0 (max_age (settings s)).

(** The settings are [st] and the kind of every object of the store is a
    class of [st]. *)
Definition kinds_valid (st : SimulationSettings) (s : t) : Prop :=
  settings s = st /\
  forall r o, objs s !! r = Some o -> 0 <= Orc.kind o < Z.max 1 (classes st).

Definition keeps_kinds (st : SimulationSettings) {A} (m : M A) : Prop :=
  forall s a s', kinds_valid st s -> m s = Some (a, s') -> kinds_valid st s'.
End FurtherNotions.

(** * Verification *)

#[global] Arguments Simulation.agent_at : simpl never.
#[global] Arguments Simulation.scan_square : simpl never.
#[global] Arguments Simulation._social_counts : simpl never.
#[global] Arguments Simulation._local_support_score : simpl never.
#[global] Arguments Simulation._herd_bonus : simpl never.
#[global] Arguments Simulation._threat_penalty : simpl never.
#[global] Arguments Simulation._env_score : simpl never.
#[global] Arguments Simulation._seek_habitat_direction : simpl never.
#[global] Arguments Simulation._virus_spawn_chance : simpl never.
#[global] Arguments Simulation.ally_adjacent : simpl never.
#[global] Arguments Simulation._pick_target : simpl never.
#[global] Arguments Simulation._kind_count : simpl never.
#[global] Arguments Simulation.metrics : simpl never.
#[global] Arguments Simulation._biome_effect : simpl never.
#[global] Arguments Simulation._remove_orc : simpl never.
#[global] Arguments Simulation._apply_kind_modifiers : simpl never.
#[global] Arguments Simulation._spawn_orc : simpl never.
#[global] Arguments Simulation._seed_initial_population : simpl never.
#[global] Arguments Simulation._apply_environment_pressure : simpl never.
#[global] Arguments Simulation._apply_social_context : simpl never.
#[global] Arguments Simulation._apply_disease : simpl never.
#[global] Arguments Simulation._overpop_kill_check : simpl never.
#[global] Arguments Simulation._maybe_reproduce : simpl never.
#[global] Arguments Simulation._forage : simpl never.
#[global] Arguments Simulation._should_attack : simpl never.
#[global] Arguments Simulation.desirability_of : simpl never.
#[global] Arguments Simulation._choose_move_target : simpl never.
#[global] Arguments Simulation.fight_scores : simpl never.
#[global] Arguments Simulation.remove_if_exhausted : simpl never.
#[global] Arguments Simulation._resolve_fight : simpl never.
#[global] Arguments Simulation._take_action : simpl never.
#[global] Arguments Simulation.step_orc : simpl never.
#[global] Arguments Simulation.step : simpl never.
#[global] Arguments Simulation.reset : simpl never.
#[global] Arguments Simulation.place : simpl never.
#[global] Arguments Simulation.spread_to : simpl never.
#[global] Arguments Simulation.move : simpl never.
#[global] Arguments Simulation.dict_set : simpl never.
#[global] Arguments Simulation.dict_pop : simpl never.
#[global] Arguments Simulation.new_orc : simpl never.
#[global] Arguments Environment.get : simpl never.
#[global] Arguments Environment.humidity_at : simpl never.
#[global] Arguments Environment.fertility_at : simpl never.
#[global] Arguments Environment.biome_at : simpl never.
#[global] Arguments Environment.in_bounds : simpl never.
#[global] Arguments Environment.neighbors : simpl never.
#[global] Arguments Environment.empty_neighbors : simpl never.
#[global] Arguments Environment.occupied_neighbors : simpl never.
#[global] Arguments Py.index2 : simpl never.
#[global] Arguments Py.setitem2 : simpl never.

(** ** Lists, ranges and indexing *)

Section PyFacts.
Context {A : Type}.
Implicit Types (l : list A) (g : list (list A)).

Lemma elem_of_range (a b x : Z) : x ∈ Py.range a b <-> a <= x < b.
Proof.
  unfold Py.range. rewrite list_elem_of_fmap. split.
  - intros (i & -> & Hi). apply elem_of_seq in Hi. lia.
  - intros Hx. exists (Z.to_nat (x - a)). split; [lia|].
    apply elem_of_seq. lia.
Qed.

Lemma length_range (a b : Z) : length (Py.range a b) = Z.to_nat (b - a).
Proof. unfold Py.range. by rewrite length_fmap, length_seq. Qed.

Lemma NoDup_range (a b : Z) : NoDup (Py.range a b).
Proof.
  unfold Py.range. apply NoDup_fmap_2; [|apply NoDup_seq].
  intros i j Hij. lia.
Qed.

Lemma index_in_range l (i : Z) :
  0 <= i < Z.of_nat (length l) -> Py.index l i = l !! Z.to_nat i.
Proof.
  intros Hi. unfold Py.index.
  destruct (Z.leb_spec 0 i); [done | lia].
Qed.

Lemma index_is_Some l (i : Z) :
  0 <= i < Z.of_nat (length l) -> is_Some (Py.index l i).
Proof.
  intros Hi. rewrite index_in_range by done.
  apply lookup_lt_is_Some. lia.
Qed.

Lemma index_elem_of l (i : Z) (x : A) : Py.index l i = Some x -> x ∈ l.
Proof.
  unfold Py.index. repeat case_match; try done;
    intros H'; by eapply list_elem_of_lookup_2.
Qed.

Lemma setitem_in_range l (i : Z) (v : A) :
  0 <= i < Z.of_nat (length l) ->
  Py.setitem l i v = Some (<[Z.to_nat i := v]> l).
Proof.
  intros Hi. unfold Py.setitem.
  destruct (Z.leb_spec 0 i); [|lia].
  destruct (Z.ltb_spec i (Z.of_nat (length l))); [done | lia].
Qed.

End PyFacts.

Section GridFacts.
Context {A : Type}.
Implicit Types (g : list (list A)).

Lemma rect_row w h g (y : Z) :
  rect w h g -> 0 <= y < h ->
  exists row, g !! Z.to_nat y = Some row /\ length row = Z.to_nat w.
Proof.
  intros [Hlen Hrows] Hy.
  destruct (lookup_lt_is_Some_2 g (Z.to_nat y)) as [row Hrow]; [lia|].
  exists row. split; [done|].
  by eapply (Forall_lookup_1 _ _ _ _ Hrows).
Qed.

Lemma index2_is_Some w h g (x y : Z) :
  rect w h g -> 0 <= x < w -> 0 <= y < h -> is_Some (Py.index2 g x y).
Proof.
  intros Hg Hx Hy. destruct (rect_row _ _ _ y Hg Hy) as (row & Hrow & Hlen).
  unfold Py.index2. rewrite index_in_range by (destruct Hg; lia).
  rewrite Hrow. apply index_is_Some. lia.
Qed.

Lemma index2_nat w h g (x y : Z) :
  rect w h g -> 0 <= x < w -> 0 <= y < h ->
  Py.index2 g x y = g !! Z.to_nat y ≫= (.!! Z.to_nat x).
Proof.
  intros Hg Hx Hy. destruct (rect_row _ _ _ y Hg Hy) as (row & Hrow & Hlen).
  unfold Py.index2. rewrite index_in_range by (destruct Hg; lia).
  rewrite Hrow. simpl. apply index_in_range. lia.
Qed.

(** Writing one cell of a grid: the cell reads back, the others and the
    shape are unchanged. *)
Lemma setitem2_spec w h g (x y : Z) (v : A) :
  rect w h g -> 0 <= x < w -> 0 <= y < h ->
  exists g', Py.setitem2 g x y v = Some g' /\ rect w h g' /\
    forall x' y', 0 <= x' < w -> 0 <= y' < h ->
      Py.index2 g' x' y' =
        if decide (x' = x /\ y' = y) then Some v else Py.index2 g x' y'.
Proof.
  intros Hg Hx Hy. destruct (rect_row _ _ _ y Hg Hy) as (row & Hrow & Hlen).
  pose proof Hg as [Hh Hrows].
  unfold Py.setitem2. rewrite index_in_range by lia. rewrite Hrow.
  rewrite setitem_in_range by lia. rewrite setitem_in_range by lia.
  eexists. split; [done|].
  assert (Hg' : rect w h (<[Z.to_nat y := <[Z.to_nat x := v]> row]> g)).
  { split; [by rewrite length_insert|].
    apply Forall_insert; [done|]. by rewrite length_insert. }
  split; [done|]. intros x' y' Hx' Hy'.
  rewrite (index2_nat w h) by done. rewrite (index2_nat w h g) by done.
  destruct (decide (y' = y)) as [->|Hne].
  - rewrite list_lookup_insert_eq by lia. rewrite Hrow. simpl.
    destruct (decide (x' = x)) as [->|Hnx].
    + rewrite list_lookup_insert_eq by lia. by rewrite decide_True.
    + rewrite list_lookup_insert_ne by lia. rewrite decide_False by lia. done.
  - rewrite list_lookup_insert_ne by lia. rewrite decide_False by lia. done.
Qed.

End GridFacts.

Section LoopFacts.
Context {A : Type}.
Implicit Types (l : list A).

Lemma foldM_is_Some {B} (P : B -> Prop) (f : B -> A -> option B) l (b : B) :
  P b ->
  (forall b x, x ∈ l -> P b -> exists b', f b x = Some b' /\ P b') ->
  exists b', Py.foldM f b l = Some b' /\ P b'.
Proof.
  revert b. induction l as [|x l IH]; intros b Hb Hf; simpl.
  - by exists b.
  - destruct (Hf b x) as (b1 & -> & Hb1); [left | done |].
    apply IH; [done|]. intros b2 x2 Hx2. apply Hf. by right.
Qed.

Lemma elem_of_slice_to l (k : Z) (x : A) : x ∈ Py.slice_to l k -> x ∈ l.
Proof.
  unfold Py.slice_to. case_match; intros Hx;
    (eapply elem_of_sublist; [exact Hx | apply sublist_take]).
Qed.

Lemma NoDup_slice_to l (k : Z) : NoDup l -> NoDup (Py.slice_to l k).
Proof.
  unfold Py.slice_to. intros Hl.
  case_match; (eapply sublist_NoDup; [exact Hl | apply sublist_take]).
Qed.
End LoopFacts.

(** ** Running a method: weakest preconditions *)

Section Wp.
Context {R : PyRandom} {L : Libm}.
Import Simulation.

Lemma wp_ret {A} (a : A) Q s : Q a s -> wp (ret a) Q s.
Proof. intros H. by exists a, s. Qed.

Lemma wp_bind {A B} (m : M A) (k : A -> M B) Q s :
  wp m (fun a s' => wp (k a) Q s') s -> wp (bind m k) Q s.
Proof.
  intros (a & s' & Hm & b & s'' & Hk & HQ).
  exists b, s''. unfold bind. by rewrite Hm.
Qed.

Lemma wp_mono {A} (m : M A) (Q Q' : A -> t -> Prop) s :
  wp m Q s -> (forall a s', Q a s' -> Q' a s') -> wp m Q' s.
Proof. intros (a & s' & Hm & HQ) H. exists a, s'. eauto. Qed.

Lemma wp_gets {A} (f : t -> A) Q s : Q (f s) s -> wp (gets f) Q s.
Proof. intros H. by exists (f s), s. Qed.

Lemma wp_read {A} (f : t -> option A) Q s a :
  f s = Some a -> Q a s -> wp (read f) Q s.
Proof. intros Hf H. exists a, s. unfold read. by rewrite Hf. Qed.

Lemma wp_deref r o Q s : objs s !! r = Some o -> Q o s -> wp (deref r) Q s.
Proof. intros Hr H. by eapply wp_read. Qed.

Lemma wp_draw {A} (f : rng_state -> A * rng_state) Q s :
  Q (f (rng s)).1 (with_rng s (f (rng s)).2) -> wp (draw f) Q s.
Proof.
  intros H. unfold wp, draw. destruct (f (rng s)) as [a g]. eauto.
Qed.

Lemma wp_draw_opt {A} (f : rng_state -> option (A * rng_state)) Q s a g :
  f (rng s) = Some (a, g) -> Q a (with_rng s g) -> wp (draw_opt f) Q s.
Proof. intros Hf H. unfold wp, draw_opt. rewrite Hf. eauto. Qed.

Lemma wp_update_orc r f o Q s :
  objs s !! r = Some o ->
  Q tt (with_objs s (<[r := f o]> (objs s))) -> wp (update_orc r f) Q s.
Proof. intros Hr H. unfold wp, update_orc. rewrite Hr. eauto. Qed.

Lemma wp_for_each {A} (I : t -> Prop) (l : list A) (body : A -> M unit) s :
  I s ->
  (forall x s, x ∈ l -> I s -> wp (body x) (fun _ s' => I s') s) ->
  wp (for_each l body) (fun _ s' => I s') s.
Proof.
  revert s. induction l as [|x l IH]; intros s Hs Hbody; simpl.
  - by apply wp_ret.
  - apply wp_bind. eapply wp_mono; [apply Hbody; [left | done]|].
    intros [] s' Hs'. apply IH; [done|].
    intros y s2 Hy. apply Hbody. by right.
Qed.

Lemma wp_for_collect {A B} (I : t -> Prop) (P : A -> B -> Prop)
    (l : list A) (body : A -> M B) s :
  I s ->
  (forall x s, x ∈ l -> I s -> wp (body x) (fun b s' => I s' /\ P x b) s) ->
  wp (for_collect l body) (fun bs s' => I s' /\ Forall2 P l bs) s.
Proof.
  revert s. induction l as [|x l IH]; intros s Hs Hbody; simpl.
  - apply wp_ret. by split.
  - apply wp_bind. eapply wp_mono; [apply Hbody; [left | done]|].
    intros b s' [Hs' Hb]. apply wp_bind.
    eapply wp_mono; [apply IH; [done|]|].
    + intros y s2 Hy. apply Hbody. by right.
    + intros bs s2 [Hs2 Hbs]. apply wp_ret. split; [done|]. by constructor.
Qed.
End Wp.

Section InvariantFacts.
Context {R : PyRandom} {L : Libm}.
Import Simulation.
Implicit Types (s : t) (e : Environment.t).

Lemma in_bounds_inside e x y :
  Environment.in_bounds e x y = true <-> inside e (x, y).
Proof.
  unfold Environment.in_bounds, inside. simpl.
  rewrite !andb_true_iff, !Z.leb_le, !Z.ltb_lt. tauto.
Qed.

Lemma in_bounds_false e x y :
  Environment.in_bounds e x y = false <-> ~ inside e (x, y).
Proof. rewrite <- in_bounds_inside. by destruct (Environment.in_bounds e x y). Qed.

Lemma get_is_Some e x y :
  env_wf e -> inside e (x, y) -> is_Some (Environment.get e x y).
Proof. intros He [Hx Hy]. eapply index2_is_Some; [apply He | done..]. Qed.

Lemma humidity_is_Some e x y :
  env_wf e -> inside e (x, y) -> is_Some (Environment.humidity_at e x y).
Proof. intros He [Hx Hy]. eapply index2_is_Some; [apply He | done..]. Qed.

Lemma fertility_is_Some e x y :
  env_wf e -> inside e (x, y) -> is_Some (Environment.fertility_at e x y).
Proof. intros He [Hx Hy]. eapply index2_is_Some; [apply He | done..]. Qed.

Lemma biome_is_Some e x y :
  env_wf e -> inside e (x, y) -> is_Some (Environment.biome_at e x y).
Proof. intros He [Hx Hy]. eapply index2_is_Some; [apply He | done..]. Qed.

Lemma neighbors_inside e x y p : p ∈ Environment.neighbors e x y -> inside e p.
Proof.
  unfold Environment.neighbors. rewrite list_elem_of_omap.
  intros ([dx dy] & _ & Hp). simpl in Hp.
  destruct (Environment.in_bounds e (x + dx) (y + dy)) eqn:Hb; [|done].
  injection Hp as <-. by apply in_bounds_inside.
Qed.

(** A filtering comprehension over cells of the grid returns, and keeps
    cells of its input that pass the test. *)
Lemma filter_cells_spec keep e cs :
  env_wf e -> Forall (inside e) cs ->
  exists r, Environment.filter_cells keep e cs = Some r /\
    forall p, p ∈ r ->
      p ∈ cs /\ exists c, Environment.get e p.1 p.2 = Some c /\ keep c = true.
Proof.
  intros He Hcs. unfold Environment.filter_cells.
  apply (foldM_is_Some (fun r : list (Z * Z) => forall p, p ∈ r ->
    p ∈ cs /\ exists c, Environment.get e p.1 p.2 = Some c /\ keep c = true)).
  - intros p Hp. by apply elem_of_nil in Hp.
  - intros acc [x y] Hxy Hacc.
    destruct (get_is_Some e x y He) as [c Hc].
    { by eapply (proj1 (Forall_forall _ _) Hcs). }
    rewrite Hc. eexists. split; [done|].
    destruct (keep c) eqn:Hk; [|done].
    intros p Hp. apply elem_of_app in Hp as [Hp|Hp]; [by apply Hacc|].
    apply list_elem_of_singleton in Hp as ->. split; [done|]. by exists c.
Qed.

Lemma empty_neighbors_spec e x y :
  env_wf e ->
  exists r, Environment.empty_neighbors e x y = Some r /\
    forall p, p ∈ r -> inside e p /\ Environment.get e p.1 p.2 = Some None.
Proof.
  intros He.
  destruct (filter_cells_spec Environment.is_none e (Environment.neighbors e x y) He)
    as (r & Hr & Hspec).
  { apply Forall_forall. intros p. apply neighbors_inside. }
  exists r. split; [done|]. intros p Hp.
  destruct (Hspec p Hp) as (Hin & c & Hc & Hk).
  split; [by eapply neighbors_inside|]. by destruct c.
Qed.

Lemma occupied_neighbors_spec e x y :
  env_wf e ->
  exists r, Environment.occupied_neighbors e x y = Some r /\
    forall p, p ∈ r -> inside e p.
Proof.
  intros He.
  destruct (filter_cells_spec Environment.occupied e (Environment.neighbors e x y) He)
    as (r & Hr & Hspec).
  { apply Forall_forall. intros p. apply neighbors_inside. }
  exists r. split; [done|]. intros p Hp.
  destruct (Hspec p Hp) as (Hin & _). by eapply neighbors_inside.
Qed.

(** *** States of the same shape *)

Lemma same_shape_refl s : same_shape s s.
Proof. split; try done. intros r. by destruct (objs s !! r). Qed.

Lemma same_shape_trans s1 s2 s3 :
  same_shape s1 s2 -> same_shape s2 s3 -> same_shape s1 s3.
Proof.
  intros [] []. split; try congruence.
  intros r. specialize (ss_objs0 r). specialize (ss_objs1 r).
  destruct (objs s1 !! r), (objs s2 !! r), (objs s3 !! r); try done.
  destruct ss_objs0 as (?&?&?), ss_objs1 as (?&?&?). repeat split; congruence.
Qed.

Lemma same_shape_lookup s s' r o :
  same_shape s s' -> objs s !! r = Some o ->
  exists o', objs s' !! r = Some o' /\ Orc.id o' = Orc.id o /\
             Orc.position o' = Orc.position o /\ Orc.kind o' = Orc.kind o.
Proof.
  intros [_ _ _ _ _ H] Hr. specialize (H r). rewrite Hr in H.
  destruct (objs s' !! r) as [o'|]; [|done]. by exists o'.
Qed.

Lemma same_shape_lookup_inv s s' r o' :
  same_shape s s' -> objs s' !! r = Some o' ->
  exists o, objs s !! r = Some o /\ Orc.id o' = Orc.id o /\
            Orc.position o' = Orc.position o /\ Orc.kind o' = Orc.kind o.
Proof.
  intros [_ _ _ _ _ H] Hr. specialize (H r). rewrite Hr in H.
  destruct (objs s !! r) as [o|]; [|done]. by exists o.
Qed.

Lemma same_shape_store_le s s' : same_shape s s' -> store_le s s'.
Proof.
  intros H r [o Hr]. destruct (same_shape_lookup _ _ _ _ H Hr) as (o' & ? & _).
  by exists o'.
Qed.

Lemma same_shape_with_rng s g : same_shape s (with_rng s g).
Proof. split; try done. intros r. simpl. by destruct (objs s !! r). Qed.

Lemma same_shape_update s r o f :
  objs s !! r = Some o ->
  Orc.id (f o) = Orc.id o -> Orc.position (f o) = Orc.position o ->
  Orc.kind (f o) = Orc.kind o ->
  same_shape s (with_objs s (<[r := f o]> (objs s))).
Proof.
  intros Hr Hid Hpos Hkind. split; try done. intros r'. simpl.
  destruct (decide (r' = r)) as [->|Hne].
  - by rewrite lookup_insert_eq, Hr.
  - rewrite lookup_insert_ne by done. by destruct (objs s !! r').
Qed.

Lemma same_shape_Inv s s' : same_shape s s' -> Inv s -> Inv s'.
Proof.
  intros Hss [].
  pose proof Hss as [Hst He Hp _ Hn _].
  split; rewrite ?He, ?Hst, ?Hp, ?Hn; try done.
  - intros r o' Hr.
    destruct (same_shape_lookup_inv _ _ _ _ Hss Hr) as (o & Ho & Hid & Hpos & _).
    rewrite Hid, Hpos. by apply inv_store0.
  - intros x y r Hxy Hget.
    destruct (inv_grid0 x y r Hxy Hget) as (Hin & o & Ho & Hpos).
    split; [done|].
    destruct (same_shape_lookup _ _ _ _ Hss Ho) as (o' & Ho' & _ & Hpos' & _).
    exists o'. split; [done|]. congruence.
  - intros r Hin. destruct (inv_pop0 r Hin) as (o & Ho & Hget).
    destruct (same_shape_lookup _ _ _ _ Hss Ho) as (o' & Ho' & _ & Hpos' & _).
    exists o'. split; [done|]. by rewrite Hpos'.
Qed.

Lemma store_le_refl s : store_le s s.
Proof. by intros r. Qed.

Lemma store_le_trans s1 s2 s3 : store_le s1 s2 -> store_le s2 s3 -> store_le s1 s3.
Proof. intros H1 H2 r Hr. auto. Qed.

Lemma later_trans s1 s2 s3 : later s1 s2 -> later s2 s3 -> later s1 s3.
Proof.
  intros (_ & H1 & ? & ?) (? & H2 & ? & ?).
  unfold later. split_and!; [done | by eapply store_le_trans | congruence..].
Qed.

Lemma same_shape_later s s' : Inv s -> same_shape s s' -> later s s'.
Proof.
  intros Hs Hss. unfold later. split_and!;
    [by eapply same_shape_Inv | by apply same_shape_store_le | apply Hss..].
Qed.

Lemma later_shape s1 s2 s3 : later s1 s2 -> same_shape s2 s3 -> later s1 s3.
Proof.
  intros H12 H23. eapply later_trans; [done|].
  apply same_shape_later; [apply H12 | done].
Qed.

(** The invariant gives the consistency of grid and population. *)
Lemma Inv_consistent s : Inv s -> consistent s.
Proof.
  intros []. split.
  - intros x y r Hb Hget. apply in_bounds_inside in Hb.
    destruct (inv_grid0 x y r Hb Hget) as (Hin & o & Ho & Hpos).
    exists o. destruct (inv_store0 r o Ho) as (Hid & _).
    repeat split; [done..| by rewrite Hid | done].
  - intros x y x' y' r r' o o' Hb Hb' Hget Hget' Ho Ho' Hid.
    apply in_bounds_inside in Hb, Hb'.
    destruct (inv_grid0 x y r Hb Hget) as (_ & o1 & Ho1 & Hpos).
    destruct (inv_grid0 x' y' r' Hb' Hget') as (_ & o2 & Ho2 & Hpos').
    destruct (inv_store0 r o Ho) as (Hr & _).
    destruct (inv_store0 r' o' Ho') as (Hr' & _).
    assert (r = r') by congruence. subst r'. congruence.
  - intros k Hk. destruct (inv_pop0 k Hk) as (o & Ho & Hget).
    exists o. destruct (inv_store0 k o Ho) as (Hid & Hin & _).
    repeat split; [done.. | | done].
    apply in_bounds_inside. by destruct (Orc.position o).
Qed.
End InvariantFacts.

(** ** Sorting and shuffling permute *)

Section Permutations.
Context {A : Type}.
Implicit Types (l : list A).

Lemma insert_sorted_perm (lt : A -> A -> bool) x l :
  Py.insert_sorted lt x l ≡ₚ x :: l.
Proof.
  induction l as [|y l IH]; simpl; [done|].
  destruct (lt y x); [|done]. rewrite IH. apply Permutation_swap.
Qed.

Lemma sorted_perm (lt : A -> A -> bool) l : Py.sorted lt l ≡ₚ l.
Proof.
  unfold Py.sorted. induction l as [|x l IH]; simpl; [done|].
  by rewrite insert_sorted_perm, IH.
Qed.

Lemma sorted_reverse_perm (lt : A -> A -> bool) l :
  Py.sorted_reverse lt l ≡ₚ l.
Proof.
  unfold Py.sorted_reverse.
  etrans; [symmetry; apply Permutation_rev|].
  etrans; [apply sorted_perm|]. symmetry. apply Permutation_rev.
Qed.

Context {R : PyRandom}.

Lemma swap_perm l i j : Random.swap l i j ≡ₚ l.
Proof.
  unfold Random.swap.
  destruct (l !! i) as [a|] eqn:Hi; [|done].
  destruct (l !! j) as [b|] eqn:Hj; [|done].
  by apply Permutation_insert_swap.
Qed.

Lemma shuffle_from_perm i l g : (Random.shuffle_from i l g).1 ≡ₚ l.
Proof.
  revert l g. induction i as [|i IH]; intros l g; [done|].
  cbn [Random.shuffle_from].
  destruct (rng_randbelow (Z.of_nat (S i) + 1) g) as [j g'].
  rewrite IH. apply swap_perm.
Qed.

Lemma shuffle_perm l g : (Random.shuffle l g).1 ≡ₚ l.
Proof. apply shuffle_from_perm. Qed.

Lemma choice_spec l g :
  l <> [] -> exists a g', Random.choice l g = Some (a, g') /\ a ∈ l.
Proof.
  intros Hl. unfold Random.choice. destruct l as [|x l]; [done|].
  pose proof (rng_randbelow_range (Z.of_nat (length (x :: l))) g) as Hr.
  destruct (rng_randbelow (Z.of_nat (length (x :: l))) g) as [j g'].
  simpl in Hr. destruct (index_is_Some (x :: l) j) as [a Ha].
  { simpl. lia. }
  rewrite Ha. exists a, g'. split; [done|]. by eapply index_elem_of.
Qed.
End Permutations.

(** ** The readers return *)

Section Readers.
Context {R : PyRandom} {L : Libm}.
Import Simulation.
Implicit Types (s : t) (e : Environment.t).

(** Run the loop in the goal with the loop invariant [P]. *)
Ltac run_fold P a H HP :=
  match goal with
  | |- context [Py.foldM ?f ?b ?l] =>
      destruct (foldM_is_Some P f l b) as (a & H & HP); [ | | rewrite H]
  end.

Lemma agent_at_spec s x y :
  Inv s -> inside (environment s) (x, y) ->
  exists a, agent_at s x y = Some a.
Proof.
  intros Hs Hxy. unfold agent_at.
  destruct (get_is_Some _ x y (inv_env _ Hs) Hxy) as [c Hc]. rewrite Hc.
  destruct c as [r|]; [|by eexists].
  destruct (inv_grid _ Hs x y r Hxy Hc) as (_ & o & Ho & _).
  rewrite Ho. by eexists.
Qed.

Lemma scan_square_spec {A} (P : A -> Prop) s x0 y0 radius
    (body : A -> Z -> Z -> option A) a :
  P a ->
  (forall a x y, inside (environment s) (x, y) -> P a ->
                 exists a', body a x y = Some a' /\ P a') ->
  exists a', scan_square s x0 y0 radius body a = Some a' /\ P a'.
Proof.
  intros Ha Hbody. unfold scan_square.
  apply (foldM_is_Some P); [done|]. intros a1 y Hy Ha1.
  apply (foldM_is_Some P); [done|]. intros a2 x Hx Ha2.
  apply Hbody; [|done]. apply elem_of_range in Hx, Hy.
  split; simpl; lia.
Qed.

Lemma kind_count_is_Some s kind : Inv s -> is_Some (_kind_count s kind).
Proof.
  intros Hs. unfold _kind_count.
  destruct (foldM_is_Some (A:=Z) (fun _ : Z => True)
    (fun n r => match objs s !! r with
                | Some o => Some (if Orc.kind o =? kind then n + 1 else n)
                | None => None
                end) (population s) 0) as (n & Hn & _); [done | | by eexists].
  intros n r Hr _. destruct (inv_pop _ Hs r Hr) as (o & -> & _). by eexists.
Qed.

Lemma social_counts_is_Some s r :
  Inv s -> is_Some (objs s !! r) -> is_Some (_social_counts s r).
Proof.
  intros Hs [o Ho]. unfold _social_counts. rewrite Ho.
  destruct (Orc.position o) as [x0 y0].
  edestruct (scan_square_spec (fun _ : Z * Z => True)) as (a & Ha & _);
    [done | | by erewrite Ha].
  intros [friends foes] x y Hxy _. simpl.
  destruct ((x =? x0) && (y =? y0)); [by eexists|].
  destruct (agent_at_spec s x y Hs Hxy) as [[other|] ->]; [|by eexists].
  destruct (Orc.kind other =? Orc.kind o); by eexists.
Qed.

Lemma local_support_is_Some s r :
  Inv s -> is_Some (objs s !! r) -> is_Some (_local_support_score s r).
Proof.
  intros Hs Hr. unfold _local_support_score.
  destruct (social_counts_is_Some s r Hs Hr) as [[friends foes] ->]. done.
Qed.

Lemma fdiv_int_is_Some a (b : Z) : b <> 0 -> is_Some (Py.fdiv_int a b).
Proof.
  intros Hb. unfold Py.fdiv_int. destruct (Z.eqb_spec b 0); [done | by eexists].
Qed.

Lemma herd_bonus_is_Some s r coord :
  Inv s -> is_Some (objs s !! r) -> is_Some (_herd_bonus s r coord).
Proof.
  intros Hs [o Ho]. unfold _herd_bonus.
  destruct (herd_radius (settings s) <=? 0); [done|]. rewrite Ho.
  destruct coord as [ox oy].
  edestruct (scan_square_spec (fun _ : Z => True)) as (a & Ha & _);
    [done | | erewrite Ha].
  - intros total x y Hxy _. simpl.
    destruct (agent_at_spec s x y Hs Hxy) as [[n|] ->]; by eexists.
  - destruct (fdiv_int_is_Some (herd_attraction (settings s))
      (Z.max 1 (herd_radius (settings s) * herd_radius (settings s))))
      as [w ->]; [lia | done].
Qed.

Lemma threat_penalty_is_Some s r coord :
  Inv s -> is_Some (objs s !! r) -> is_Some (_threat_penalty s r coord).
Proof.
  intros Hs [o Ho]. unfold _threat_penalty.
  destruct (escape_threat_radius (settings s) <=? 0); [done|]. rewrite Ho.
  destruct coord as [ox oy].
  edestruct (scan_square_spec (fun _ : Z => True)) as (a & Ha & _);
    [done | | by erewrite Ha].
  intros enemies x y Hxy _. simpl.
  destruct ((x =? ox) && (y =? oy)); [by eexists|].
  destruct (agent_at_spec s x y Hs Hxy) as [[n|] ->]; by eexists.
Qed.

Lemma env_score_is_Some s kind coord :
  Inv s -> inside (environment s) coord -> is_Some (_env_score s kind coord).
Proof.
  intros Hs Hc. unfold _env_score. destruct coord as [x y].
  destruct (humidity_is_Some _ x y (inv_env _ Hs) Hc) as [? ->].
  destruct (fertility_is_Some _ x y (inv_env _ Hs) Hc) as [? ->].
  destruct (biome_is_Some _ x y (inv_env _ Hs) Hc) as [? ->]. done.
Qed.

Lemma seek_habitat_is_Some s r score :
  Inv s -> is_Some (objs s !! r) -> is_Some (_seek_habitat_direction s r score).
Proof.
  intros Hs [o Ho]. unfold _seek_habitat_direction.
  destruct (habitat_seek_radius (settings s) <=? 0); [done|]. rewrite Ho.
  destruct (Orc.position o) as [ox oy].
  edestruct (scan_square_spec (fun _ : float * option (Z * Z) => True))
    as ([? best] & Ha & _); [done | | erewrite Ha].
  - intros [bs bc] x y Hxy _. simpl.
    destruct (env_score_is_Some s (Orc.kind o) (x, y) Hs Hxy) as [sc ->].
    destruct (bs + 0.05 <? sc)%float; by eexists.
  - destruct best as [[bx by_]|]; done.
Qed.

Lemma virus_spawn_chance_is_Some s r :
  Inv s -> is_Some (objs s !! r) -> is_Some (_virus_spawn_chance s r).
Proof.
  intros Hs [o Ho]. unfold _virus_spawn_chance. rewrite Ho.
  destruct (inv_store _ Hs r o Ho) as (_ & Hin & _).
  destruct (Orc.position o) as [x y].
  destruct (biome_is_Some _ x y (inv_env _ Hs) Hin) as [b ->].
  destruct (_biome_effect (settings s) (Orc.kind o) b) as [bonus penalty].
  destruct (_ <=? _); [|done].
  destruct (social_counts_is_Some s r Hs) as [[friends foes] ->]; [by eexists|].
  by destruct (_ <=? _).
Qed.

Lemma ally_adjacent_is_Some s r :
  Inv s -> is_Some (objs s !! r) -> is_Some (ally_adjacent s r).
Proof.
  intros Hs [o Ho]. unfold ally_adjacent. rewrite Ho.
  destruct (Orc.position o) as [x y].
  destruct (occupied_neighbors_spec _ x y (inv_env _ Hs)) as (occ & -> & Hocc).
  run_fold (fun _ : bool => True) b Hb HP; [done | | done].
  intros found [cx cy] Hc _. simpl. destruct found; [by eexists|].
  destruct (agent_at_spec s cx cy Hs (Hocc _ Hc)) as [[n|] ->]; by eexists.
Qed.

Lemma pick_target_spec s r occ :
  Inv s -> is_Some (objs s !! r) ->
  (forall p, p ∈ occ -> inside (environment s) p) ->
  exists res, _pick_target s r occ = Some res /\
    forall p, res = Some p -> inside (environment s) p.
Proof.
  intros Hs [o Ho] Hocc. unfold _pick_target. rewrite Ho.
  run_fold (fun cands : list (float * (Z * Z)) =>
              forall c, c ∈ cands -> inside (environment s) c.2) cands Hc Hin.
  - intros c Hc. by apply elem_of_nil in Hc.
  - intros cands [cx cy] Hp Hcands. simpl.
    destruct (agent_at_spec s cx cy Hs (Hocc _ Hp)) as [[tg|] ->];
      [|by eexists].
    destruct (Orc.kind tg =? Orc.kind o); [by eexists|].
    eexists. split; [done|]. intros c Hc.
    apply elem_of_app in Hc as [Hc|Hc]; [by apply Hcands|].
    apply list_elem_of_singleton in Hc as ->. simpl. by apply Hocc.
  - destruct (Py.sorted_reverse score_lt cands) as [|[bs bc] rest] eqn:Hsort.
    { by eexists. }
    eexists. split; [done|]. intros p Hp.
    destruct (-0.3 <? bs)%float; [|done]. injection Hp as <-.
    apply (Hin (bs, bc)).
    rewrite <- (sorted_reverse_perm score_lt cands), Hsort. by left.
Qed.

Lemma metrics_is_Some s : Inv s -> is_Some (metrics s).
Proof.
  intros Hs. unfold metrics.
  destruct (mapM_is_Some_2 (fun r => objs s !! r) (population s)) as [pop Hpop].
  { apply Forall_forall. intros r Hr.
    destruct (inv_pop _ Hs r Hr) as (o & Ho & _). by exists o. }
  rewrite Hpop. destruct (Z.eqb_spec (Z.of_nat (length pop)) 0); [done|].
  destruct (fdiv_int_is_Some (Py.fsum (Orc.strength <$> pop)) _ n) as [? ->].
  destruct (fdiv_int_is_Some (Py.fsum (Orc.agility <$> pop)) _ n) as [? ->].
  destruct (fdiv_int_is_Some (Py.fsum (Orc.resilience <$> pop)) _ n) as [? ->].
  done.
Qed.
End Readers.

(** ** Methods that keep the shape of the state *)

Section ShapeMethods.
Context {R : PyRandom} {L : Libm}.
Import Simulation.
Implicit Types (s : t) (e : Environment.t).

Lemma wp_draw_ss {A} s0 s (f : rng_state -> A * rng_state) Q :
  same_shape s0 s ->
  (forall a s', same_shape s0 s' -> Q a s') -> wp (draw f) Q s.
Proof.
  intros Hss HQ. apply wp_draw. apply HQ.
  eapply same_shape_trans; [done | apply same_shape_with_rng].
Qed.

Lemma wp_draw_opt_ss {A} s0 s (f : rng_state -> option (A * rng_state)) Q :
  same_shape s0 s -> is_Some (f (rng s)) ->
  (forall a g s', f (rng s) = Some (a, g) -> same_shape s0 s' -> Q a s') ->
  wp (draw_opt f) Q s.
Proof.
  intros Hss [[a g] Hf] HQ. eapply wp_draw_opt; [done|]. eapply HQ; [done|].
  eapply same_shape_trans; [done | apply same_shape_with_rng].
Qed.

Lemma wp_update_ss s0 s r f Q :
  same_shape s0 s -> is_Some (objs s0 !! r) -> keeps_place f ->
  (forall s', same_shape s0 s' -> Q tt s') -> wp (update_orc r f) Q s.
Proof.
  intros Hss [o Ho] Hf HQ.
  destruct (same_shape_lookup _ _ _ _ Hss Ho) as (o' & Ho' & _).
  eapply wp_update_orc; [done|]. apply HQ.
  eapply same_shape_trans; [done|].
  destruct (Hf o') as (? & ? & ?). by apply same_shape_update.
Qed.

Lemma wp_deref_ss s0 s r o Q :
  same_shape s0 s -> objs s0 !! r = Some o ->
  (forall o', objs s !! r = Some o' -> Orc.id o' = Orc.id o ->
              Orc.position o' = Orc.position o -> Orc.kind o' = Orc.kind o ->
              Q o' s) ->
  wp (deref r) Q s.
Proof.
  intros Hss Ho HQ.
  destruct (same_shape_lookup _ _ _ _ Hss Ho) as (o' & Ho' & ? & ? & ?).
  eapply wp_deref; [done|]. by apply HQ.
Qed.

Lemma wp_read_is_Some {A} s (f : t -> option A) Q :
  is_Some (f s) -> (forall a, f s = Some a -> Q a s) -> wp (read f) Q s.
Proof. intros [a Ha] HQ. eapply wp_read; [done|]. by apply HQ. Qed.

Lemma wp_if {A} (b : bool) (m1 m2 : M A) Q s :
  (b = true -> wp m1 Q s) -> (b = false -> wp m2 Q s) ->
  wp (if b then m1 else m2) Q s.
Proof. destruct b; auto. Qed.

Lemma keeps_adjust d : keeps_place (Orc.adjust_energy d).
Proof. by intros o. Qed.
Lemma keeps_tick d : keeps_place (Orc.tick d).
Proof. by intros o. Qed.
Lemma keeps_infect d : keeps_place (Orc.infect d).
Proof. by intros o. Qed.
Lemma keeps_with_infection (b : Orc.t -> bool) (n : Orc.t -> Z) :
  keeps_place (fun o => Orc.with_infection o (b o) (n o)).
Proof. by intros o. Qed.
Lemma keeps_with_traits (a b c : Orc.t -> float) :
  keeps_place (fun o => Orc.with_traits o (a o) (b o) (c o)).
Proof. by intros o. Qed.
Lemma keeps_with_energy (a : Orc.t -> float) :
  keeps_place (fun o => Orc.with_energy o (a o)).
Proof. by intros o. Qed.

Lemma valid_ss s0 s r :
  same_shape s0 s -> is_Some (objs s0 !! r) -> is_Some (objs s !! r).
Proof. intros Hss. by apply same_shape_store_le. Qed.

Lemma inside_ss s0 s p :
  same_shape s0 s -> inside (environment s0) p -> inside (environment s) p.
Proof. intros Hss. by rewrite (ss_environment _ _ Hss). Qed.

Lemma occupied_neighbors_is_Some e x y :
  env_wf e -> is_Some (Environment.occupied_neighbors e x y).
Proof.
  intros He. destruct (occupied_neighbors_spec e x y He) as (r & -> & _). done.
Qed.

Lemma empty_neighbors_is_Some e x y :
  env_wf e -> is_Some (Environment.empty_neighbors e x y).
Proof.
  intros He. destruct (empty_neighbors_spec e x y He) as (r & -> & _). done.
Qed.

Lemma occupied_neighbors_inside e x y r p :
  env_wf e -> Environment.occupied_neighbors e x y = Some r -> p ∈ r ->
  inside e p.
Proof.
  intros He Hr Hp.
  destruct (occupied_neighbors_spec e x y He) as (r' & Hr' & Hin).
  rewrite Hr in Hr'. injection Hr' as <-. by apply Hin.
Qed.

Lemma empty_neighbors_inside e x y r p :
  env_wf e -> Environment.empty_neighbors e x y = Some r -> p ∈ r ->
  inside e p /\ Environment.get e p.1 p.2 = Some None.
Proof.
  intros He Hr Hp.
  destruct (empty_neighbors_spec e x y He) as (r' & Hr' & Hin).
  rewrite Hr in Hr'. injection Hr' as <-. by apply Hin.
Qed.

(** The norm used for the alignment of a move is never zero. *)
Lemma max_small_nonzero (x : float) : (Py.max 1e-3 x =? 0)%float = false.
Proof.
  unfold Py.max. destruct (1e-3 <? x)%float eqn:Hlt; [|done].
  rewrite FloatAxioms.ltb_spec in Hlt. rewrite FloatAxioms.eqb_spec.
  destruct (Prim2SF x) as [sx|sx| |sx mx ex]; try done.
  - by destruct sx.
  - by destruct sx.
Qed.

Lemma int_div_f_is_Some (a : Z) (x : float) :
  is_Some (Py.int_div_f a (Py.max 1e-3 x)).
Proof. unfold Py.int_div_f. by rewrite max_small_nonzero. Qed.

Lemma position_inside s r o :
  Inv s -> objs s !! r = Some o -> inside (environment s) (Orc.position o).
Proof. intros Hs Ho. by destruct (inv_store _ Hs r o Ho) as (_ & ? & _). Qed.
End ShapeMethods.

Create HintDb shape.
#[global] Hint Resolve keeps_adjust keeps_tick keeps_infect keeps_with_infection
  keeps_with_traits keeps_with_energy same_shape_refl valid_ss
  same_shape_Inv inside_ss inv_env humidity_is_Some fertility_is_Some
  biome_is_Some get_is_Some social_counts_is_Some local_support_is_Some
  herd_bonus_is_Some threat_penalty_is_Some env_score_is_Some
  seek_habitat_is_Some virus_spawn_chance_is_Some ally_adjacent_is_Some
  kind_count_is_Some occupied_neighbors_is_Some empty_neighbors_is_Some
  int_div_f_is_Some position_inside : shape.

(** One statement of a method run in a state [s] of the same shape as the
    state [s0] the method started in ([Hss : same_shape s0 s]). *)
Ltac ss_step Hss :=
  lazymatch goal with
  | |- wp (Simulation.bind _ _) _ _ => apply wp_bind; ss_step Hss
  | |- wp (Simulation.ret _) _ _ => apply wp_ret
  | |- wp (Simulation.gets _) _ _ => apply wp_gets
  | |- wp (Simulation.draw _) _ _ =>
      let a := fresh "u" in let s' := fresh "s" in
      eapply wp_draw_ss; [exact Hss|]; clear Hss; intros a s' Hss
  | |- wp (Simulation.update_orc _ _) _ _ =>
      let s' := fresh "s" in
      eapply wp_update_ss;
        [exact Hss | solve [eauto with shape] | solve [eauto with shape] |];
        clear Hss; intros s' Hss
  | |- wp (Simulation.deref _) _ _ =>
      let o' := fresh "o" in
      let Hid := fresh "Hid" in
      let Hpos := fresh "Hpos" in
      let Hkind := fresh "Hkind" in
      eapply wp_deref_ss; [exact Hss | eassumption |];
      intros o' _ Hid Hpos Hkind; cbv beta;
      rewrite ?Hid, ?Hpos, ?Hkind;
      repeat match goal with
             | E : Orc.position _ = (_, _) |- _ => rewrite E
             end;
      cbv beta iota
  | |- wp (Simulation.read _) _ _ =>
      apply wp_read_is_Some; [solve [eauto 7 with shape] | intros ? ?]
  | |- wp (if _ then _ else _) _ _ => apply wp_if; intros _
  | |- wp (let _ := _ in _) _ _ => cbv zeta
  | |- wp (let '(_, _) := ?p in _) _ _ =>
      destruct p as [? ?]; cbv beta iota
  end.

Section ShapeProofs.
Context {R : PyRandom} {L : Libm}.
Import Simulation.
Implicit Types (s : t) (e : Environment.t).

Lemma apply_environment_pressure_ss s r Q :
  Inv s -> is_Some (objs s !! r) ->
  (forall s', same_shape s s' -> Q tt s') ->
  wp (_apply_environment_pressure r) Q s.
Proof.
  intros Hs [o Ho] HQ. pose proof (same_shape_refl s) as Hss.
  pose proof (position_inside _ _ _ Hs Ho) as Hin.
  unfold _apply_environment_pressure.
  destruct (Orc.position o) as [x y] eqn:Hp.
  repeat ss_step Hss; by apply HQ.
Qed.

Lemma apply_social_context_ss s r Q :
  Inv s -> is_Some (objs s !! r) ->
  (forall s', same_shape s s' -> Q tt s') ->
  wp (_apply_social_context r) Q s.
Proof.
  intros Hs Hr HQ. pose proof (same_shape_refl s) as Hss.
  unfold _apply_social_context.
  repeat ss_step Hss; by apply HQ.
Qed.

Lemma spread_to_ss s0 s st coord Q :
  Inv s0 -> same_shape s0 s -> inside (environment s0) coord ->
  (forall s', same_shape s0 s' -> Q tt s') ->
  wp (spread_to st coord) Q s.
Proof.
  intros Hs Hss Hin HQ. unfold spread_to. destruct coord as [cx cy].
  ss_step Hss. simpl in H. destruct a as [target|]; [|by apply wp_ret, HQ].
  rewrite (ss_environment _ _ Hss) in H.
  destruct (inv_grid _ Hs cx cy target Hin H) as (_ & tg & Htg & _).
  repeat ss_step Hss; by apply HQ.
Qed.

Lemma apply_disease_ss s r Q :
  Inv s -> is_Some (objs s !! r) ->
  (forall s', same_shape s s' -> Q tt s') ->
  wp (_apply_disease r) Q s.
Proof.
  intros Hs [o Ho] HQ. pose proof (same_shape_refl s) as Hss.
  pose proof (position_inside _ _ _ Hs Ho) as Hin.
  unfold _apply_disease.
  assert (Hloop : forall s1 occ,
    same_shape s s1 ->
    Environment.occupied_neighbors (environment s1) (Orc.position o).1
      (Orc.position o).2 = Some occ ->
    wp (bind (for_each occ (spread_to (settings s)))
          (fun _ => bind (deref r) (fun o1 =>
             if Orc.infection_timer o1 <=? 0
             then update_orc r (fun o2 => Orc.with_infection o2 false 0)
             else ret tt))) Q s1).
  { clear Hss. intros s1 occ Hss Hocc. apply wp_bind.
    rewrite (ss_environment _ _ Hss) in Hocc.
    eapply wp_mono.
    - apply (wp_for_each (same_shape s)); [done|].
      intros p s2 Hp Hss2. eapply spread_to_ss; eauto.
      eapply occupied_neighbors_inside; [apply Hs | done..].
    - clear Hss s1. intros [] s1 Hss. simpl.
      repeat ss_step Hss; by apply HQ. }
  repeat ss_step Hss; try (by apply HQ); by apply Hloop.
Qed.

Lemma forage_ss s r fertility Q :
  Inv s -> is_Some (objs s !! r) ->
  (forall s', same_shape s s' -> Q tt s') ->
  wp (_forage r fertility) Q s.
Proof.
  intros Hs Hr HQ. pose proof (same_shape_refl s) as Hss.
  unfold _forage. repeat ss_step Hss; by apply HQ.
Qed.

Lemma should_attack_ss s c d Q :
  Inv s -> is_Some (objs s !! c) -> is_Some (objs s !! d) ->
  (forall a s', same_shape s s' -> Q a s') ->
  wp (_should_attack c d) Q s.
Proof.
  intros Hs [oc Hc] [od Hd] HQ. pose proof (same_shape_refl s) as Hss.
  unfold _should_attack. repeat ss_step Hss; by apply HQ.
Qed.

Lemma fight_scores_ss s c d Q :
  Inv s -> is_Some (objs s !! c) -> is_Some (objs s !! d) ->
  (forall a s', same_shape s s' -> Q a s') ->
  wp (fight_scores c d) Q s.
Proof.
  intros Hs [oc Hc] [od Hd] HQ. pose proof (same_shape_refl s) as Hss.
  unfold fight_scores. repeat ss_step Hss; by apply HQ.
Qed.

Lemma index_tuple3 (m : float * float * float) (k : Z) :
  is_Some (Py.index (tuple3 m) (k mod 3)).
Proof.
  destruct m as [[a b] c]. apply index_is_Some. simpl.
  pose proof (Z.mod_pos_bound k 3). lia.
Qed.

Lemma apply_kind_modifiers_ss s r Q :
  is_Some (objs s !! r) ->
  (forall s', same_shape s s' -> Q tt s') ->
  wp (_apply_kind_modifiers r) Q s.
Proof.
  intros [o Ho] HQ. pose proof (same_shape_refl s) as Hss.
  unfold _apply_kind_modifiers. do 2 ss_step Hss.
  assert (Hlen : forall m, length (tuple3 m) = 3%nat) by (by intros [[? ?] ?]).
  rewrite Hlen. change (Z.max 1 (Z.of_nat 3)) with 3.
  apply wp_bind, wp_read_is_Some; [apply (index_tuple3 _ (Orc.kind o))|intros ? _].
  apply wp_bind, wp_read_is_Some; [apply (index_tuple3 _ (Orc.kind o))|intros ? _].
  apply wp_bind, wp_read_is_Some; [apply (index_tuple3 _ (Orc.kind o))|intros ? _].
  ss_step Hss. by apply HQ.
Qed.

Lemma desirability_of_ss s0 s r o score vec fa lp ls coord Q :
  Inv s0 -> same_shape s0 s -> is_Some (objs s0 !! r) ->
  inside (environment s0) coord ->
  (forall a s', same_shape s0 s' -> a.2 = coord -> Q a s') ->
  wp (desirability_of r o score vec fa lp ls coord) Q s.
Proof.
  intros Hs Hss Hr Hin HQ. unfold desirability_of.
  destruct vec as [[vx vy]|]; repeat ss_step Hss; by apply HQ.
Qed.

Lemma slice_top_nonempty {A} (l : list A) :
  l <> [] -> Py.slice_to l (Z.min 3 (Z.of_nat (length l))) <> [].
Proof.
  intros Hl. unfold Py.slice_to. destruct l as [|x l]; [done|].
  destruct (Z.leb_spec 0 (Z.min 3 (Z.of_nat (length (x :: l))))) as [_|Hneg].
  - assert (exists n, Z.to_nat (Z.min 3 (Z.of_nat (length (x :: l)))) = S n)
      as [n ->]; [|done].
    exists (Z.to_nat (Z.min 3 (Z.of_nat (length (x :: l)))) - 1)%nat.
    simpl length. lia.
  - simpl length in Hneg. lia.
Qed.

Lemma choose_move_target_ss s r empties Q :
  Inv s -> is_Some (objs s !! r) -> empties <> [] ->
  (forall p, p ∈ empties -> inside (environment s) p) ->
  (forall dest s', same_shape s s' -> dest ∈ empties -> Q dest s') ->
  wp (_choose_move_target r empties) Q s.
Proof.
  intros Hs [o Ho] Hne Hin HQ. pose proof (same_shape_refl s) as Hss.
  pose proof (position_inside _ _ _ Hs Ho) as Hpos.
  unfold _choose_move_target. do 6 ss_step Hss.
  apply wp_bind. eapply wp_mono.
  { apply (wp_for_collect (same_shape s)
             (fun (c : Z * Z) (b : float * (Z * Z)) => b.2 = c)); [done|].
    intros c s1 Hc Hss1. eapply desirability_of_ss; eauto. }
  clear Hss. intros weighted s1 [Hss Hw]. cbv beta zeta.
  set (sorted := Py.sorted_reverse score_lt weighted).
  assert (Hperm : sorted ≡ₚ weighted) by apply sorted_reverse_perm.
  assert (Hsne : sorted <> []).
  { intros Hnil. rewrite Hnil in Hperm. symmetry in Hperm.
    apply Permutation_nil_r in Hperm. subst weighted.
    apply Forall2_nil_inv_r in Hw. done. }
  destruct (choice_spec (Py.slice_to sorted (Z.min 3 (Z.of_nat (length sorted))))
              (rng s1) (slice_top_nonempty _ Hsne)) as (ch & g & Hch & Hel).
  apply wp_bind. eapply wp_draw_opt_ss; [exact Hss | by rewrite Hch |].
  intros ch' g' s2 Hch' Hss2. rewrite Hch in Hch'. injection Hch' as <- <-.
  apply wp_ret. apply HQ; [done|].
  apply elem_of_slice_to in Hel. rewrite Hperm in Hel.
  destruct (proj1 (list_elem_of_lookup _ _) Hel) as [i Hi].
  destruct (Forall2_lookup_r _ _ _ _ _ Hw Hi) as (c & Hc & Heq).
  rewrite Heq. by eapply list_elem_of_lookup_2.
Qed.
End ShapeProofs.

(** ** Methods that change the grid and the population *)

Section Structure.
Context {R : PyRandom} {L : Libm}.
Import Simulation.
Implicit Types (s : t) (e : Environment.t).

(** Writing one cell of the grid of an environment. *)
Lemma set_cell_spec e x y v :
  env_wf e -> inside e (x, y) ->
  exists g', Py.setitem2 (Environment._grid e) x y v = Some g' /\
    env_wf (Environment.with_grid e g') /\
    forall px py, inside e (px, py) ->
      Environment.get (Environment.with_grid e g') px py =
        if decide ((px, py) = (x, y)) then Some v
        else Environment.get e px py.
Proof.
  intros He [Hx Hy]. simpl in Hx, Hy.
  destruct (setitem2_spec _ _ _ x y v (wf_grid _ He) Hx Hy)
    as (g' & Hg' & Hrect & Hget).
  exists g'. split; [done|]. split.
  - destruct He. by split.
  - intros px py [Hpx Hpy]. simpl in *. unfold Environment.get. simpl.
    rewrite Hget by done.
    destruct (decide (px = x /\ py = y)) as [[-> ->]|Hne].
    + by rewrite decide_True.
    + rewrite decide_False; [done|]. intros [= -> ->]. by apply Hne.
Qed.

Lemma filter_ne_not_in (r : Z) (l : list Z) :
  r ∉ l -> filter (fun j => j <> r) l = l.
Proof.
  intros Hr. induction l as [|x l IH]; [done|].
  rewrite filter_cons. apply not_elem_of_cons in Hr as [Hne Hr].
  rewrite decide_True by done. by rewrite IH.
Qed.

(** Removing an agent, live or not, keeps the invariant; the store is
    untouched and the cell of a live agent is cleared. *)
Lemma remove_orc_full s r o Q :
  Inv s -> objs s !! r = Some o ->
  (forall s', later s s' ->
              population s' = filter (fun j => j <> r) (population s) ->
              _next_id s' = _next_id s ->
              objs s' = objs s ->
              (r ∈ population s ->
               Environment.get (environment s') (Orc.position o).1
                 (Orc.position o).2 = Some None) ->
              Q tt s') ->
  wp (_remove_orc r) Q s.
Proof.
  intros Hs Ho HQ. pose proof Hs as [].
  destruct (inv_store0 r o Ho) as (Hid & Hin & Hlt).
  unfold _remove_orc, wp, bind, deref, read, dict_pop, Environment.remove.
  rewrite Ho. destruct (Orc.position o) as [x y] eqn:Hpos.
  destruct (get_is_Some _ x y inv_env0 Hin) as [c Hc]. rewrite Hc.
  destruct (decide (c = Some r)) as [->|Hne].
  - destruct (set_cell_spec _ x y None inv_env0 Hin) as (g' & -> & Hwf & Hget).
    simpl. rewrite Ho, Hid. eexists _, _. split; [done|].
    apply HQ; [|done..|].
    2:{ intros _. simpl. rewrite (Hget x y Hin). by rewrite decide_True. }
    unfold later. split_and!; [|by intros ?|done..].
    split; simpl; try done.
    + intros x' y' r' Hin' Hget'.
      rewrite (Hget x' y' Hin') in Hget'.
      destruct (decide ((x', y') = (x, y))); [done|].
      destruct (inv_grid0 x' y' r' Hin' Hget') as (Hr' & o' & Ho' & Hpos').
      split; [|by exists o'].
      apply list_elem_of_filter. split; [|done].
      intros ->. congruence.
    + intros r' Hr'. apply list_elem_of_filter in Hr' as [Hne Hr'].
      destruct (inv_pop0 r' Hr') as (o' & Ho' & Hget').
      exists o'. split; [done|].
      destruct (inv_store0 r' o' Ho') as (_ & Hin' & _).
      destruct (Orc.position o') as [x' y']. simpl in *.
      rewrite (Hget _ _ Hin').
      destruct (decide ((x', y') = (x, y))) as [Heq|]; [|done].
      injection Heq as -> ->. congruence.
    + by apply NoDup_filter.
  - simpl. rewrite Ho, Hid. eexists _, _. split; [done|].
    assert (Hdead : r ∉ population s).
    { intros Hr. destruct (inv_pop0 r Hr) as (o' & Ho' & Hget').
      assert (o' = o) by congruence. subst o'.
      rewrite Hpos in Hget'. simpl in Hget'. congruence. }
    apply HQ; [|done..]. unfold later. split_and!; [|by intros ?|done..].
    simpl. rewrite filter_ne_not_in by done.
    by destruct s.
Qed.

Lemma remove_orc_spec s r Q :
  Inv s -> is_Some (objs s !! r) ->
  (forall s', later s s' ->
              population s' = filter (fun j => j <> r) (population s) ->
              _next_id s' = _next_id s ->
              Q tt s') ->
  wp (_remove_orc r) Q s.
Proof.
  intros Hs [o Ho] HQ. eapply remove_orc_full; [done..|].
  intros s' Hl Hp Hn _ _. by apply HQ.
Qed.

Lemma remove_if_exhausted_spec s r Q :
  Inv s -> is_Some (objs s !! r) ->
  (forall s', later s s' -> _next_id s' = _next_id s -> Q tt s') ->
  wp (remove_if_exhausted r) Q s.
Proof.
  intros Hs [o Ho] HQ. unfold remove_if_exhausted.
  apply wp_bind. eapply wp_deref; [done|].
  destruct (Orc.energy o <=? 0)%float.
  - apply remove_orc_spec; [done | by exists o |]. intros s' Hl _ Hn. by apply HQ.
  - apply wp_ret. apply HQ; [|done]. apply same_shape_later; [done|].
    apply same_shape_refl.
Qed.

Lemma inb_elem_of (k : Z) (l : list Z) : inb k l = true <-> k ∈ l.
Proof.
  unfold inb. rewrite existsb_exists. split.
  - intros (x & Hx & Heq). apply Z.eqb_eq in Heq as ->.
    by apply list_elem_of_In.
  - intros Hk. exists k. split; [by apply list_elem_of_In | apply Z.eqb_refl].
Qed.

Lemma inb_not_elem_of (k : Z) (l : list Z) : inb k l = false <-> k ∉ l.
Proof. rewrite <- inb_elem_of. by destruct (inb k l). Qed.

(** A moved agent: the source cell is cleared, the destination holds it. *)
Lemma move_spec s r dest Q :
  Inv s -> r ∈ population s -> inside (environment s) dest ->
  Environment.get (environment s) dest.1 dest.2 = Some None ->
  (forall s', later s s' -> _next_id s' = _next_id s ->
              population s' = population s -> Q tt s') ->
  wp (move r dest) Q s.
Proof.
  intros Hs Hr Hdest Hempty HQ. pose proof Hs as [].
  destruct (inv_pop0 r Hr) as (o & Ho & Hsrc).
  destruct (inv_store0 r o Ho) as (Hid & Hin & Hlt).
  destruct dest as [dx dy]. simpl in Hempty.
  unfold move, wp, Environment.move. rewrite (proj2 (in_bounds_inside _ _ _) Hdest).
  simpl. rewrite Ho. destruct (Orc.position o) as [sx sy] eqn:Hpos.
  simpl in Hsrc. rewrite Hempty.
  destruct (set_cell_spec _ sx sy None inv_env0 Hin) as (g1 & -> & Hwf1 & Hget1).
  destruct (set_cell_spec _ dx dy (Some r) Hwf1 Hdest) as (g2 & Hg2 & Hwf2 & Hget2).
  simpl in Hg2. rewrite Hg2. eexists _, _. split; [done|].
  assert (Hget : forall px py, inside (environment s) (px, py) ->
    Environment.get (Environment.with_grid (environment s) g2) px py =
      if decide ((px, py) = (dx, dy)) then Some (Some r)
      else if decide ((px, py) = (sx, sy)) then Some None
      else Environment.get (environment s) px py).
  { intros px py Hp. rewrite <- Hget1 by done. by apply (Hget2 px py). }
  apply HQ; [|done..]. unfold later. split_and!; [| |done..].
  - split; simpl; try done.
    + intros r' o' Hr'. destruct (decide (r' = r)) as [->|Hne].
      * rewrite lookup_insert_eq in Hr'. injection Hr' as <-. by simpl.
      * rewrite lookup_insert_ne in Hr' by done. by apply inv_store0.
    + intros x y r' Hxy Hget'. rewrite Hget in Hget' by done.
      destruct (decide ((x, y) = (dx, dy))) as [Heq|Hnd].
      { injection Hget' as <-. split; [done|].
        rewrite lookup_insert_eq. eexists. split; [done|]. by simpl. }
      destruct (decide ((x, y) = (sx, sy))); [done|].
      destruct (inv_grid0 x y r' Hxy Hget') as (Hr' & o' & Ho' & Hpos').
      split; [done|]. exists o'. split; [|done].
      rewrite lookup_insert_ne; [done|]. intros <-. congruence.
    + intros r' Hr'. destruct (decide (r' = r)) as [->|Hne].
      * rewrite lookup_insert_eq. eexists. split; [done|]. simpl.
        rewrite Hget by done. by rewrite decide_True.
      * rewrite lookup_insert_ne by done.
        destruct (inv_pop0 r' Hr') as (o' & Ho' & Hget').
        exists o'. split; [done|].
        destruct (inv_store0 r' o' Ho') as (_ & Hin' & _).
        destruct (Orc.position o') as [x' y']. simpl in *.
        rewrite Hget by done.
        destruct (decide ((x', y') = (dx, dy))) as [[= -> ->]|]; [congruence|].
        destruct (decide ((x', y') = (sx, sy))) as [[= -> ->]|]; [congruence|].
        done.
  - intros r' [o' Hr']. simpl. destruct (decide (r' = r)) as [->|Hne].
    + rewrite lookup_insert_eq. by eexists.
    + rewrite lookup_insert_ne by done. by eexists.
Qed.

(** The registration and placement of a new agent [c], allocated under the
    next id of [s]; [s1] is the state after the allocation and any method
    keeping its shape. *)
Lemma birth_spec {A} s c s1 dest (k : unit -> M A) Q :
  Inv s -> Orc.id c = _next_id s ->
  inside (environment s) (Orc.position c) ->
  same_shape (with_next_id (with_objs s (<[_next_id s := c]> (objs s)))
                           (_next_id s + 1)) s1 ->
  inside (environment s) dest ->
  Environment.get (environment s) dest.1 dest.2 = Some None ->
  (forall s', later s s' -> _next_id s ∈ population s' ->
              Environment.get (environment s') dest.1 dest.2
                = Some (Some (_next_id s)) ->
              (forall p, inside (environment s) p -> p <> dest ->
                 Environment.get (environment s') p.1 p.2
                 = Environment.get (environment s) p.1 p.2) ->
              wp (k tt) Q s') ->
  wp (bind (deref (_next_id s))
        (fun c' => bind (dict_set (Orc.id c'))
                     (fun _ => bind (place (_next_id s) dest) k))) Q s1.
Proof.
  intros Hs Hid Hcin Hss Hdest Hempty HQ. pose proof Hs as [].
  set (nid := _next_id s) in *.
  pose proof Hss as [Hst He Hp Ht Hn Hobjs]. simpl in Hst, He, Hp, Ht, Hn.
  assert (Hfresh : nid ∉ population s).
  { intros Hin. destruct (inv_pop0 nid Hin) as (o & Ho & _).
    destruct (inv_store0 nid o Ho) as (_ & _ & Hlt). unfold nid in Hlt. lia. }
  destruct (same_shape_lookup _ _ nid c Hss) as (c1 & Hc1 & Hid1 & Hpos1 & _).
  { simpl. by rewrite lookup_insert_eq. }
  assert (Hother : forall r, r <> nid ->
    match objs s !! r, objs s1 !! r with
    | Some o, Some o' =>
        Orc.id o' = Orc.id o /\ Orc.position o' = Orc.position o
    | None, None => True
    | _, _ => False
    end).
  { intros r Hne. specialize (Hobjs r). simpl in Hobjs.
    rewrite lookup_insert_ne in Hobjs by done.
    destruct (objs s !! r), (objs s1 !! r); try done. tauto. }
  destruct dest as [dx dy]. simpl in Hempty.
  unfold wp, bind, deref, read, dict_set, place, Environment.place.
  rewrite Hc1. simpl. rewrite He, Hc1, Hp, Hid1, Hid.
  rewrite (proj2 (inb_not_elem_of _ _) Hfresh).
  rewrite (proj2 (in_bounds_inside _ _ _) Hdest). simpl. rewrite Hempty.
  destruct (set_cell_spec _ dx dy (Some nid) inv_env0 Hdest)
    as (g' & -> & Hwf & Hget).
  apply HQ; simpl.
  - unfold later. split_and!; simpl; [| |congruence..].
    + split; simpl; rewrite ?Hst; try done.
      * intros r o' Hr. destruct (decide (r = nid)) as [->|Hne].
        { rewrite lookup_insert_eq in Hr. injection Hr as <-. simpl.
          split_and!; [congruence | done | lia]. }
        rewrite lookup_insert_ne in Hr by done.
        specialize (Hother r Hne). rewrite Hr in Hother.
        destruct (objs s !! r) as [o|] eqn:Ho; [|done].
        destruct Hother as [-> ->].
        destruct (inv_store0 r o Ho) as (? & ? & ?).
        split_and!; [done.. | unfold nid in *; lia].
      * intros x y r Hxy Hget'. rewrite Hget in Hget' by done.
        destruct (decide ((x, y) = (dx, dy))) as [Heq|Hnd].
        { injection Hget' as <-. split; [apply elem_of_app; right; by left|].
          rewrite lookup_insert_eq. eexists. split; [done|]. by simpl. }
        destruct (inv_grid0 x y r Hxy Hget') as (Hr & o & Ho & Hpos).
        split; [apply elem_of_app; by left|].
        assert (Hne : r <> nid) by (by intros ->).
        rewrite lookup_insert_ne by done.
        specialize (Hother r Hne). rewrite Ho in Hother.
        destruct (objs s1 !! r) as [o'|]; [|done].
        exists o'. split; [done|]. destruct Hother. congruence.
      * intros r Hr. apply elem_of_app in Hr as [Hr|Hr].
        { assert (Hne : r <> nid) by (by intros ->).
          rewrite lookup_insert_ne by done.
          destruct (inv_pop0 r Hr) as (o & Ho & Hget').
          specialize (Hother r Hne). rewrite Ho in Hother.
          destruct (objs s1 !! r) as [o'|]; [|done].
          exists o'. split; [done|]. destruct Hother as [_ ->].
          destruct (inv_store0 r o Ho) as (_ & Hin' & _).
          destruct (Orc.position o) as [x' y']. simpl in *.
          rewrite Hget by done.
          destruct (decide ((x', y') = (dx, dy))) as [[= -> ->]|]; [congruence|].
          done. }
        apply list_elem_of_singleton in Hr as ->.
        rewrite lookup_insert_eq. eexists. split; [done|]. simpl.
        rewrite Hget by done. by rewrite decide_True.
      * apply NoDup_app. split_and!; [done | | apply NoDup_singleton].
        intros x Hx Hx'. apply list_elem_of_singleton in Hx' as ->. done.
    + intros r [o Ho]. simpl. destruct (decide (r = nid)) as [->|Hne].
      * rewrite lookup_insert_eq. by eexists.
      * rewrite lookup_insert_ne by done.
        specialize (Hother r Hne). rewrite Ho in Hother.
        by destruct (objs s1 !! r).
  - apply elem_of_app. right. by left.
  - rewrite Hget by done. by rewrite decide_True.
  - intros [px py] Hp' Hne. simpl. rewrite Hget by done.
    by rewrite decide_False.
Qed.

(** *** Statements run in a later state of the run *)

Lemma later_refl s : Inv s -> later s s.
Proof. intros Hs. apply same_shape_later; [done | apply same_shape_refl]. Qed.

Lemma later_valid s0 s r :
  later s0 s -> is_Some (objs s0 !! r) -> is_Some (objs s !! r).
Proof. intros (_ & Hle & _). apply Hle. Qed.

Lemma later_Inv s0 s : later s0 s -> Inv s.
Proof. by intros (? & _). Qed.

Lemma later_inside s0 s p :
  Inv s0 -> later s0 s -> inside (environment s0) p -> inside (environment s) p.
Proof.
  intros Hs0 (Hs & _ & Hst & _). unfold inside.
  rewrite (inv_width _ Hs), (inv_height _ Hs), (inv_width _ Hs0),
    (inv_height _ Hs0), Hst. done.
Qed.

Lemma wp_update_later s0 s r f Q :
  later s0 s -> is_Some (objs s0 !! r) -> keeps_place f ->
  (forall s', later s0 s' -> Q tt s') -> wp (update_orc r f) Q s.
Proof.
  intros Hl Hr Hf HQ.
  eapply wp_update_ss; [apply same_shape_refl | by eapply later_valid | done |].
  intros s' Hss. apply HQ. by eapply later_shape.
Qed.

Lemma wp_draw_later {A} s0 s (f : rng_state -> A * rng_state) Q :
  later s0 s -> (forall a s', later s0 s' -> Q a s') -> wp (draw f) Q s.
Proof.
  intros Hl HQ. eapply wp_draw_ss; [apply same_shape_refl|].
  intros a s' Hss. apply HQ. by eapply later_shape.
Qed.

Lemma wp_deref_later s0 s r Q :
  later s0 s -> is_Some (objs s0 !! r) ->
  (forall o, objs s !! r = Some o -> Q o s) -> wp (deref r) Q s.
Proof.
  intros Hl Hr HQ. destruct (later_valid _ _ _ Hl Hr) as [o Ho].
  eapply wp_deref; [done|]. by apply HQ.
Qed.

Lemma wp_remove_later s0 s r Q :
  later s0 s -> is_Some (objs s0 !! r) ->
  (forall s', later s0 s' -> Q tt s') -> wp (_remove_orc r) Q s.
Proof.
  intros Hl Hr HQ.
  apply remove_orc_spec; [by eapply later_Inv | by eapply later_valid |].
  intros s' Hl' _ _. apply HQ. by eapply later_trans.
Qed.

Lemma wp_remove_if_exhausted_later s0 s r Q :
  later s0 s -> is_Some (objs s0 !! r) ->
  (forall s', later s0 s' -> Q tt s') -> wp (remove_if_exhausted r) Q s.
Proof.
  intros Hl Hr HQ.
  apply remove_if_exhausted_spec; [by eapply later_Inv | by eapply later_valid |].
  intros s' Hl' _. apply HQ. by eapply later_trans.
Qed.
End Structure.

#[global] Hint Resolve later_valid later_Inv later_refl : shape.

(** One statement of a method run in a later state [s] of the run that
    started in [s0] ([Hl : later s0 s]). *)
Ltac lt_step Hl :=
  lazymatch goal with
  | |- wp (Simulation.bind _ _) _ _ => apply wp_bind; lt_step Hl
  | |- wp (Simulation.ret _) _ _ => apply wp_ret
  | |- wp (Simulation.gets _) _ _ => apply wp_gets
  | |- wp (Simulation.draw _) _ _ =>
      let a := fresh "u" in let s' := fresh "s" in
      eapply wp_draw_later; [exact Hl|]; clear Hl; intros a s' Hl
  | |- wp (Simulation.update_orc _ _) _ _ =>
      let s' := fresh "s" in
      eapply wp_update_later;
        [exact Hl | solve [eauto with shape] | solve [eauto with shape] |];
        clear Hl; intros s' Hl
  | |- wp (Simulation.deref _) _ _ =>
      let o' := fresh "o" in
      eapply wp_deref_later; [exact Hl | solve [eauto with shape] |];
      intros o' _; cbv beta
  | |- wp (Simulation._remove_orc _) _ _ =>
      let s' := fresh "s" in
      eapply wp_remove_later; [exact Hl | solve [eauto with shape] |];
      clear Hl; intros s' Hl
  | |- wp (Simulation.remove_if_exhausted _) _ _ =>
      let s' := fresh "s" in
      eapply wp_remove_if_exhausted_later;
        [exact Hl | solve [eauto with shape] |];
      clear Hl; intros s' Hl
  | |- wp (if _ then _ else _) _ _ => apply wp_if; intros _
  | |- wp (let '(_, _) := ?p in _) _ _ => destruct p as [? ?]; cbv beta iota
  | |- wp (let _ := _ in _) _ _ => cbv zeta
  end.

Section Pipeline.
Context {R : PyRandom} {L : Libm}.
Import Simulation.
Implicit Types (s : t) (e : Environment.t).

Lemma overpop_kill_check_spec s r Q :
  Inv s -> is_Some (objs s !! r) ->
  (forall (b : bool) s',
      (if b then later s s' else same_shape s s') -> Q b s') ->
  wp (_overpop_kill_check r) Q s.
Proof.
  intros Hs Hr HQ. unfold _overpop_kill_check. apply wp_bind, wp_gets.
  destruct (Z.leb_spec (max_population (settings s)) 0) as [|Hpos].
  { apply wp_ret. apply (HQ false). apply same_shape_refl. }
  apply wp_bind, wp_gets.
  destruct (_ <=? _).
  { apply wp_ret. apply (HQ false). apply same_shape_refl. }
  apply wp_bind, wp_read_is_Some.
  { unfold overpop_chance, Py.truediv.
    destruct (Z.eqb_spec (max_population (settings s)) 0); [lia | done]. }
  intros chance _. pose proof (same_shape_refl s) as Hss.
  ss_step Hss. destruct (u <? chance)%float.
  - pose proof (same_shape_later _ _ Hs Hss) as Hl.
    repeat lt_step Hl. by apply (HQ true).
  - apply wp_ret. by apply (HQ false).
Qed.

Lemma clone_shape (o : Orc.t) (rate scale : float) (nid : Z) (g : rng_state) :
  let c := (Orc.clone_with_mutation o rate scale nid g).1 in
  Orc.id c = nid /\ Orc.position c = Orc.position o /\
  Orc.kind c = Orc.kind o /\ Orc.age c = 0 /\ Orc.infected c = false.
Proof.
  unfold Orc.clone_with_mutation.
  destruct (Orc.mutate rate scale (Orc.strength o) g) as [x1 g1].
  destruct (Orc.mutate rate scale (Orc.agility o) g1) as [x2 g2].
  destruct (Orc.mutate rate scale (Orc.resilience o) g2) as [x3 g3].
  by simpl.
Qed.

Lemma maybe_reproduce_spec s r Q :
  Inv s -> is_Some (objs s !! r) ->
  (forall (b : bool) s',
      (if b then later s s' else same_shape s s') -> Q b s') ->
  wp (_maybe_reproduce r) Q s.
Proof.
  intros Hs [o Ho] HQ. pose proof (same_shape_refl s) as Hss.
  unfold _maybe_reproduce.
  apply wp_bind, wp_gets. apply wp_bind. eapply wp_deref; [done|].
  apply wp_bind, wp_read_is_Some; [eauto with shape|]. intros pop_kind _.
  apply wp_bind, wp_gets. cbv zeta.
  apply wp_if; intros _; [apply wp_ret; by apply (HQ false)|].
  apply wp_bind. eapply wp_draw_ss; [exact Hss|]. clear Hss. intros u s1 Hss.
  apply wp_if; intros _; [apply wp_ret; by apply (HQ false)|].
  pose proof (same_shape_Inv _ _ Hss Hs) as Hs1.
  apply wp_bind, wp_read_is_Some; [eauto with shape|]. intros ally _.
  apply wp_if; intros _; [apply wp_ret; by apply (HQ false)|].
  apply wp_bind, wp_read_is_Some; [eauto with shape|]. intros empties Hemp.
  destruct empties as [|e0 empties']; [apply wp_ret; by apply (HQ false)|].
  set (empties := e0 :: empties') in *.
  destruct (choice_spec empties (rng s1)) as (dest & g & Hch & Hdest); [done|].
  destruct (empty_neighbors_inside _ _ _ _ dest (inv_env _ Hs1) Hemp Hdest)
    as [Hdin Hdempty].
  apply wp_bind. eapply wp_draw_opt_ss; [exact Hss | by rewrite Hch |].
  intros dest' g' s2 Hch' Hss2. rewrite Hch in Hch'.
  injection Hch' as <- <-.
  pose proof (same_shape_Inv _ _ Hss2 Hs) as Hs2.
  apply wp_bind, wp_gets. apply wp_bind, wp_draw.
  set (cl := Orc.clone_with_mutation o _ _ _ _).
  destruct (clone_shape o (mutation_rate (settings s))
              (mutation_scale (settings s)) (_next_id s2) (rng s2))
    as (Hcid & Hcpos & _). fold cl in Hcid, Hcpos.
  set (s3 := with_rng s2 cl.2).
  assert (Hss3 : same_shape s2 s3) by apply same_shape_with_rng.
  pose proof (same_shape_Inv _ _ Hss3 Hs2) as Hs3.
  assert (Hn3 : _next_id s3 = _next_id s2) by done.
  rewrite <- Hn3 in Hcid.
  assert (He3 : environment s3 = environment s1).
  { rewrite (ss_environment _ _ Hss3), (ss_environment _ _ Hss2).
    symmetry. apply (ss_environment _ _ Hss). }
  unfold new_orc. apply wp_bind. eexists _, _. split; [done|].
  apply wp_bind. eexists _, _. split; [done|]. simpl _next_id.
  apply wp_bind. eapply wp_update_orc.
  { simpl. rewrite Hcid. apply lookup_insert_eq. }
  rewrite Hcid.
  eapply birth_spec with (s := s3) (c := cl.1) (dest := dest); try done.
  - rewrite Hcpos, He3, (ss_environment _ _ Hss). by eapply position_inside.
  - rewrite <- Hn3.
    apply (same_shape_update
      (with_next_id (with_objs s3 (<[_next_id s3 := cl.1]> (objs s3)))
                    (_next_id s3 + 1))
      (_next_id s3) cl.1 (fun c => Orc.with_energy c _)); try done.
    simpl. apply lookup_insert_eq.
  - by rewrite He3.
  - by rewrite He3.
  - intros s4 Hl4 _ _ _.
    assert (Hl : later s s4).
    { eapply later_trans; [|exact Hl4]. apply same_shape_later; [done|].
      by eapply same_shape_trans. }
    assert (Hr : is_Some (objs s !! r)) by (by exists o).
    repeat lt_step Hl. by apply (HQ true).
Qed.

Lemma wp_shape_later {A} s0 s (m : M A) Q :
  later s0 s ->
  (forall Q', (forall a s', same_shape s s' -> Q' a s') -> wp m Q' s) ->
  (forall a s', later s0 s' -> Q a s') ->
  wp m Q s.
Proof.
  intros Hl Hm HQ. apply Hm. intros a s' Hss. apply HQ. by eapply later_shape.
Qed.

Lemma resolve_fight_spec s c d Q :
  Inv s -> is_Some (objs s !! c) -> is_Some (objs s !! d) ->
  (forall s', later s s' -> Q tt s') ->
  wp (_resolve_fight c d) Q s.
Proof.
  intros Hs Hc Hd HQ. pose proof (later_refl _ Hs) as Hl.
  unfold _resolve_fight. do 4 lt_step Hl.
  apply wp_if; intros _; [by apply wp_ret, HQ|].
  do 3 lt_step Hl.
  apply wp_if; intros _; [lt_step Hl; by apply HQ|].
  lt_step Hl.
  apply wp_if; intros _; [lt_step Hl; by apply HQ|].
  apply wp_bind.
  eapply wp_shape_later; [exact Hl | |].
  { intros Q' HQ'. apply fight_scores_ss; eauto with shape. }
  clear Hl. intros [challenge_score defense_score] s3 Hl. cbv beta iota zeta.
  destruct (defense_score <=? challenge_score)%float;
    repeat lt_step Hl; by apply HQ.
Qed.

(** The attack part of [_take_action]: whether a fight took place. *)
Lemma fought_spec s r (target_coord : option (Z * Z)) Q :
  Inv s -> is_Some (objs s !! r) ->
  (forall p, target_coord = Some p -> inside (environment s) p) ->
  (forall (b : bool) s',
      (if b then later s s' else same_shape s s') -> Q b s') ->
  wp (match target_coord with
      | Some (tx, ty) =>
          bind (read (fun s => Environment.get (environment s) tx ty))
            (fun target =>
               match target with
               | Some target =>
                   bind (_should_attack r target)
                     (fun attack =>
                        if attack
                        then bind (_resolve_fight r target) (fun _ => ret true)
                        else ret false)
               | None => ret false
               end)
      | None => ret false
      end) Q s.
Proof.
  intros Hs Hr Hin HQ. destruct target_coord as [[tx ty]|].
  - specialize (Hin _ eq_refl).
    apply wp_bind, wp_read_is_Some; [eauto with shape|].
    intros [target|] Hget.
    + destruct (inv_grid _ Hs tx ty target Hin Hget) as (_ & tg & Htg & _).
      apply wp_bind. apply should_attack_ss; [done.. | by exists tg |].
      intros attack s1 Hss. destruct attack.
      * apply wp_bind.
        apply resolve_fight_spec; [by eapply same_shape_Inv | | |].
        { by eapply valid_ss. }
        { eapply valid_ss; [done | by exists tg]. }
        intros s2 Hl. apply wp_ret. apply (HQ true).
        eapply later_trans; [|done]. by apply same_shape_later.
      * apply wp_ret. by apply (HQ false).
    + apply wp_ret. apply (HQ false). apply same_shape_refl.
  - apply wp_ret. apply (HQ false). apply same_shape_refl.
Qed.

Lemma take_action_spec s r Q :
  Inv s -> r ∈ population s ->
  (forall s', later s s' -> Q tt s') ->
  wp (_take_action r) Q s.
Proof.
  intros Hs Hlive HQ. pose proof (same_shape_refl s) as Hss.
  destruct (inv_pop _ Hs r Hlive) as (o & Ho & _).
  assert (Hr : is_Some (objs s !! r)) by (by exists o).
  pose proof (position_inside _ _ _ Hs Ho) as Hpos.
  unfold _take_action. apply wp_bind, wp_gets.
  apply wp_bind. eapply wp_deref; [done|].
  destruct (Orc.position o) as [x y] eqn:Hxy.
  apply wp_bind, wp_read_is_Some; [eauto with shape|]. intros occupied Hocc.
  apply wp_bind, wp_read_is_Some; [eauto with shape|]. intros empties Hemp.
  apply wp_bind, wp_read_is_Some; [eauto with shape|]. intros fertility_here _.
  cbv zeta. apply wp_bind.
  eapply (wp_mono _ (fun _ s1 => same_shape s s1)).
  { destruct (_ <? _)%float; repeat ss_step Hss; done. }
  clear Hss. intros rest s1 Hss.
  pose proof (same_shape_Inv _ _ Hss Hs) as Hs1.
  destruct rest.
  { apply forage_ss; [done | by eapply valid_ss |]. intros s2 Hss2.
    apply HQ. apply same_shape_later; [done|]. by eapply same_shape_trans. }
  destruct (pick_target_spec s1 r occupied Hs1) as (tc & Htc & Htcin).
  { by eapply valid_ss. }
  { intros p Hp. eapply inside_ss; [done|].
    eapply occupied_neighbors_inside; [apply Hs | done..]. }
  apply wp_bind. eapply wp_read; [exact Htc|].
  apply wp_bind. apply fought_spec; [done | by eapply valid_ss | done |].
  intros fought s2 Hf. destruct fought.
  { apply wp_ret. apply HQ. eapply later_trans; [|done].
    by apply same_shape_later. }
  assert (Hss2 : same_shape s s2) by (by eapply same_shape_trans).
  clear Hf Hss Hs1 Htc Htcin. pose proof (same_shape_Inv _ _ Hss2 Hs) as Hs2.
  destruct empties as [|e0 empties'].
  - pose proof (same_shape_later _ _ Hs Hss2) as Hl.
    lt_step Hl. apply wp_if; intros _; [|by apply wp_ret, HQ].
    eapply wp_shape_later; [exact Hl | | by intros []].
    intros Q' HQ'. apply forage_ss; eauto with shape.
  - set (empties := e0 :: empties') in *.
    apply wp_bind. apply choose_move_target_ss;
      [done | by eapply valid_ss | done | |].
    { intros p Hp. eapply inside_ss; [done|].
      by eapply empty_neighbors_inside; [apply Hs | done..]. }
    intros dest s3 Hss3 Hdest.
    assert (Hss' : same_shape s s3) by (by eapply same_shape_trans).
    destruct (empty_neighbors_inside _ _ _ _ dest (inv_env _ Hs) Hemp Hdest)
      as [Hdin Hdempty].
    apply wp_bind. apply move_spec.
    + by eapply same_shape_Inv.
    + by rewrite (ss_population _ _ Hss').
    + by eapply inside_ss.
    + by rewrite (ss_environment _ _ Hss').
    + intros s4 Hl4 _ _.
      assert (Hl : later s s4).
      { eapply later_trans; [|done]. by apply same_shape_later. }
      clear Hl4. do 2 lt_step Hl.
      apply wp_if; intros _; [|by apply wp_ret, HQ].
      lt_step Hl. apply wp_if; intros _; [|by apply wp_ret, HQ].
      apply wp_bind, wp_read_is_Some.
      { apply fertility_is_Some; [eauto with shape|].
        destruct dest. by eapply (later_inside s). }
      intros fertility_moved _.
      eapply wp_shape_later; [exact Hl | | by intros []].
      intros Q' HQ'. apply forage_ss; eauto with shape.
Qed.

Lemma step_orc_spec s r Q :
  Inv s -> is_Some (objs s !! r) ->
  (forall s', later s s' -> Q tt s') ->
  wp (step_orc r) Q s.
Proof.
  intros Hs [o Ho] HQ. pose proof (same_shape_refl s) as Hss.
  destruct (inv_store _ Hs r o Ho) as (Hid & _).
  unfold step_orc. apply wp_bind, wp_gets.
  apply wp_bind. eapply wp_deref; [done|]. apply wp_bind, wp_gets.
  rewrite Hid. destruct (inb r (population s)) eqn:Hlive; simpl.
  2:{ apply wp_ret, HQ. by apply later_refl. }
  apply inb_elem_of in Hlive.
  ss_step Hss.
  apply wp_bind. apply apply_environment_pressure_ss; [eauto with shape..|].
  intros s1 Hss1. pose proof (same_shape_trans _ _ _ Hss Hss1) as Hss'.
  clear Hss Hss1.
  apply wp_bind. apply apply_social_context_ss; [eauto with shape..|].
  intros s2 Hss2. pose proof (same_shape_trans _ _ _ Hss' Hss2) as Hss.
  clear Hss' Hss2.
  apply wp_bind. apply apply_disease_ss; [eauto with shape..|].
  intros s3 Hss3. pose proof (same_shape_trans _ _ _ Hss Hss3) as Hss'.
  clear Hss Hss3.
  apply wp_bind. apply overpop_kill_check_spec; [eauto with shape..|].
  intros culled s4 H4. destruct culled.
  { apply wp_ret, HQ. eapply later_trans; [|done]. by apply same_shape_later. }
  pose proof (same_shape_trans _ _ _ Hss' H4) as Hss. clear Hss' H4.
  ss_step Hss. apply wp_if; intros _.
  { apply remove_orc_spec; [eauto with shape..|]. intros s5 Hl _ _.
    apply HQ. eapply later_trans; [|done]. by apply same_shape_later. }
  apply wp_bind. apply maybe_reproduce_spec; [eauto with shape..|].
  intros reproduced s5 H5. destruct reproduced.
  { apply wp_ret, HQ. eapply later_trans; [|done]. by apply same_shape_later. }
  pose proof (same_shape_trans _ _ _ Hss H5) as Hss'. clear Hss H5.
  apply take_action_spec; [eauto with shape | |].
  - by rewrite (ss_population _ _ Hss').
  - intros s6 Hl. apply HQ. eapply later_trans; [|done].
    by apply same_shape_later.
Qed.

Lemma Inv_with_tick s n : Inv s -> Inv (with_tick s n).
Proof. intros []. by split. Qed.

(** A tick returns and keeps the invariant. *)
Lemma step_spec s :
  Inv s ->
  wp step (fun _ s' => Inv s' /\ settings s' = settings s /\
                       tick s' = tick s + 1) s.
Proof.
  intros Hs. unfold step. apply wp_bind, wp_gets. apply wp_bind, wp_draw.
  set (sh := Random.shuffle (population s) (rng s)).
  assert (Hperm : sh.1 ≡ₚ population s) by apply shuffle_perm.
  set (s1 := with_rng s sh.2).
  assert (Hl1 : later s s1).
  { apply same_shape_later; [done | apply same_shape_with_rng]. }
  apply wp_bind. eapply wp_mono.
  { apply (wp_for_each (later s)); [exact Hl1|].
    intros r s2 Hr Hl2. apply step_orc_spec; [eauto with shape| |].
    - eapply later_valid; [done|]. rewrite Hperm in Hr.
      destruct (inv_pop _ Hs r Hr) as (o & Ho & _). by exists o.
    - intros s3 Hl3. by eapply later_trans. }
  intros [] s2 (Hs2 & _ & Hst & Ht). eexists _, _. split; [done|].
  split_and!; [by apply Inv_with_tick | done | simpl; lia].
Qed.
End Pipeline.

(** ** Generation of the environment *)

Section GenerationFacts.
Context {R : PyRandom}.

Lemma collect_spec {A B} (P : A -> B -> Prop)
    (f : A -> rng_state -> option (B * rng_state)) (l : list A) (g : rng_state) :
  (forall x g, x ∈ l -> exists b g', f x g = Some (b, g') /\ P x b) ->
  exists bs g', Environment.collect f l g = Some (bs, g') /\ Forall2 P l bs.
Proof.
  revert g. induction l as [|x l IH]; intros g Hf; simpl.
  - by exists [], g.
  - destruct (Hf x g) as (b & g1 & -> & Hb); [by left|].
    destruct (IH g1) as (bs & g2 & -> & Hbs).
    { intros y g' Hy. apply Hf. by right. }
    exists (b :: bs), g2. split; [done|]. by constructor.
Qed.

Lemma rect_Forall2 {B} (w h : Z) (k : list (list B)) :
  Forall2 (fun y row => length row = Z.to_nat w) (Py.range 0 h) k ->
  rect w h k.
Proof.
  intros H. split.
  - rewrite <- (Forall2_length _ _ _ H), length_range. lia.
  - apply Forall_forall. intros row Hrow.
    destruct (proj1 (list_elem_of_lookup _ _) Hrow) as [i Hi].
    destruct (Forall2_lookup_r _ _ _ _ _ H Hi) as (y & _ & Hlen). done.
Qed.

Lemma rect_fmap {A B} (f : A -> B) (w h : Z) (g : list (list A)) :
  rect w h g -> rect w h ((fun row : list A => f <$> row) <$> g).
Proof.
  intros [Hh Hw]. split; [by rewrite length_fmap|].
  apply Forall_fmap. eapply Forall_impl; [done|].
  intros row Hrow. simpl. by rewrite length_fmap.
Qed.

Lemma smooth_cell_is_Some (w h : Z) (layer : list (list float)) (x y : Z) :
  rect w h layer -> 0 <= x < w -> 0 <= y < h ->
  is_Some (Environment.smooth_cell w h layer x y).
Proof.
  intros Hl Hx Hy. unfold Environment.smooth_cell.
  set (count := foldl _ 0 Environment.three).
  destruct (fdiv_int_is_Some 0.5 (Z.max 1 count)) as [wpn ->]; [lia|].
  destruct (index2_is_Some w h layer x y Hl Hx Hy) as [v ->].
  edestruct (foldM_is_Some (A:=Z) (fun _ : float => True)) as (acc & Hacc & _);
    [| |erewrite Hacc; done]; [done|].
  intros a dy _ _.
  apply (foldM_is_Some (A:=Z) (fun _ : float => True)); [done|].
  intros a' dx _ _. destruct ((dx =? 0) && (dy =? 0)); [by eexists|].
  destruct (Environment.cell_in w h (x + dx) (y + dy)) eqn:Hin; [|by eexists].
  unfold Environment.cell_in in Hin.
  rewrite !andb_true_iff, !Z.leb_le, !Z.ltb_lt in Hin.
  destruct (index2_is_Some w h layer (x + dx) (y + dy) Hl) as [n ->];
    [lia | lia | by eexists].
Qed.

Lemma smooth_spec (w h : Z) (layer : list (list float)) :
  rect w h layer ->
  exists layer', Environment._smooth w h layer = Some layer' /\ rect w h layer'.
Proof.
  intros Hl. unfold Environment._smooth.
  destruct (mapM_is_Some_2
    (fun y => mapM (fun x => Environment.smooth_cell w h layer x y) (Py.range 0 w))
    (Py.range 0 h)) as [k Hk].
  { apply Forall_forall. intros y Hy. apply elem_of_range in Hy.
    apply mapM_is_Some_2, Forall_forall. intros x Hx. apply elem_of_range in Hx.
    apply smooth_cell_is_Some; [done | lia..]. }
  exists k. split; [done|]. apply mapM_Some_1 in Hk.
  apply rect_Forall2.
  eapply Forall2_impl; [done|]. intros y row Hrow. simpl in Hrow.
  apply length_mapM in Hrow. rewrite <- Hrow, length_range. lia.
Qed.

(** A layer is always generated, with the shape of the grid. *)
Lemma generate_layer_spec (w h : Z) (bias variation pull : float)
    (passes : Z) (g : rng_state) :
  exists layer g',
    Environment._generate_layer w h bias variation pull passes g
      = Some (layer, g') /\ rect w h layer.
Proof.
  unfold Environment._generate_layer.
  edestruct (collect_spec (B := list float)
               (fun (_ : Z) row => length row = Z.to_nat w))
    as (layer & g' & Hc & Hrows); [|erewrite Hc].
  { intros y g0 Hy. unfold Py.truediv.
    destruct (Z.eqb_spec (Z.max 1 (h - 1)) 0); [lia|].
    edestruct (collect_spec (B := float) (fun (_ : Z) _ => True))
      as (row & g1 & Hr & Hlen); [|erewrite Hr].
    - intros x g1 Hx. cbv beta.
      match goal with
      | |- context [Random.uniform ?a ?b ?g] => destruct (Random.uniform a b g)
      end. by eexists _, _.
    - eexists _, _. split; [done|].
      rewrite <- (Forall2_length _ _ _ Hlen), length_range. lia. }
  assert (Hrect : rect w h layer) by by apply rect_Forall2.
  edestruct (foldM_is_Some (A:=Z) (rect w h)
    (fun (layer : list (list float)) (_ : Z) => Environment._smooth w h layer))
    as (sm & Hsm & Hsmr); [exact Hrect | | erewrite Hsm].
  { intros l _ _. apply smooth_spec. }
  eexists _, _. split; [done|]. by apply rect_fmap.
Qed.

Lemma length_concat_rect {A} (w h : Z) (g : list (list A)) :
  rect w h g -> length (concat g) = (Z.to_nat h * Z.to_nat w)%nat.
Proof.
  intros [Hh Hw]. rewrite <- Hh. clear Hh.
  induction g as [|row g IH]; [done|].
  apply Forall_cons in Hw as [Hrow Hw]. simpl.
  rewrite length_app, Hrow, IH by done. lia.
Qed.

Lemma length_sorted {A} (lt : A -> A -> bool) (l : list A) :
  length (Py.sorted lt l) = length l.
Proof. apply Permutation_length, sorted_perm. Qed.

(** The classification returns exactly on a grid with a cell. *)
Lemma classify_spec (w h : Z) (noise : list (list float)) :
  rect w h noise -> 0 < w -> 0 < h ->
  exists b, Environment.classify noise = Some b /\ rect w h b.
Proof.
  intros Hn Hw Hh. unfold Environment.classify.
  pose proof (length_concat_rect w h noise Hn) as Hlen.
  set (sv := Py.sorted PrimFloat.ltb (concat noise)).
  assert (Hsv : length sv = (Z.to_nat h * Z.to_nat w)%nat).
  { unfold sv. by rewrite length_sorted. }
  assert (0 < Z.of_nat (length sv)) by (rewrite Hsv; nia).
  destruct (index_is_Some sv (Z.of_nat (length sv) / 3)) as [t1 ->].
  { split; [apply Z.div_pos; lia | apply Z.div_lt_upper_bound; lia]. }
  destruct (index_is_Some sv (2 * (Z.of_nat (length sv) / 3))) as [t2 ->].
  { pose proof (Z.mul_div_le (Z.of_nat (length sv)) 3).
    pose proof (Z.div_pos (Z.of_nat (length sv)) 3). lia. }
  eexists. split; [done|]. by apply rect_fmap.
Qed.

Lemma classify_empty (w h : Z) (noise : list (list float)) :
  rect w h noise -> ~ (0 < w /\ 0 < h) -> Environment.classify noise = None.
Proof.
  intros Hn Hwh. unfold Environment.classify.
  pose proof (length_concat_rect w h noise Hn) as Hlen.
  assert (Hnil : concat noise = []).
  { apply length_zero_iff_nil. rewrite Hlen. nia. }
  by rewrite Hnil.
Qed.

(** [Environment(width, height, rng)] returns exactly on a grid with a
    cell; the new grid is empty. *)
Lemma env_init_spec (w h : Z) (g : rng_state) :
  0 < w -> 0 < h ->
  exists e g', Environment.init w h g = Some (e, g') /\ env_wf e /\
    Environment.width e = w /\ Environment.height e = h /\
    forall x y, inside e (x, y) -> Environment.get e x y = Some None.
Proof.
  intros Hw Hh. unfold Environment.init, Environment._generate_biomes.
  destruct (generate_layer_spec w h 0.55 0.22 (-0.2) 4 g) as (hum & g1 & -> & Hhum).
  destruct (generate_layer_spec w h 0.5 0.24 0.16 4 g1) as (fer & g2 & -> & Hfer).
  destruct (generate_layer_spec w h 0.5 0.35 0.0 3 g2) as (noise & g3 & -> & Hnoise).
  destruct (classify_spec w h noise Hnoise Hw Hh) as (bio & -> & Hbio).
  eexists _, _. split; [done|].
  set (grid := (fun _ : Z => (fun _ : Z => None) <$> Py.range 0 w) <$> Py.range 0 h).
  assert (Hgrid : rect (A := option Z) w h grid).
  { split.
    - unfold grid. rewrite length_fmap, length_range. lia.
    - apply Forall_fmap, Forall_forall. intros y _. simpl.
      rewrite length_fmap, length_range. lia. }
  split; [by split|]. split_and!; [done..|].
  intros x y [Hx Hy]. simpl in Hx, Hy. unfold Environment.get. simpl.
  rewrite (index2_nat w h) by done. unfold grid.
  rewrite list_lookup_fmap.
  destruct (lookup_lt_is_Some_2 (Py.range 0 h) (Z.to_nat y)) as [y' ->].
  { rewrite length_range. lia. }
  simpl. rewrite list_lookup_fmap.
  destruct (lookup_lt_is_Some_2 (Py.range 0 w) (Z.to_nat x)) as [x' ->].
  { rewrite length_range. lia. }
  done.
Qed.

Lemma env_init_positive (w h : Z) (g : rng_state) e g' :
  Environment.init w h g = Some (e, g') -> 0 < w /\ 0 < h.
Proof.
  intros Hinit. destruct (decide (0 < w /\ 0 < h)) as [|Hno]; [done|].
  exfalso. unfold Environment.init, Environment._generate_biomes in Hinit.
  destruct (generate_layer_spec w h 0.55 0.22 (-0.2) 4 g) as (hum & g1 & Hg1 & _).
  rewrite Hg1 in Hinit.
  destruct (generate_layer_spec w h 0.5 0.24 0.16 4 g1) as (fer & g2 & Hg2 & _).
  rewrite Hg2 in Hinit.
  destruct (generate_layer_spec w h 0.5 0.35 0.0 3 g2) as (noise & g3 & Hg3 & Hn).
  rewrite Hg3 in Hinit. by rewrite (classify_empty w h noise Hn Hno) in Hinit.
Qed.
End GenerationFacts.

(** ** Construction and reset *)

Section Seeding.
Context {R : PyRandom} {L : Libm}.
Import Simulation.
Implicit Types (s : t) (e : Environment.t).

Lemma wp_for_each_rest {A} (I : list A -> t -> Prop) (l : list A)
    (body : A -> M unit) s :
  I l s ->
  (forall x rest s, I (x :: rest) s -> wp (body x) (fun _ s' => I rest s') s) ->
  wp (for_each l body) (fun _ s' => I [] s') s.
Proof.
  revert s. induction l as [|x l IH]; intros s Hs Hbody; simpl.
  - by apply wp_ret.
  - apply wp_bind. eapply wp_mono; [by apply Hbody|].
    intros [] s' Hs'. by apply IH.
Qed.

Lemma elem_of_all_coords (w h : Z) (c : Z * Z) :
  c ∈ all_coords w h <-> 0 <= c.1 < w /\ 0 <= c.2 < h.
Proof.
  unfold all_coords. rewrite list_elem_of_bind. split.
  - intros (x & Hc & Hx). apply list_elem_of_fmap in Hc as (y & -> & Hy).
    apply elem_of_range in Hx, Hy. simpl. lia.
  - intros [Hx Hy]. exists c.1. split; [|apply elem_of_range; lia].
    apply list_elem_of_fmap. exists c.2. split; [by destruct c|].
    apply elem_of_range. lia.
Qed.

Lemma NoDup_all_coords (w h : Z) : NoDup (all_coords w h).
Proof.
  unfold all_coords. apply NoDup_bind; [| |apply NoDup_range].
  - intros x1 x2 c _ _ H1 H2.
    apply list_elem_of_fmap in H1 as (y1 & -> & _).
    apply list_elem_of_fmap in H2 as (y2 & [= ->] & _). done.
  - intros x _. apply NoDup_fmap_2; [|apply NoDup_range].
    by intros y1 y2 [= ->].
Qed.

Lemma spawn_orc_spec s c Q :
  Inv s -> inside (environment s) c ->
  Environment.get (environment s) c.1 c.2 = Some None ->
  (forall a s', later s s' ->
     (forall p, inside (environment s) p -> p <> c ->
        Environment.get (environment s') p.1 p.2
        = Environment.get (environment s) p.1 p.2) ->
     Q a s') ->
  wp (_spawn_orc c) Q s.
Proof.
  intros Hs Hc Hempty HQ. pose proof (same_shape_refl s) as Hss.
  unfold _spawn_orc. apply wp_bind, wp_gets.
  apply wp_bind, wp_read_is_Some.
  { destruct c. apply biome_is_Some; [apply Hs | done]. }
  intros biome _. cbv zeta. apply wp_bind, wp_gets.
  do 3 ss_step Hss.
  pose proof (same_shape_Inv _ _ Hss Hs) as Hs3.
  pose proof (ss_environment _ _ Hss) as He.
  pose proof (ss_next_id _ _ Hss) as Hn.
  match goal with |- wp _ _ ?s3 => set (s' := s3) in * end.
  set (o := Orc.mk _ _ _ _ _ _ _ _ _ _).
  unfold new_orc. apply wp_bind. eexists _, _. split; [done|].
  apply wp_bind. eexists _, _. split; [done|]. simpl Orc.id.
  apply wp_bind.
  apply apply_kind_modifiers_ss.
  { simpl. rewrite lookup_insert_eq. by eexists. }
  intros s4 Hss4. rewrite <- Hn.
  eapply (birth_spec s' o s4 c); try done.
  - simpl. by rewrite He.
  - rewrite <- Hn in Hss4. exact Hss4.
  - by rewrite He.
  - by rewrite He.
  - intros s5 Hl5 _ _ Hother. apply wp_ret. apply HQ.
    + eapply later_trans; [|exact Hl5]. by apply same_shape_later.
    + intros p Hp Hne. rewrite <- He. apply Hother; [by rewrite He | done].
Qed.

Lemma fresh_Inv st g e :
  env_wf e -> Environment.width e = grid_width st ->
  Environment.height e = grid_height st ->
  0 < grid_width st -> 0 < grid_height st ->
  is_Some (Py.int_of_float
             (Py.float_of_int (grid_width st * grid_height st)
              * initial_orc_ratio st)) ->
  (forall x y, inside e (x, y) -> Environment.get e x y = Some None) ->
  Inv (mk st g e ∅ [] 0 1).
Proof.
  intros He Hw Hh Hwp Hhp Ht Hnone. split; simpl; try done.
  - intros x y r Hxy Hget. rewrite Hnone in Hget by done. done.
  - intros r Hr. by apply elem_of_nil in Hr.
  - apply NoDup_nil_2.
Qed.

Lemma seed_initial_population_spec s :
  Inv s ->
  (forall x y, inside (environment s) (x, y) ->
               Environment.get (environment s) x y = Some None) ->
  wp _seed_initial_population
     (fun _ s' => Inv s' /\ settings s' = settings s /\ tick s' = tick s) s.
Proof.
  intros Hs Hnone. unfold _seed_initial_population.
  apply wp_bind, wp_gets. cbv zeta.
  apply wp_bind, wp_read_is_Some; [apply Hs|]. intros target _.
  apply wp_bind, wp_draw.
  set (sh := Random.shuffle _ _).
  assert (Hperm : sh.1 ≡ₚ all_coords (grid_width (settings s))
                            (grid_height (settings s))) by apply shuffle_perm.
  set (s1 := with_rng s sh.2).
  assert (Hl1 : later s s1).
  { apply same_shape_later; [done | apply same_shape_with_rng]. }
  set (I := fun (rest : list (Z * Z)) (s' : t) =>
    later s s' /\ NoDup rest /\
    forall c, c ∈ rest -> inside (environment s) c /\
              Environment.get (environment s') c.1 c.2 = Some None).
  eapply wp_mono.
  { apply (wp_for_each_rest I).
    - unfold I. split_and!; [done | |].
      + apply NoDup_slice_to. rewrite Hperm. apply NoDup_all_coords.
      + intros c Hc. apply elem_of_slice_to in Hc. rewrite Hperm in Hc.
        apply elem_of_all_coords in Hc.
        assert (Hin : inside (environment s) c).
        { unfold inside. by rewrite (inv_width _ Hs), (inv_height _ Hs). }
        split; [done|]. destruct c. by apply Hnone.
    - intros c rest s2 (Hl2 & Hnd & Hrest).
      apply NoDup_cons in Hnd as [Hc Hnd].
      destruct (Hrest c) as [Hcin Hcget]; [by left|].
      apply wp_bind. apply spawn_orc_spec.
      + apply Hl2.
      + by eapply later_inside.
      + done.
      + intros a s3 Hl3 Hother. apply wp_ret. unfold I. split_and!.
        * by eapply later_trans.
        * done.
        * intros c' Hc'. destruct (Hrest c') as [Hin' Hget']; [by right|].
          split; [done|]. rewrite Hother; [done | by eapply later_inside|].
          intros ->. done. }
  intros [] s2 ((Hs2 & _ & Hst & Ht) & _). done.
Qed.

(** A constructed engine satisfies the invariant. *)
Lemma init_Inv st rng_arg os_rng s :
  init st rng_arg os_rng = Some s -> Inv s /\ settings s = st /\ tick s = 0.
Proof.
  unfold init. set (g := match rng_arg with Some _ => _ | None => _ end).
  destruct (Environment.init (grid_width st) (grid_height st) g)
    as [[e g']|] eqn:He; [|done].
  destruct (env_init_positive _ _ _ _ _ He) as [Hw Hh].
  destruct (env_init_spec _ _ g Hw Hh) as (e' & g'' & He' & Hwf & Hew & Heh & Hnone).
  rewrite He in He'. injection He' as <- <-.
  destruct (_seed_initial_population (mk st g' e ∅ [] 0 1))
    as [[[] s']|] eqn:Hseed; [|done].
  intros [= ->].
  assert (Ht : is_Some (Py.int_of_float
             (Py.float_of_int (grid_width st * grid_height st)
              * initial_orc_ratio st))).
  { unfold _seed_initial_population, bind, gets, read in Hseed. simpl in Hseed.
    destruct (Py.int_of_float _); [done | discriminate]. }
  destruct (seed_initial_population_spec (mk st g' e ∅ [] 0 1))
    as ([] & s' & Hs' & Hinv & Hst & Htick).
  - by apply fresh_Inv.
  - done.
  - rewrite Hseed in Hs'. by injection Hs' as <-.
Qed.

(** [reset()] returns and re-establishes the invariant. *)
Lemma reset_spec s :
  Inv s ->
  wp reset (fun _ s' => Inv s' /\ settings s' = settings s /\ tick s' = 0) s.
Proof.
  intros Hs. unfold wp, reset.
  destruct (env_init_spec (grid_width (settings s)) (grid_height (settings s))
              (rng s) (inv_w_pos _ Hs) (inv_h_pos _ Hs))
    as (e & g' & -> & Hwf & Hew & Heh & Hnone).
  destruct (seed_initial_population_spec (mk (settings s) g' e ∅ [] 0 1))
    as ([] & s' & Hs' & Hinv & Hst & Htick).
  - apply fresh_Inv; try done; apply Hs.
  - done.
  - eexists tt, s'. split; [done|]. done.
Qed.

Lemma reachable_Inv s : reachable s -> Inv s.
Proof.
  induction 1 as [st rng_arg os_rng s Hinit | s s' _ IH Hstep | s s' _ IH Hreset].
  - by apply init_Inv in Hinit as [? _].
  - destruct (step_spec s IH) as ([] & s'' & Hs'' & Hinv & _).
    rewrite Hstep in Hs''. by injection Hs'' as <-.
  - destruct (reset_spec s IH) as ([] & s'' & Hs'' & Hinv & _).
    rewrite Hreset in Hs''. by injection Hs'' as <-.
Qed.
End Seeding.

(** ** The order of floats and the tertile cut *)

Section FloatOrder.
Lemma SFltb_irrefl (a : spec_float) : SFltb a a = false.
Proof.
  unfold SFltb, SFcompare. destruct a as [[]|[]| |[] m e]; try done;
    rewrite Z.compare_refl; fold (Pos.compare m m);
    by rewrite Pos.compare_refl.
Qed.

Lemma SFltb_trans (a b c : spec_float) :
  SFltb a b = true -> SFltb b c = true -> SFltb a c = true.
Proof.
  unfold SFltb, SFcompare.
  destruct a as [[]|[]| |[] ma ea], b as [[]|[]| |[] mb eb],
    c as [[]|[]| |[] mc ec]; try done.
  all: fold (Pos.compare ma mb); fold (Pos.compare mb mc);
       fold (Pos.compare ma mc).
  all: destruct (Z.compare_spec ea eb); try done;
       destruct (Z.compare_spec eb ec); try done;
       destruct (Z.compare_spec ea ec); try done; try lia; subst.
  all: destruct (Pos.compare_spec ma mb); try done;
       destruct (Pos.compare_spec mb mc); try done;
       destruct (Pos.compare_spec ma mc); try done; try lia.
Qed.

Lemma flt_irrefl (x : float) : ~ flt x x.
Proof. unfold flt. rewrite FloatAxioms.ltb_spec, SFltb_irrefl. done. Qed.

Lemma flt_trans (x y z : float) : flt x y -> flt y z -> flt x z.
Proof. unfold flt. rewrite !FloatAxioms.ltb_spec. apply SFltb_trans. Qed.

Lemma flt_asym (x y : float) : flt x y -> ~ flt y x.
Proof. intros Hxy Hyx. apply (flt_irrefl x). by eapply flt_trans. Qed.

(** In [x + (-y)] and [x - y] the same rounding of the same sum happens. *)
Lemma add_opp_sub (x y : float) : (x + (- y) = x - y)%float.
Proof.
  apply Prim2SF_inj. rewrite add_spec, sub_spec, opp_spec.
  destruct (Prim2SF x) as [sx|sx| |sx mx ex],
           (Prim2SF y) as [sy|sy| |sy my ey]; try reflexivity;
    unfold SF64add, SF64sub, SFadd, SFsub; simpl;
    repeat match goal with b : bool |- _ => destruct b end; reflexivity.
Qed.

Lemma SFeqb_leb (a b : spec_float) : SFeqb a b = true -> SFleb b a = true.
Proof.
  unfold SFeqb, SFleb, SFcompare.
  destruct a as [[]|[]| |[] ma ea], b as [[]|[]| |[] mb eb]; try done.
  all: fold (Pos.compare ma mb); fold (Pos.compare mb ma).
  all: destruct (Z.compare_spec ea eb); try done; subst;
       rewrite Z.compare_refl;
       destruct (Pos.compare_spec ma mb); try done; subst;
       by rewrite Pos.compare_refl.
Qed.

Lemma eqb_leb (x y : float) : (x =? y)%float = true -> (y <=? x)%float = true.
Proof. rewrite FloatAxioms.eqb_spec, FloatAxioms.leb_spec. apply SFeqb_leb. Qed.
End FloatOrder.

Section Tertiles.
Lemma apart_sym (x y : float) : apart x y -> apart y x.
Proof. unfold apart. tauto. Qed.

Lemma Distinct_perm (l l' : list float) : l ≡ₚ l' -> Distinct l -> Distinct l'.
Proof.
  induction 1 as [|x l l' Hp IH|x y l|l1 l2 l3 _ IH1 _ IH2]; simpl.
  - done.
  - intros [Hx Hl]. split; [by rewrite <- Hp | by apply IH].
  - intros [Hy [Hx Hl]]. apply Forall_cons in Hy as [Hyx Hy].
    split_and!; [|done..]. apply Forall_cons. split; [by apply apart_sym | done].
  - auto.
Qed.

Lemma pairwise_distinct_Distinct (l : list float) :
  pairwise_distinct l = true -> Distinct l.
Proof.
  induction l as [|x l IH]; simpl; [done|].
  rewrite andb_true_iff, forallb_forall. intros [Hx Hl].
  split; [|by apply IH]. apply Forall_forall. intros y Hy.
  apply list_elem_of_In, Hx in Hy. apply orb_true_iff in Hy. exact Hy.
Qed.

(** Sorting a list of distinct values gives a strictly ascending list. *)
Lemma insert_sorted_ascending (x : float) (l : list float) :
  StronglySorted flt l -> Forall (apart x) l ->
  StronglySorted flt (Py.insert_sorted PrimFloat.ltb x l).
Proof.
  induction l as [|y l IH]; intros Hs Hx; simpl.
  - constructor; [constructor | constructor].
  - apply StronglySorted_inv in Hs as [Hs Hy].
    apply Forall_cons in Hx as [Hxy Hx].
    destruct (y <? x)%float eqn:Hyx.
    + constructor; [by apply IH|].
      eapply Forall_forall. intros z Hz.
      rewrite (insert_sorted_perm PrimFloat.ltb x l) in Hz.
      apply elem_of_cons in Hz as [->|Hz]; [done|].
      by eapply (proj1 (Forall_forall _ _) Hy).
    + assert (Hlt : flt x y).
      { destruct Hxy as [|Hc]; [done|]. unfold flt in Hc. congruence. }
      constructor; [by constructor|].
      apply Forall_cons. split; [done|].
      eapply Forall_impl; [exact Hy|]. intros z Hz. by eapply flt_trans.
Qed.

Lemma sorted_ascending (l : list float) :
  Distinct l -> StronglySorted flt (Py.sorted PrimFloat.ltb l).
Proof.
  unfold Py.sorted. induction l as [|x l IH]; simpl; [constructor|].
  intros [Hx Hl]. apply insert_sorted_ascending; [by apply IH|].
  fold (Py.sorted PrimFloat.ltb l). by rewrite sorted_perm.
Qed.

Lemma filter_none {A} (P : A -> Prop) `{forall x, Decision (P x)} (l : list A) :
  Forall (fun z => ~ P z) l -> filter P l = [].
Proof.
  induction 1 as [|x l Hx _ IH]; [done|].
  by rewrite filter_cons, decide_False.
Qed.

(** In an ascending list, exactly the [k] values before index [k] are
    below the value at index [k]. *)
Lemma below_ascending (l : list float) (k : nat) (t : float) :
  StronglySorted flt l -> l !! k = Some t -> below t l = k.
Proof.
  unfold below. revert k. induction l as [|x l IH]; intros k Hs Hk; [done|].
  apply StronglySorted_inv in Hs as [Hs Hx]. rewrite filter_cons.
  destruct k as [|k]; simpl in Hk.
  - injection Hk as ->. rewrite decide_False by apply flt_irrefl.
    rewrite filter_none; [done|]. eapply Forall_impl; [exact Hx|].
    intros z Hz. by apply flt_asym.
  - assert (Hxt : flt x t).
    { eapply (proj1 (Forall_forall _ _) Hx). by eapply list_elem_of_lookup_2. }
    rewrite decide_True by done. simpl. f_equal. by apply IH.
Qed.

Lemma below_perm (t : float) (l l' : list float) :
  l ≡ₚ l' -> below t l = below t l'.
Proof. intros Hp. unfold below. by rewrite Hp. Qed.

Lemma biome_class_cases (t1 t2 v : float) :
  (flt v t1 /\ Environment.biome_class t1 t2 v = 0) \/
  (~ flt v t1 /\ flt v t2 /\ Environment.biome_class t1 t2 v = 1) \/
  (~ flt v t1 /\ ~ flt v t2 /\ Environment.biome_class t1 t2 v = 2).
Proof.
  unfold Environment.biome_class, flt.
  destruct (v <? t1)%float; [by left|].
  destruct (v <? t2)%float; [right; left | right; right]; by split_and!.
Qed.

(** The three class sizes in terms of the values below the two cuts. *)
Lemma class_counts (t1 t2 : float) (flat : list float) :
  (forall v, v ∈ flat -> flt v t1 -> flt v t2) ->
  let cs := Environment.biome_class t1 t2 <$> flat in
  count_class 0 cs = below t1 flat /\
  (count_class 0 cs + count_class 1 cs = below t2 flat)%nat /\
  (count_class 0 cs + count_class 1 cs + count_class 2 cs = length flat)%nat.
Proof.
  unfold count_class, below. induction flat as [|v flat IH]; intros Himp; [done|].
  cbn zeta in *. rewrite fmap_cons, !filter_cons.
  destruct IH as (IH0 & IH1 & IH2).
  { intros w Hw. apply Himp. by right. }
  specialize (Himp v (list_elem_of_here _ _)).
  destruct (biome_class_cases t1 t2 v)
    as [(Ha & Hc)|[(Ha & Hb & Hc)|(Ha & Hb & Hc)]]; rewrite Hc;
    repeat case_decide; try done; try (exfalso; auto; fail); simpl; lia.
Qed.

Lemma concat_classes (t1 t2 : float) (noise : list (list float)) :
  concat ((fun row : list float => Environment.biome_class t1 t2 <$> row) <$> noise)
  = Environment.biome_class t1 t2 <$> concat noise.
Proof.
  induction noise as [|row noise IH]; [done|].
  rewrite fmap_cons. cbn [concat]. by rewrite fmap_app, IH.
Qed.

(** The cut of a layer of distinct values: two classes of a third each
    (rounded down) and the rest in class 2. *)
Lemma classify_sizes (noise : list (list float)) (b : list (list Z)) :
  Environment.classify noise = Some b ->
  pairwise_distinct (concat noise) = true ->
  let n := length (concat noise) in
  class_size 0 b = (n / 3)%nat /\ class_size 1 b = (n / 3)%nat /\
  class_size 2 b = (n - 2 * (n / 3))%nat /\ length (concat b) = n.
Proof.
  intros Hc Hd. apply pairwise_distinct_Distinct in Hd.
  unfold Environment.classify in Hc.
  set (flat := concat noise) in *. set (sv := Py.sorted PrimFloat.ltb flat) in *.
  assert (Hperm : sv ≡ₚ flat) by apply sorted_perm.
  assert (Hlen : length sv = length flat) by by apply Permutation_length.
  assert (Hasc : StronglySorted flt sv) by by apply sorted_ascending.
  destruct (Py.index sv (Z.of_nat (length sv) / 3)) as [t1|] eqn:H1; [|done].
  destruct (Py.index sv (2 * (Z.of_nat (length sv) / 3))) as [t2|] eqn:H2; [|done].
  injection Hc as <-. cbn zeta.
  assert (Hthird : Z.of_nat (length sv) / 3 = Z.of_nat (length flat / 3)).
  { rewrite Hlen. by rewrite Nat2Z.inj_div. }
  assert (Hpos : (0 < length flat)%nat).
  { destruct sv as [|? ?] eqn:Hsv; [|rewrite <- Hlen; simpl; lia].
    unfold Py.index in H1. simpl in H1. done. }
  assert (Hk : (length flat / 3 < length flat)%nat).
  { apply Nat.div_lt; lia. }
  assert (H2k : (2 * (length flat / 3) < length flat)%nat).
  { pose proof (Nat.div_mod_eq (length flat) 3).
    pose proof (Nat.mod_upper_bound (length flat) 3). lia. }
  rewrite Hthird in H1, H2.
  rewrite index_in_range in H1 by lia. rewrite index_in_range in H2 by lia.
  rewrite Nat2Z.id in H1.
  replace (Z.to_nat (2 * Z.of_nat (length flat / 3)))
    with (2 * (length flat / 3))%nat in H2 by lia.
  pose proof (below_ascending sv _ t1 Hasc H1) as Hb1.
  pose proof (below_ascending sv _ t2 Hasc H2) as Hb2.
  rewrite (below_perm t1 sv flat Hperm) in Hb1.
  rewrite (below_perm t2 sv flat Hperm) in Hb2.
  assert (Himp : forall v, v ∈ flat -> flt v t1 -> flt v t2).
  { intros v _ Hv. destruct (decide (length flat / 3 = 0)%nat) as [Hz|Hnz].
    - rewrite Hz in H1, H2. simpl in H2. congruence.
    - eapply flt_trans; [exact Hv|].
      assert (Hlt : (length flat / 3 < 2 * (length flat / 3))%nat) by lia.
      clear -Hasc H1 H2 Hlt. revert H1 H2 Hlt.
      generalize (length flat / 3)%nat (2 * (length flat / 3))%nat.
      induction Hasc as [|x l Hs IH Hx]; intros i j Hi Hj Hij; [done|].
      destruct j as [|j]; [lia|]. destruct i as [|i]; simpl in *.
      + injection Hi as ->. eapply (proj1 (Forall_forall _ _) Hx).
        by eapply list_elem_of_lookup_2.
      + eapply IH; [done.. | lia]. }
  destruct (class_counts t1 t2 flat Himp) as (C0 & C1 & C2).
  unfold class_size. rewrite concat_classes.
  rewrite length_fmap. fold flat. lia.
Qed.
End Tertiles.

(** ** Reading off a run that returned *)

Section Inversion.
Context {R : PyRandom} {L : Libm}.
Import Simulation.
Implicit Types (s : t).

Lemma bind_Some {A B} (m : M A) (k : A -> M B) s b s' :
  bind m k s = Some (b, s') ->
  exists a s1, m s = Some (a, s1) /\ k a s1 = Some (b, s').
Proof.
  unfold bind. destruct (m s) as [[a s1]|]; [|done]. intros H. by exists a, s1.
Qed.

Lemma ret_Some {A} (a b : A) s s' : ret a s = Some (b, s') -> b = a /\ s' = s.
Proof. by intros [= -> ->]. Qed.

Lemma gets_Some {A} (f : t -> A) s a s' :
  gets f s = Some (a, s') -> a = f s /\ s' = s.
Proof. by intros [= <- <-]. Qed.

Lemma read_Some {A} (f : t -> option A) s a s' :
  read f s = Some (a, s') -> f s = Some a /\ s' = s.
Proof. unfold read. destruct (f s); [|done]. by intros [= <- <-]. Qed.

Lemma deref_Some r s o s' :
  deref r s = Some (o, s') -> objs s !! r = Some o /\ s' = s.
Proof. apply (read_Some (fun s => objs s !! r)). Qed.

Lemma draw_Some {A} (f : rng_state -> A * rng_state) s a s' :
  draw f s = Some (a, s') -> a = (f (rng s)).1 /\ s' = with_rng s (f (rng s)).2.
Proof. unfold draw. destruct (f (rng s)). by intros [= <- <-]. Qed.

Lemma draw_opt_Some {A} (f : rng_state -> option (A * rng_state)) s a s' :
  draw_opt f s = Some (a, s') ->
  exists g, f (rng s) = Some (a, g) /\ s' = with_rng s g.
Proof.
  unfold draw_opt. destruct (f (rng s)) as [[a' g]|]; [|done].
  intros [= <- <-]. by exists g.
Qed.

Lemma update_orc_Some r f s u s' :
  update_orc r f s = Some (u, s') ->
  exists o, objs s !! r = Some o /\ s' = with_objs s (<[r := f o]> (objs s)).
Proof.
  unfold update_orc. destruct (objs s !! r) as [o|]; [|done].
  intros [= <-]. by exists o.
Qed.

Lemma place_Some r dest s u s' :
  place r dest s = Some (u, s') ->
  exists o g',
    objs s !! r = Some o /\
    Py.setitem2 (Environment._grid (environment s)) dest.1 dest.2 (Some r) = Some g' /\
    s' = with_world s (<[r := Orc.with_position o dest]> (objs s))
                      (Environment.with_grid (environment s) g').
Proof.
  unfold place, Environment.place. destruct dest as [x y]. simpl.
  destruct (Environment.in_bounds (environment s) x y); [|done]. simpl.
  destruct (Environment.get (environment s) x y) as [[?|]|]; try done.
  destruct (Py.setitem2 _ x y (Some r)) as [g'|]; [|done].
  destruct (objs s !! r) as [o|]; [|done].
  intros [= <-]. by exists o, g'.
Qed.
End Inversion.

(** Take the next statement off a run [H : (bind m k) s = Some (b, s')]:
    [a] names its result and [H1] what is known of it. *)
Ltac run_step_as H a H1 :=
  let s1 := fresh "s" in
  apply bind_Some in H as (a & s1 & H1 & H);
  first
    [ apply gets_Some in H1 as [H1 ->]
    | apply deref_Some in H1 as [H1 ->]
    | apply read_Some in H1 as [H1 ->]
    | apply draw_Some in H1 as [H1 ->]
    | idtac ].
Tactic Notation "run_step" hyp(H) "as" ident(a) ident(H1) := run_step_as H a H1.

(** A branch that returns [false] is not the run [H] that returned [true]. *)
Ltac run_if H :=
  match type of H with
  | (if ?c then _ else _) _ = _ =>
      let E := fresh "Hcond" in
      destruct c eqn:E; [by apply ret_Some in H as [? _]|]
  end.

(** * Properties of the engine *)

Section Properties.
Context {R : PyRandom} {L : Libm}.
Import Simulation.
Implicit Types (s : Simulation.t).

Lemma step_total s : Inv s -> exists s', step s = Some (tt, s') /\ Inv s'.
Proof.
  intros Hs. destruct (step_spec s Hs) as ([] & s' & Hrun & Hs' & _). eauto.
Qed.

Lemma reset_total s : Inv s -> exists s', reset s = Some (tt, s') /\ Inv s'.
Proof.
  intros Hs. destruct (reset_spec s Hs) as ([] & s' & Hrun & Hs' & _). eauto.
Qed.

Lemma run_total n s : Inv s -> is_Some (run n s).
Proof.
  revert s. induction n as [|n IH]; intros s Hs; simpl; [done|].
  destruct (step_total s Hs) as (s1 & -> & Hs1).
  destruct (IH s1 Hs1) as [[tr s2] ->]. done.
Qed.



(** C3, as the code has it: [reset()] is the construction from the same
    settings with the engine's current generator passed in, so the stream
    goes on from where it is and is not taken back to the seed; from a
    state of the invariant it returns, with the settings kept, the tick
    at 0 and the grid and the population consistent. *)
Theorem reset_continues_stream s os :
  reset s = option_map (pair tt) (init (settings s) (Some (rng s)) os) /\
  (Inv s ->
   exists s', reset s = Some (tt, s') /\ settings s' = settings s /\
              tick s' = 0 /\ consistent s').
Proof.
  split.
  - unfold reset, init.
    destruct (Environment.init _ _ _) as [[e g']|]; [|done].
    by destruct (_seed_initial_population _) as [[[] s']|].
  - intros Hs. destruct (reset_spec s Hs) as ([] & s' & Hrun & Hs' & Hst & Ht).
    exists s'. split_and!; try done. by apply Inv_consistent.
Qed.

(** C4: the cull of one agent.  With the population at or under the cap
    (or no positive cap) nothing is drawn and nothing is removed; with the
    population over a positive cap one uniform draw [u] is made and the
    agent is removed exactly when [u] is below
    [min(0.75, overpop_base + overload * overpop_scale)], with
    [overload = (population - cap) / cap]. *)
Theorem overpop_cull s orc o :
  Inv s -> objs s !! orc = Some o ->
  let st := settings s in
  let current := Z.of_nat (length (population s)) in
  let cap := max_population st in
  (current <= cap \/ cap <= 0 -> _overpop_kill_check orc s = Some (false, s)) /\
  (0 < cap < current ->
   exists overload s',
     Py.truediv (current - cap) cap = Some overload /\
     let chance := Py.min 0.75 (overpop_base st + overload * overpop_scale st) in
     let u := (rng_random (rng s)).1 in
     _overpop_kill_check orc s = Some ((u <? chance)%float, s') /\
     if (u <? chance)%float then (orc ∉ population s') /\ Inv s'
     else s' = with_rng s (rng_random (rng s)).2).
Proof.
  intros Hs Ho st current cap. split.
  - intros Hle. unfold _overpop_kill_check, bind, gets, ret.
    fold st cap. unfold current in Hle.
    destruct (Z.leb_spec cap 0); [done|].
    destruct (Z.leb_spec (Z.of_nat (length (population s))) cap); [done|lia].
  - intros [Hcap Hover]. unfold _overpop_kill_check, bind, gets, read, draw, ret.
    fold st cap. unfold current in *.
    destruct (Z.leb_spec cap 0); [lia|].
    destruct (Z.leb_spec (Z.of_nat (length (population s))) cap); [lia|].
    unfold overpop_chance, Py.truediv. fold cap.
    destruct (Z.eqb_spec cap 0); [lia|].
    destruct (rng_random (rng s)) as [u g] eqn:Hu. cbn [fst snd].
    set (chance := Py.min _ _).
    destruct (u <? chance)%float eqn:Hlt.
    + assert (Hs1 : Inv (with_rng s g)).
      { eapply same_shape_Inv; [apply same_shape_with_rng|done]. }
      destruct (remove_orc_full (with_rng s g) orc o
                  (fun _ s' => (orc ∉ population s') /\ Inv s') Hs1 Ho)
        as ([] & s' & -> & Hnin & Hs').
      { intros s' Hl Hp _ _ _. split; [|by apply later_Inv in Hl].
        rewrite Hp. intros Hin. by apply list_elem_of_filter in Hin as [? _]. }
      eexists _, s'. split; [reflexivity|]. fold chance. by rewrite Hlt.
    + eexists _, _. split; [reflexivity|]. fold chance. by rewrite Hlt.
Qed.

(** C5, as the code has it: the neutral pair is decided by
    [(biome + 1) mod 3], whatever the configured number of classes; with
    three classes this is the cycle over the classes. *)
Theorem biome_effect_cycle st kind biome :
  (biome = kind -> _biome_effect st kind biome = (biome_bonus st, 0.0%float)) /\
  (biome <> kind -> (biome + 1) mod 3 = kind ->
   _biome_effect st kind biome = (0.0%float, 0.0%float)) /\
  (biome <> kind -> (biome + 1) mod 3 <> kind ->
   _biome_effect st kind biome = (0.0%float, biome_penalty st)) /\
  (classes st = 3 ->
   _biome_effect st kind biome = biome_effect_by_classes st kind biome).
Proof.
  unfold _biome_effect, biome_effect_by_classes. split_and!.
  - intros ->. by rewrite Z.eqb_refl.
  - intros Hne Hm. destruct (Z.eqb_spec biome kind); [done|].
    by destruct (Z.eqb_spec ((biome + 1) mod 3) kind).
  - intros Hne Hm. destruct (Z.eqb_spec biome kind); [done|].
    by destruct (Z.eqb_spec ((biome + 1) mod 3) kind).
  - by intros ->.
Qed.


(** C7, as the code has it: the pressure step also applies the effect of
    the biome on the agent's kind, so the energy after the decay and the
    pressure is [18.0 - 0.32 - (0.45 - 0.3) * humidity_penalty] only when
    that effect is nothing (neutral biome, or a bonus or penalty of zero);
    otherwise the biome bonus is added to it or the biome penalty taken
    from it. *)
Theorem decay_then_pressure_energy s r o x y biome :
  objs s !! r = Some o -> Orc.position o = (x, y) ->
  Orc.energy o = 18.0%float -> energy_decay (settings s) = 0.32%float ->
  Environment.humidity_at (environment s) x y = Some 0.3%float ->
  Environment.biome_at (environment s) x y = Some biome ->
  exists s' o',
    decay_then_pressure r s = Some (tt, s') /\ objs s' !! r = Some o' /\
    Orc.energy o' =
      (let e := 18.0 - 0.32 - (0.45 - 0.3) * humidity_penalty (settings s) in
       if (biome =? Orc.kind o)%Z then
         if Py.truthy (biome_bonus (settings s))
         then e + biome_bonus (settings s) else e
       else if ((biome + 1) mod 3 =? Orc.kind o)%Z then e
       else if Py.truthy (biome_penalty (settings s))
            then e - biome_penalty (settings s) else e)%float.
Proof.
  intros Ho Hpos He Hdecay Hhum Hbio.
  set (e := (18.0 - 0.32 - (0.45 - 0.3) * humidity_penalty (settings s))%float).
  cut (wp (decay_then_pressure r) (fun _ s' => exists o',
         objs s' !! r = Some o' /\
         Orc.energy o' =
           (if (biome =? Orc.kind o)%Z then
              if Py.truthy (biome_bonus (settings s))
              then e + biome_bonus (settings s) else e
            else if ((biome + 1) mod 3 =? Orc.kind o)%Z then e
            else if Py.truthy (biome_penalty (settings s))
                 then e - biome_penalty (settings s) else e)%float) s).
  { intros ([] & s' & Hrun & o' & Ho' & He'). by exists s', o'. }
  set (st := settings s).
  set (o1 := Orc.tick 0.32 o).
  set (o2 := Orc.adjust_energy (- ((0.45 - 0.3) * humidity_penalty st)) o1).
  assert (He2 : Orc.energy o2 = e).
  { unfold o2, o1, e, Orc.adjust_energy, Orc.tick. cbn. rewrite He.
    apply add_opp_sub. }
  assert (Hk2 : Orc.kind o2 = Orc.kind o) by done.
  assert (Hp1 : Orc.position o1 = (x, y)) by done.
  unfold decay_then_pressure. apply wp_bind, wp_gets. rewrite Hdecay.
  apply wp_bind. eapply wp_update_orc; [done|]. fold o1.
  set (s1 := with_objs s _).
  assert (Ho1 : objs s1 !! r = Some o1) by apply lookup_insert_eq.
  unfold _apply_environment_pressure. apply wp_bind, wp_gets.
  change (settings s1) with st.
  apply wp_bind. eapply wp_deref; [done|]. rewrite Hp1.
  apply wp_bind. eapply wp_read; [exact Hhum|].
  change (0.3 <? 0.45)%float with true. cbv iota.
  apply wp_bind. eapply wp_update_orc; [done|]. fold o2.
  set (s2 := with_objs s1 _).
  assert (Ho2 : objs s2 !! r = Some o2) by apply lookup_insert_eq.
  apply wp_bind. eapply wp_read; [exact Hbio|].
  change (Orc.kind o1) with (Orc.kind o).
  unfold _biome_effect.
  destruct (biome =? Orc.kind o); [|destruct ((biome + 1) mod 3 =? Orc.kind o)].
  - change (Py.truthy 0) with false. cbv iota.
    destruct (Py.truthy (biome_bonus st)).
    + apply wp_bind. eapply wp_update_orc; [done|]. apply wp_ret.
      eexists. split; [apply lookup_insert_eq|]. by rewrite <- He2.
    + apply wp_bind, wp_ret, wp_ret. by exists o2.
  - change (Py.truthy 0) with false. cbv iota.
    apply wp_bind, wp_ret, wp_ret. by exists o2.
  - change (Py.truthy 0) with false. cbv iota.
    apply wp_bind, wp_ret.
    destruct (Py.truthy (biome_penalty st)).
    + eapply wp_update_orc; [done|].
      eexists. split; [apply lookup_insert_eq|]. rewrite <- He2.
      apply add_opp_sub.
    + apply wp_ret. by exists o2.
Qed.

(** C8: when a reproduction attempt succeeds, the child is registered under
    the id that was next and the allocator moves on by one; its energy is
    the parent's energy times [reproduction_energy_share] clamped from
    below by 2.0 and from above by [base_energy]; the parent loses that
    same energy; the child has the parent's kind, age 0 and no
    infection. *)
Theorem reproduce_success s s' orc o :
  Inv s -> objs s !! orc = Some o ->
  _maybe_reproduce orc s = Some (true, s') ->
  exists child parent,
    objs s' !! _next_id s = Some child /\ objs s' !! orc = Some parent /\
    Orc.energy child =
      Py.max 2.0 (Py.min (base_energy (settings s))
                         (Orc.energy o * reproduction_energy_share (settings s))) /\
    Orc.energy parent = (Orc.energy o - Orc.energy child)%float /\
    Orc.kind child = Orc.kind o /\ Orc.age child = 0 /\
    Orc.infected child = false /\
    Orc.id child = _next_id s /\ _next_id s' = _next_id s + 1 /\
    objs s !! _next_id s = None /\ (_next_id s ∉ population s) /\
    _next_id s ∈ population s'.
Proof.
  intros Hs Ho H.
  destruct (inv_store _ Hs orc o Ho) as (_ & _ & Hlt).
  assert (Hnew : objs s !! _next_id s = None).
  { destruct (objs s !! _next_id s) as [o0|] eqn:Ho0; [|done].
    destruct (inv_store _ Hs _ o0 Ho0) as (_ & _ & Hlt0). lia. }
  assert (Hnewp : _next_id s ∉ population s).
  { intros Hin. destruct (inv_pop _ Hs _ Hin) as (o0 & Ho0 & _).
    by rewrite Hnew in Ho0. }
  unfold _maybe_reproduce in H.
  run_step H as st Hst. subst st.
  run_step H as o' Ho'. rewrite Ho in Ho'. injection Ho' as <-.
  run_step H as pop_kind Hpk. run_step H as n Hn. cbv zeta in H.
  run_if H. run_step H as u Hu. run_if H. run_step H as ally Hally. run_if H.
  run_step H as empties Hemp.
  destruct empties as [|e0 empties]; [by apply ret_Some in H as [? _]|].
  run_step H as dest Hdest. apply draw_opt_Some in Hdest as (g & Hch & ->).
  run_step H as nid Hnid. simpl in Hnid. subst nid.
  run_step H as c Hc.
  destruct (clone_shape o (mutation_rate (settings s)) (mutation_scale (settings s))
    (_next_id s) g) as (Hcid & Hcpos & Hckind & Hcage & Hcinf).
  simpl in Hc. rewrite <- Hc in Hcid, Hcpos, Hckind, Hcage, Hcinf. clear Hc.
  run_step H as child Hchild. unfold new_orc in Hchild. injection Hchild as <- <-.
  run_step H as u1 Hu1. injection Hu1 as <- <-.
  run_step H as u2 Hu2. apply update_orc_Some in Hu2 as (c1 & Hc1 & ->).
  simpl in Hc1. rewrite lookup_insert_eq in Hc1. injection Hc1 as <-.
  run_step H as c2 Hc2. simpl in Hc2. rewrite lookup_insert_eq in Hc2.
  injection Hc2 as <-.
  run_step H as u3 Hu3. unfold dict_set in Hu3. injection Hu3 as <- <-.
  run_step H as u4 Hu4. apply place_Some in Hu4 as (c3 & g' & Hc3 & Hg' & ->).
  simpl in Hc3. rewrite lookup_insert_eq in Hc3. injection Hc3 as <-.
  run_step H as u5 Hu5. apply update_orc_Some in Hu5 as (p & Hp & ->).
  apply ret_Some in H as [_ ->].
  simpl in Hp. rewrite Hcid in *.
  rewrite !lookup_insert_ne in Hp by lia. rewrite Ho in Hp. injection Hp as <-.
  eexists _, _. simpl. split_and!.
  - rewrite lookup_insert_ne by lia. apply lookup_insert_eq.
  - apply lookup_insert_eq.
  - done.
  - simpl. apply add_opp_sub.
  - done.
  - done.
  - done.
  - done.
  - done.
  - done.
  - done.
  - unfold inb. destruct (existsb _ _) eqn:Hin.
    + apply existsb_exists in Hin as (k & Hk & Heq). apply Z.eqb_eq in Heq as ->.
      by apply list_elem_of_In.
    + apply elem_of_app. right. by left.
Qed.

Lemma fight_scores_state c d s r s' :
  fight_scores c d s = Some (r, s') -> exists g, s' = with_rng s g.
Proof.
  unfold fight_scores. intros H.
  run_step H as st Hst. run_step H as sc Hsc. run_step H as sd Hsd.
  run_step H as oc Hoc. run_step H as jc Hjc. run_step H as od Hod.
  run_step H as jd Hjd. apply ret_Some in H as [_ ->]. by eexists.
Qed.


(** C9: two agents that both outlast the cost of engaging and whose scores
    are equal: the challenger is the winner.  Outside the skirmish margin
    the defender leaves the population and the grid, and the challenger
    gets the reward less the other half of the cost, 0.05 of strength and
    0.03 of resilience; it stays unless that leaves it without energy.
    Inside the margin both pay the skirmish cost and the challenger alone
    gets the share of the reward. *)
Theorem tie_goes_to_challenger s c d oc od cs ds s2 :
  Inv s -> objs s !! c = Some oc -> objs s !! d = Some od -> c <> d ->
  c ∈ population s -> d ∈ population s ->
  let st := settings s in
  let oc1 := Orc.adjust_energy (- fight_cost st * 0.5) oc in
  let od1 := Orc.adjust_energy (- fight_cost st * 0.5) od in
  let s1 := with_objs s (<[d := od1]> (<[c := oc1]> (objs s))) in
  (Orc.energy oc1 <=? 0)%float = false -> (Orc.energy od1 <=? 0)%float = false ->
  fight_scores c d s1 = Some ((cs, ds), s2) ->
  (cs =? ds)%float = true ->
  let skirmish := (abs (cs - ds) <? skirmish_threshold st)%float in
  (skirmish = false ->
   exists s' w, _resolve_fight c d s = Some (tt, s') /\
     (d ∉ population s') /\
     (forall x y, Environment.in_bounds (environment s') x y = true ->
                  Environment.get (environment s') x y <> Some (Some d)) /\
     objs s' !! c = Some w /\
     Orc.energy w = (Orc.energy oc1 + (fight_reward st - fight_cost st * 0.5))%float /\
     Orc.strength w = (Orc.strength oc + 0.05)%float /\
     Orc.resilience w = (Orc.resilience oc + 0.03)%float /\
     (c ∈ population s' <-> (Orc.energy w <=? 0)%float = false)) /\
  (skirmish = true ->
   exists s' w v, _resolve_fight c d s = Some (tt, s') /\
     objs s' !! c = Some w /\ objs s' !! d = Some v /\
     Orc.energy w = (Orc.energy oc1 + - fight_cost st * skirmish_cost_factor st
                     + fight_reward st * 0.4)%float /\
     Orc.energy v
       = (Orc.energy od1 + - fight_cost st * skirmish_cost_factor st)%float /\
     (c ∈ population s' <-> (Orc.energy w <=? 0)%float = false) /\
     (d ∈ population s' <-> (Orc.energy v <=? 0)%float = false)).
Proof.
  intros Hs Hc Hd Hne Hcl Hdl st oc1 od1 s1 Hec Hed Hfs Heq skirmish.
  destruct (inv_store _ Hs c oc Hc) as (Hidc & _).
  destruct (inv_store _ Hs d od Hd) as (Hidd & _).
  destruct (fight_scores_state _ _ _ _ _ Hfs) as [g ->].
  set (sc := with_objs s (<[c := oc1]> (objs s))).
  assert (Hd1 : objs sc !! d = Some od) by (simpl; by rewrite lookup_insert_ne).
  assert (Hss1 : same_shape s s1).
  { eapply same_shape_trans.
    - exact (same_shape_update s c oc (Orc.adjust_energy (- fight_cost st * 0.5))
               Hc eq_refl eq_refl eq_refl).
    - exact (same_shape_update sc d od (Orc.adjust_energy (- fight_cost st * 0.5))
               Hd1 eq_refl eq_refl eq_refl). }
  assert (Hs2 : Inv (with_rng s1 g)).
  { eapply same_shape_Inv; [|exact Hs]. eapply same_shape_trans; [done|].
    apply same_shape_with_rng. }
  assert (Ho2 : objs (with_rng s1 g) = <[d := od1]> (<[c := oc1]> (objs s))) by done.
  assert (Hp2 : population (with_rng s1 g) = population s) by done.
  assert (Eoc : Orc.adjust_energy (- fight_cost st * 0.5) oc = oc1) by done.
  assert (Eod : Orc.adjust_energy (- fight_cost st * 0.5) od = od1) by done.
  assert (Es1 : with_objs sc (<[d := od1]> (objs sc)) = s1) by done.
  assert (Esc : with_objs s (<[c := oc1]> (objs s)) = sc) by done.
  assert (Hc1 : objs sc !! c = Some oc1) by (simpl; apply lookup_insert_eq).
  assert (Hc2 : objs s1 !! c = Some oc1).
  { simpl. rewrite lookup_insert_ne by done. apply lookup_insert_eq. }
  assert (Hd2 : objs s1 !! d = Some od1) by (simpl; apply lookup_insert_eq).
  assert (Hst : settings s = st) by done.
  assert (Hstr : Orc.strength oc1 = Orc.strength oc) by done.
  assert (Hres : Orc.resilience oc1 = Orc.resilience oc) by done.
  assert (Hid1 : Orc.id oc1 = c) by done.
  assert (Hid2 : Orc.id od1 = d) by done.
  assert (Hsk : skirmish = (abs (cs - ds) <? skirmish_threshold st)%float) by done.
  clearbody s1 sc od1 oc1 st skirmish.
  cut (wp (_resolve_fight c d) (fun _ s' =>
    (skirmish = false -> exists w,
     (d ∉ population s') /\
     (forall x y, Environment.in_bounds (environment s') x y = true ->
                  Environment.get (environment s') x y <> Some (Some d)) /\
     objs s' !! c = Some w /\
     Orc.energy w = (Orc.energy oc1 + (fight_reward st - fight_cost st * 0.5))%float /\
     Orc.strength w = (Orc.strength oc + 0.05)%float /\
     Orc.resilience w = (Orc.resilience oc + 0.03)%float /\
     (c ∈ population s' <-> (Orc.energy w <=? 0)%float = false)) /\
    (skirmish = true -> exists w v,
     objs s' !! c = Some w /\ objs s' !! d = Some v /\
     Orc.energy w = (Orc.energy oc1 + - fight_cost st * skirmish_cost_factor st
                     + fight_reward st * 0.4)%float /\
     Orc.energy v
       = (Orc.energy od1 + - fight_cost st * skirmish_cost_factor st)%float /\
     (c ∈ population s' <-> (Orc.energy w <=? 0)%float = false) /\
     (d ∈ population s' <-> (Orc.energy v <=? 0)%float = false))) s).
  { intros ([] & s' & Hrun & Hdec & Hskir). split.
    - intros Hm. destruct (Hdec Hm) as (w & Hw). by exists s', w.
    - intros Hm. destruct (Hskir Hm) as (w & v & Hw). by exists s', w, v. }
  unfold _resolve_fight. apply wp_bind, wp_gets. rewrite Hst.
  apply wp_bind. eapply wp_deref; [done|].
  apply wp_bind. eapply wp_deref; [done|].
  apply wp_bind, wp_gets. rewrite Hidc, Hidd.
  rewrite (proj2 (inb_elem_of _ _) Hcl), (proj2 (inb_elem_of _ _) Hdl).
  cbn [negb orb].
  apply wp_bind. eapply wp_update_orc; [done|]. rewrite Eoc, Esc.
  apply wp_bind. eapply wp_update_orc; [done|]. rewrite Eod, Es1.
  apply wp_bind. eapply wp_deref; [done|]. rewrite Hec.
  apply wp_bind. eapply wp_deref; [done|]. rewrite Hed.
  apply wp_bind. exists (cs, ds), (with_rng s1 g). split; [exact Hfs|].
  cbv beta iota zeta. rewrite (eqb_leb _ _ Heq). rewrite <- Hsk.
  assert (Hc2' : objs (with_rng s1 g) !! c = Some oc1) by done.
  assert (Hd2' : objs (with_rng s1 g) !! d = Some od1) by done.
  set (s2 := with_rng s1 g) in *. clearbody s2.
  destruct skirmish.
  - (* the skirmish *)
    set (k := (- fight_cost st * skirmish_cost_factor st)%float).
    set (w1 := Orc.adjust_energy k oc1).
    set (v := Orc.adjust_energy k od1).
    set (w := Orc.adjust_energy (fight_reward st * 0.4) w1).
    apply wp_bind. eapply wp_update_orc; [done|]. fold w1.
    apply wp_bind. eapply wp_update_orc; [simpl; by rewrite lookup_insert_ne|].
    fold v.
    apply wp_bind. eapply wp_update_orc.
    { simpl. rewrite lookup_insert_ne by done. apply lookup_insert_eq. }
    fold w.
    set (s3 := with_objs _ _).
    assert (Hw3 : objs s3 !! c = Some w) by apply lookup_insert_eq.
    assert (Hv3 : objs s3 !! d = Some v).
    { unfold s3. simpl. rewrite lookup_insert_ne by done. apply lookup_insert_eq. }
    assert (Hp3 : population s3 = population s) by (by rewrite <- Hp2).
    assert (Hss3 : same_shape s2 s3).
    { eapply same_shape_trans; [|eapply same_shape_trans].
      - exact (same_shape_update s2 c oc1 (Orc.adjust_energy k) Hc2'
                 eq_refl eq_refl eq_refl).
      - eapply (same_shape_update _ d od1 (Orc.adjust_energy k)); try done.
        simpl. by rewrite lookup_insert_ne.
      - eapply (same_shape_update _ c w1 (Orc.adjust_energy (fight_reward st * 0.4)));
          try done.
        simpl. rewrite lookup_insert_ne by done. apply lookup_insert_eq. }
    pose proof (same_shape_Inv _ _ Hss3 Hs2) as Hs3.
    assert (Hwe : Orc.energy w = (Orc.energy oc1 + k + fight_reward st * 0.4)%float)
      by done.
    assert (Hve : Orc.energy v = (Orc.energy od1 + k)%float) by done.
    clearbody s3 w v.
    apply wp_bind. unfold remove_if_exhausted at 1.
    apply wp_bind. eapply wp_deref; [exact Hw3|].
    destruct (Orc.energy w <=? 0)%float eqn:Hwdead.
    + eapply (remove_orc_full _ c w); [done..|].
      intros s4 Hl4 Hp4 Hn4 Ho4 _.
      unfold remove_if_exhausted. apply wp_bind. eapply wp_deref; [by rewrite Ho4|].
      destruct (Orc.energy v <=? 0)%float eqn:Hvdead.
      * eapply (remove_orc_full _ d v); [by apply later_Inv in Hl4 | by rewrite Ho4 |].
        intros s5 Hl5 Hp5 Hn5 Ho5 _. split; [done|]. intros _.
        exists w, v. rewrite Ho5, Ho4, Hwdead, Hvdead. split_and!; try done.
        -- split; [|done]. rewrite Hp5, Hp4. intros Hin.
           apply list_elem_of_filter in Hin as [_ Hin].
           by apply list_elem_of_filter in Hin as [? _].
        -- split; [|done]. rewrite Hp5. intros Hin.
           by apply list_elem_of_filter in Hin as [? _].
      * apply wp_ret. split; [done|]. intros _.
        exists w, v. rewrite Ho4, Hwdead, Hvdead. split_and!; try done.
        -- split; [|done]. rewrite Hp4. intros Hin.
           by apply list_elem_of_filter in Hin as [? _].
        -- split; [done|]. intros _. rewrite Hp4, Hp3.
           apply list_elem_of_filter. split; [congruence|done].
    + apply wp_ret.
      unfold remove_if_exhausted. apply wp_bind. eapply wp_deref; [exact Hv3|].
      destruct (Orc.energy v <=? 0)%float eqn:Hvdead.
      * eapply (remove_orc_full _ d v); [done..|].
        intros s5 Hl5 Hp5 Hn5 Ho5 _. split; [done|]. intros _.
        exists w, v. rewrite Ho5, Hwdead, Hvdead. split_and!; try done.
        -- split; [done|]. intros _. rewrite Hp5, Hp3.
           apply list_elem_of_filter. split; [done|done].
        -- split; [|done]. rewrite Hp5. intros Hin.
           by apply list_elem_of_filter in Hin as [? _].
      * apply wp_ret. split; [done|]. intros _.
        exists w, v. rewrite Hwdead, Hvdead, Hp3. split_and!; done.
  - (* the decisive outcome *)
    apply wp_bind.
    eapply (remove_orc_full _ d od1); [done..|].
    intros s3 Hl3 Hp3 Hn3 Ho3 _.
    assert (Hc3 : objs s3 !! c = Some oc1) by (by rewrite Ho3).
    apply wp_bind. eapply wp_update_orc; [done|].
    apply wp_bind. eapply wp_update_orc; [simpl; apply lookup_insert_eq|].
    apply wp_bind. eapply wp_update_orc; [simpl; apply lookup_insert_eq|].
    set (w1 := Orc.adjust_energy (fight_reward st - fight_cost st * 0.5) oc1).
    set (w2 := Orc.with_traits w1 (Orc.strength w1 + 0.05) (Orc.agility w1)
                               (Orc.resilience w1)).
    set (w := Orc.with_traits w2 (Orc.strength w2) (Orc.agility w2)
                              (Orc.resilience w2 + 0.03)).
    set (s4 := with_objs _ _).
    assert (Es4 : s4 = with_objs s3 (<[c := w]> (objs s3))).
    { unfold s4, with_objs, with_world. cbn. by rewrite !insert_insert_eq. }
    rewrite Es4. clear s4 Es4. set (s4 := with_objs _ _).
    assert (Hw4 : objs s4 !! c = Some w) by apply lookup_insert_eq.
    assert (Hss4 : same_shape s3 s4)
      by exact (same_shape_update s3 c oc1 (fun _ => w) Hc3 eq_refl eq_refl eq_refl).
    pose proof (same_shape_Inv _ _ Hss4 (later_Inv _ _ Hl3)) as Hs4.
    assert (Hp4 : population s4 = filter (fun j => j <> d) (population s))
      by (by rewrite <- Hp2, <- Hp3).
    assert (Hwe : Orc.energy w
                  = (Orc.energy oc1 + (fight_reward st - fight_cost st * 0.5))%float)
      by done.
    assert (Hws : Orc.strength w = (Orc.strength oc + 0.05)%float)
      by (by rewrite <- Hstr).
    assert (Hwr : Orc.resilience w = (Orc.resilience oc + 0.03)%float)
      by (by rewrite <- Hres).
    assert (Hgone : forall s', Inv s' -> d ∉ population s' ->
              forall x y, Environment.in_bounds (environment s') x y = true ->
                          Environment.get (environment s') x y <> Some (Some d)).
    { intros s' Hs' Hnin x y Hb Hget. apply in_bounds_inside in Hb.
      by destruct (inv_grid _ Hs' x y d Hb Hget) as [Hin _]. }
    clearbody s4 w.
    unfold remove_if_exhausted. apply wp_bind. eapply wp_deref; [exact Hw4|].
    destruct (Orc.energy w <=? 0)%float eqn:Hdead.
    + eapply (remove_orc_full _ c w); [done..|].
      intros s5 Hl5 Hp5 Hn5 Ho5 _. split; [|done]. intros _.
      assert (Hd5 : d ∉ population s5).
      { rewrite Hp5, Hp4. intros Hin. apply list_elem_of_filter in Hin as [_ Hin].
        by apply list_elem_of_filter in Hin as [? _]. }
      exists w. rewrite Ho5, Hdead. split_and!; try done.
      * apply Hgone; [by apply later_Inv in Hl5|done].
      * split; [|done]. rewrite Hp5. intros Hin.
        by apply list_elem_of_filter in Hin as [? _].
    + apply wp_ret. split; [|done]. intros _.
      assert (Hd4 : d ∉ population s4).
      { rewrite Hp4. intros Hin. by apply list_elem_of_filter in Hin as [? _]. }
      exists w. rewrite Hdead. split_and!; try done.
      * by apply Hgone.
      * split; [done|]. intros _. rewrite Hp4. by apply list_elem_of_filter.
Qed.

(** C10: with no agent in the population [metrics()] returns, whatever the
    rest of the engine is: the tick, a population of 0 and the three
    averages at 0.0. *)
Theorem metrics_empty s :
  population s = [] ->
  metrics s = Some (SimulationMetrics.mk (tick s) 0 0.0 0.0 0.0).
Proof. intros Hp. unfold metrics. by rewrite Hp. Qed.
End Properties.

(** ** The properties on the engines of the examples *)



(** C3: the engine of the example, reset right after its construction, is
    not the engine that the construction from the same settings gives: the
    generator is further down its stream, and the biomes and the cells of
    the agents are others. *)
Theorem reset_differs_from_construction :
  Simulation.init (R := lcg_random) demo_settings None 0 = Some demo_engine /\
  Simulation.reset demo_engine = Some (tt, demo_reset) /\
  Simulation.settings demo_reset = demo_settings /\
  demo_reset <> demo_engine /\
  Simulation.rng demo_reset <> Simulation.rng demo_engine /\
  Environment._biome (Simulation.environment demo_reset)
    <> Environment._biome (Simulation.environment demo_engine) /\
  Environment._grid (Simulation.environment demo_reset)
    <> Environment._grid (Simulation.environment demo_engine).
Proof.
  split_and!; try reflexivity; discriminate.
Qed.

Lemma reset_continues_stream_witness :
  exists s', Simulation.reset demo_step = Some (tt, s') /\
             Simulation.settings s' = Simulation.settings demo_step /\
             Simulation.tick s' = 0 /\ consistent s'.
Proof.
  apply (proj2 (@reset_continues_stream lcg_random demo_step 0)).
  apply (@reachable_Inv lcg_random sqrt_libm).
  apply (reach_step demo_engine); [|reflexivity].
  apply (reach_init (R := lcg_random) demo_settings None 0). reflexivity.
Defined.

Lemma overpop_cull_witness :
  exists s', Simulation._overpop_kill_check 1 crowded_engine = Some (true, s') /\
             1 ∉ Simulation.population s'.
Proof.
  assert (Hs : Inv crowded_engine).
  { apply (init_Inv (R := lcg_random) crowded_settings None 0). reflexivity. }
  destruct (proj2 (@overpop_cull lcg_random crowded_engine 1 _ Hs eq_refl))
    as (overload & s' & Hov & Hrun & Hout).
  { simpl. lia. }
  injection Hov as <-. exists s'. split; [exact Hrun | exact (proj1 Hout)].
Defined.

(** C5: with two classes, kind 0 on biome 2 is neutral for the code, where
    the cycle over the classes has the penalty. *)
Theorem biome_effect_two_classes :
  let st := settings_with 4 3 0.5 2 400 0.12 0.9 (Some 42) in
  classes st = 2 /\ 0 <= 0 < classes st /\ 2 <> 0 /\ (2 + 1) mod classes st <> 0 /\
  biome_effect_by_classes st 0 2 = (0.0%float, biome_penalty st) /\
  Simulation._biome_effect st 0 2 = (0.0%float, 0.0%float) /\
  Simulation._biome_effect st 0 2 <> biome_effect_by_classes st 0 2.
Proof.
  cbv zeta. split_and!; try reflexivity; try done.
Qed.

Lemma biome_effect_cycle_witness :
  Simulation._biome_effect demo_settings 1 0 = (0.0%float, 0.0%float) /\
  Simulation._biome_effect demo_settings 2 0 = (0.0%float, biome_penalty demo_settings) /\
  Simulation._biome_effect demo_settings 2 0 = biome_effect_by_classes demo_settings 2 0.
Proof.
  pose proof (biome_effect_cycle demo_settings 1 0) as (_ & H1 & _).
  pose proof (biome_effect_cycle demo_settings 2 0) as (_ & _ & H2 & H3).
  split_and!.
  - apply H1; [lia | reflexivity].
  - apply H2; [lia | vm_compute; discriminate].
  - apply H3. reflexivity.
Defined.



(** C7: an agent of kind 0 with energy 18.0 on a cell of humidity 0.3 and
    biome 0: after the decay of 0.32 and the pressure its energy is not
    [18.0 - 0.32 - (0.45 - 0.3) * humidity_penalty], the biome bonus has
    been added. *)
Theorem pressure_adds_biome_bonus :
  let s := pressure_state 0 0 in
  exists o s' o',
    Simulation.objs s !! 1 = Some o /\ Orc.energy o = 18.0%float /\
    energy_decay (Simulation.settings s) = 0.32%float /\
    Environment.humidity_at (Simulation.environment s)
      (Orc.position o).1 (Orc.position o).2 = Some 0.3%float /\
    decay_then_pressure 1 s = Some (tt, s') /\
    Simulation.objs s' !! 1 = Some o' /\
    Orc.energy o' <>
      (18.0 - 0.32 - (0.45 - 0.3) * humidity_penalty (Simulation.settings s))%float.
Proof.
  cbv zeta. eexists _, _, _. split_and!; try (vm_compute; reflexivity).
  intros H. apply (f_equal Prim2SF) in H. vm_compute in H. discriminate H.
Qed.

Lemma decay_then_pressure_energy_witness :
  exists s' o',
    decay_then_pressure 1 (pressure_state 1 0) = Some (tt, s') /\
    Simulation.objs s' !! 1 = Some o' /\
    Orc.energy o' =
      (18.0 - 0.32 - (0.45 - 0.3) * humidity_penalty DEFAULT_SETTINGS)%float.
Proof.
  exact (@decay_then_pressure_energy const_random (pressure_state 1 0) 1 _ 0 0 0
           eq_refl eq_refl eq_refl eq_refl eq_refl eq_refl).
Defined.

Lemma reproduce_success_witness :
  exists o child parent,
    Simulation.objs demo_engine !! 1 = Some o /\
    Simulation.objs demo_birth !! 7 = Some child /\
    Simulation.objs demo_birth !! 1 = Some parent /\
    Orc.energy child = 6.3%float /\
    Orc.energy parent = (Orc.energy o - Orc.energy child)%float /\
    Orc.kind child = Orc.kind o /\ Orc.id child = 7 /\
    Simulation._next_id demo_birth = 8.
Proof.
  assert (Hs : Inv demo_engine).
  { apply (init_Inv (R := lcg_random) demo_settings None 0). reflexivity. }
  destruct (@reproduce_success lcg_random demo_engine demo_birth 1 _ Hs eq_refl)
    as (child & parent & Hc & Hp & Hce & Hpe & Hk & _ & _ & Hid & Hn & _);
    [reflexivity|].
  eexists _, child, parent. split_and!; try done; try reflexivity.
Defined.

Lemma tie_goes_to_challenger_witness :
  exists s' w,
    Simulation._resolve_fight 1 2 fight_engine = Some (tt, s') /\
    (2 ∉ Simulation.population s') /\ 1 ∈ Simulation.population s' /\
    Simulation.objs s' !! 1 = Some w /\
    Orc.strength w = (1.0 + 0.05)%float.
Proof.
  assert (Hs : Inv fight_engine).
  { apply (init_Inv (R := const_random) fight_settings None tt). reflexivity. }
  epose proof (@tie_goes_to_challenger const_random fight_engine 1 2 _ _ 3.0 3.0 _
                 Hs eq_refl eq_refl) as H.
  destruct H as [H _];
    [lia | set_solver | set_solver | reflexivity | reflexivity
     | vm_compute; reflexivity | reflexivity |].
  destruct H as (s' & w & Hrun & Hout & _ & Hw & He & Hstr & _ & Hin);
    [reflexivity|].
  exists s', w. split_and!; try done.
  apply Hin. rewrite He. reflexivity.
Defined.

Lemma metrics_empty_witness :
  Simulation.init (R := lcg_random) empty_settings None 0 = Some empty_engine /\
  Simulation.metrics empty_engine = Some (SimulationMetrics.mk 0 0 0.0 0.0 0.0).
Proof.
  split; [reflexivity|]. apply (metrics_empty empty_engine). reflexivity.
Defined.

(** * Further properties of the code *)

(** ** The neighbourhood of a cell *)

Section GridOperations.
Implicit Types (e : Environment.t) (h : gmap Z Orc.t).

Lemma neighbors_cases e x y p :
  p ∈ Environment.neighbors e x y <->
  Environment.in_bounds e p.1 p.2 = true /\
  (p = (x + 1, y + 0) \/ p = (x + -1, y + 0) \/ p = (x + 0, y + 1) \/
   p = (x + 0, y + -1)).
Proof.
  unfold Environment.neighbors. rewrite list_elem_of_omap. split.
  - intros ([dx dy] & Hin & Hf).
    destruct (Environment.in_bounds e (x + dx) (y + dy)) eqn:Hb; [|done].
    injection Hf as <-. split; [done|].
    repeat (apply elem_of_cons in Hin as [Hin|Hin];
            [injection Hin as -> ->; tauto|]).
    by apply elem_of_nil in Hin.
  - intros (Hb & Hp).
    destruct Hp as [-> | [-> | [-> | ->]]]; simpl in Hb;
      [exists (1, 0) | exists (-1, 0) | exists (0, 1) | exists (0, -1)];
      (split; [set_solver | by rewrite Hb]).
Qed.

(** X1: [neighbors(x, y)] yields exactly the cells of the grid at distance 1
    of [(x, y)] along one axis, each once. *)
Theorem neighbors_adjacent_in_bounds e x y :
  (forall p, p ∈ Environment.neighbors e x y <->
     Environment.in_bounds e p.1 p.2 = true /\
     Z.abs (p.1 - x) + Z.abs (p.2 - y) = 1) /\
  NoDup (Environment.neighbors e x y) /\
  (length (Environment.neighbors e x y) <= 4)%nat.
Proof.
  split_and!.
  - intros [px py]. rewrite neighbors_cases. simpl. split.
    + intros (Hb & [H|[H|[H|H]]]); injection H as -> ->; split; (done || lia).
    + intros (Hb & Hd). split; [done|].
      assert (Hc : (px = x + 1 /\ py = y + 0) \/ (px = x + -1 /\ py = y + 0) \/
                   (px = x + 0 /\ py = y + 1) \/ (px = x + 0 /\ py = y + -1)) by lia.
      destruct Hc as [[-> ->] | [[-> ->] | [[-> ->] | [-> ->]]]]; tauto.
  - apply (sublist_NoDup _ [(x + 1, y + 0); (x + -1, y + 0); (x + 0, y + 1);
                            (x + 0, y + -1)]).
    + repeat (apply NoDup_cons; split); try apply NoDup_nil_2;
        rewrite ?elem_of_cons, ?elem_of_nil; intros Hd;
        repeat match goal with
               | H : _ \/ _ |- _ => destruct H as [H|H]
               end;
        try done; injection Hd; intros; lia.
    + unfold Environment.neighbors. simpl.
      repeat match goal with
             | |- context [if ?b then _ else _] => destruct b
             end;
        repeat first [apply sublist_nil | apply sublist_skip | apply sublist_cons].
  - unfold Environment.neighbors. simpl.
    repeat match goal with
           | |- context [if ?b then _ else _] => destruct b
           end; simpl; lia.
Qed.
End GridOperations.

(** ** Writing the grid *)

Section GridWrites.
Implicit Types (e : Environment.t) (h : gmap Z Orc.t).

Lemma filter_ext_in {A} (P1 P2 : A -> Prop)
    `{!forall x, Decision (P1 x), !forall x, Decision (P2 x)} (l : list A) :
  (forall x, x ∈ l -> P1 x <-> P2 x) -> filter P1 l = filter P2 l.
Proof.
  induction l as [|a l IH]; intros Hiff; [done|].
  rewrite !filter_cons, IH by (intros x Hx; apply Hiff; by right).
  apply decide_ext. apply Hiff. by left.
Qed.

Lemma filter_cells_acc (keep : option Z -> bool) e cs acc r :
  Py.foldM (fun (acc : list (Z * Z)) '((x, y) : Z * Z) =>
              let? c := Environment.get e x y in
              Some (if keep c then acc ++ [(x, y)] else acc)) acc cs = Some r ->
  r = acc ++ filter (fun p => from_option keep false (Environment.get e p.1 p.2)
                              = true) cs.
Proof.
  revert acc. induction cs as [|[x y] cs IH]; intros acc; simpl.
  - intros [= <-]. by rewrite app_nil_r.
  - destruct (Environment.get e x y) as [c|] eqn:Hc; [|done].
    intros Hr. apply IH in Hr as ->.
    destruct (keep c) eqn:Hk.
    + rewrite filter_cons_True by (simpl; by rewrite Hc).
      by rewrite <- app_assoc.
    + rewrite filter_cons_False; [done|]. simpl. rewrite Hc. simpl. congruence.
Qed.

(** X2: on a well-formed grid [empty_neighbors] and [occupied_neighbors]
    return, in the order of [neighbors], the neighbours whose cell is [None]
    and the ones whose cell holds an agent: every neighbour is in exactly
    one of the two lists. *)
Theorem neighbors_split e x y :
  env_wf e ->
  exists emp occ,
    Environment.empty_neighbors e x y = Some emp /\
    Environment.occupied_neighbors e x y = Some occ /\
    emp = filter (fun p => Environment.get e p.1 p.2 = Some None)
                 (Environment.neighbors e x y) /\
    occ = filter (fun p => Environment.get e p.1 p.2 <> Some None)
                 (Environment.neighbors e x y) /\
    emp ++ occ ≡ₚ Environment.neighbors e x y.
Proof.
  intros He.
  destruct (empty_neighbors_spec e x y He) as (emp & Hemp & _).
  destruct (occupied_neighbors_spec e x y He) as (occ & Hocc & _).
  exists emp, occ. split; [done|]. split; [done|].
  unfold Environment.empty_neighbors, Environment.occupied_neighbors,
    Environment.filter_cells in Hemp, Hocc.
  apply filter_cells_acc in Hemp, Hocc. simpl in Hemp, Hocc.
  assert (Hemp' : emp = filter (fun p => Environment.get e p.1 p.2 = Some None)
                          (Environment.neighbors e x y)).
  { rewrite Hemp. apply list_filter_iff. intros p.
    destruct (Environment.get e p.1 p.2) as [[r|]|]; cbn; split;
      (done || congruence). }
  assert (Hocc' : occ = filter (fun p => Environment.get e p.1 p.2 <> Some None)
                          (Environment.neighbors e x y)).
  { rewrite Hocc. apply filter_ext_in. intros p Hp.
    apply neighbors_inside in Hp. destruct p as [px py].
    destruct (get_is_Some e px py He Hp) as [c Hc]. simpl. rewrite Hc.
    destruct c; cbn; split; (done || congruence). }
  split; [done|]. split; [done|].
  rewrite Hemp', Hocc'. apply filter_app_complement.
Qed.

(** X3: [place] raises out of bounds and on an occupied cell; on an empty
    cell of the grid it writes the agent there and records the cell as the
    agent's position, and no other cell and no layer changes. *)
Theorem place_outcomes e h r o x y :
  env_wf e -> h !! r = Some o ->
  (Environment.in_bounds e x y = false -> Environment.place r x y h e = None) /\
  (forall r', Environment.in_bounds e x y = true ->
     Environment.get e x y = Some (Some r') ->
     Environment.place r x y h e = None) /\
  (Environment.in_bounds e x y = true ->
   Environment.get e x y = Some None ->
   exists g',
     Environment.place r x y h e
       = Some (<[r := Orc.with_position o (x, y)]> h, Environment.with_grid e g') /\
     env_wf (Environment.with_grid e g') /\
     forall px py, Environment.in_bounds e px py = true ->
       Environment.get (Environment.with_grid e g') px py
         = if decide ((px, py) = (x, y)) then Some (Some r)
           else Environment.get e px py).
Proof.
  intros He Hr. unfold Environment.place. split_and!.
  - by intros ->.
  - intros r' -> Hget. by rewrite Hget.
  - intros Hb Hget. rewrite Hb, Hget. simpl.
    apply in_bounds_inside in Hb.
    destruct (set_cell_spec e x y (Some r) He Hb) as (g' & -> & Hwf & Hcells).
    rewrite Hr. exists g'. split_and!; [done..|].
    intros px py Hp. apply Hcells. by apply in_bounds_inside.
Qed.

(** X4: [move] does nothing when the destination is out of bounds or
    occupied (the agent's own cell included); to an empty cell of the grid
    it clears the cell of the agent's position, writes the agent on the
    destination and records it as the position. *)
Theorem move_outcomes e h r o dx dy :
  env_wf e -> h !! r = Some o -> inside e (Orc.position o) ->
  (Environment.in_bounds e dx dy = false ->
   Environment.move r (dx, dy) h e = Some (h, e)) /\
  (forall r', Environment.get e dx dy = Some (Some r') ->
   Environment.move r (dx, dy) h e = Some (h, e)) /\
  (Environment.in_bounds e dx dy = true ->
   Environment.get e dx dy = Some None ->
   exists g',
     Environment.move r (dx, dy) h e
       = Some (<[r := Orc.with_position o (dx, dy)]> h, Environment.with_grid e g') /\
     env_wf (Environment.with_grid e g') /\
     forall px py, Environment.in_bounds e px py = true ->
       Environment.get (Environment.with_grid e g') px py
         = if decide ((px, py) = (dx, dy)) then Some (Some r)
           else if decide ((px, py) = Orc.position o) then Some None
           else Environment.get e px py).
Proof.
  intros He Hr Hpos. unfold Environment.move. split_and!.
  - by intros ->.
  - intros r' Hget. destruct (Environment.in_bounds e dx dy); [|done]. simpl.
    rewrite Hr. destruct (Orc.position o) as [sx sy]. by rewrite Hget.
  - intros Hb Hget. rewrite Hb. simpl. rewrite Hr.
    destruct (Orc.position o) as [sx sy] eqn:Ho. rewrite Hget.
    apply in_bounds_inside in Hb.
    destruct (set_cell_spec e sx sy None He Hpos) as (g1 & -> & Hwf1 & Hcells1).
    destruct (set_cell_spec (Environment.with_grid e g1) dx dy (Some r) Hwf1 Hb)
      as (g2 & Hg2 & Hwf2 & Hcells2).
    simpl in Hg2. rewrite Hg2. exists g2. split_and!; [done..|].
    intros px py Hp. apply in_bounds_inside in Hp.
    change (Environment.with_grid e g2)
      with (Environment.with_grid (Environment.with_grid e g1) g2).
    rewrite (Hcells2 px py Hp).
    destruct (decide ((px, py) = (dx, dy))); [done|]. by apply Hcells1.
Qed.

(** X5: [remove] clears the cell of the agent's position when that cell
    holds this agent, and changes nothing when it holds another agent or
    none. *)
Theorem remove_outcomes e h r o :
  env_wf e -> h !! r = Some o -> inside e (Orc.position o) ->
  let '(x, y) := Orc.position o in
  (Environment.get e x y = Some (Some r) ->
   exists g',
     Environment.remove r h e = Some (Environment.with_grid e g') /\
     env_wf (Environment.with_grid e g') /\
     forall px py, Environment.in_bounds e px py = true ->
       Environment.get (Environment.with_grid e g') px py
         = if decide ((px, py) = (x, y)) then Some None
           else Environment.get e px py) /\
  (Environment.get e x y <> Some (Some r) -> Environment.remove r h e = Some e).
Proof.
  intros He Hr Hpos. unfold Environment.remove. rewrite Hr.
  destruct (Orc.position o) as [x y]. split.
  - intros Hget. rewrite Hget. rewrite decide_True by done.
    destruct (set_cell_spec e x y None He Hpos) as (g' & -> & Hwf & Hcells).
    exists g'. split_and!; [done..|].
    intros px py Hp. apply Hcells. by apply in_bounds_inside.
  - intros Hget. destruct (get_is_Some e x y He Hpos) as [c Hc]. rewrite Hc.
    rewrite decide_False; [done|]. congruence.
Qed.

(** X6: placing an agent on an empty cell and removing it gives back every
    cell of the grid. *)
Theorem place_then_remove e h r o x y :
  env_wf e -> h !! r = Some o ->
  Environment.in_bounds e x y = true ->
  Environment.get e x y = Some None ->
  exists h1 e1 e2,
    Environment.place r x y h e = Some (h1, e1) /\
    Environment.remove r h1 e1 = Some e2 /\
    forall px py, Environment.in_bounds e px py = true ->
      Environment.get e2 px py = Environment.get e px py.
Proof.
  intros He Hr Hb Hget. unfold Environment.place, Environment.remove.
  rewrite Hb, Hget. simpl. apply in_bounds_inside in Hb.
  destruct (set_cell_spec e x y (Some r) He Hb) as (g1 & -> & Hwf1 & Hcells1).
  rewrite Hr.
  destruct (set_cell_spec (Environment.with_grid e g1) x y None Hwf1 Hb)
    as (g2 & Hg2 & Hwf2 & Hcells2).
  exists (<[r := Orc.with_position o (x, y)]> h), (Environment.with_grid e g1),
    (Environment.with_grid e g2).
  split; [done|]. rewrite lookup_insert_eq. simpl.
  rewrite (Hcells1 x y Hb), decide_True by done.
  rewrite decide_True by done.
  simpl in Hg2. rewrite Hg2. split; [done|].
  intros px py Hp. apply in_bounds_inside in Hp.
  change (Environment.with_grid e g2)
    with (Environment.with_grid (Environment.with_grid e g1) g2).
  rewrite (Hcells2 px py Hp).
  destruct (decide ((px, py) = (x, y))) as [[= -> ->]|Hne]; [done|].
  rewrite (Hcells1 px py Hp). by rewrite decide_False.
Qed.
End GridWrites.

(** ** The terrain *)

Section Terrain.
Context {R : PyRandom}.

Lemma ltb_leb (x y : float) : (x <? y)%float = true -> (x <=? y)%float = true.
Proof.
  rewrite FloatAxioms.ltb_spec, FloatAxioms.leb_spec. unfold SFltb, SFleb.
  by destruct (SFcompare _ _) as [[]|].
Qed.

Lemma clamp01_unit (v : float) : in_unit (Environment.clamp01 v).
Proof.
  unfold in_unit, Environment.clamp01, Py.max, Py.min.
  destruct (v <? 1)%float eqn:H1.
  - destruct (0 <? v)%float eqn:H0; [by split; apply ltb_leb|done].
  - done.
Qed.

Lemma generate_layer_unit (w h : Z) (bias variation pull : float)
    (passes : Z) (g : rng_state) :
  exists layer g',
    Environment._generate_layer w h bias variation pull passes g
      = Some (layer, g') /\ rect w h layer /\
    Forall (Forall in_unit) layer.
Proof.
  destruct (generate_layer_spec w h bias variation pull passes g)
    as (layer & g' & Hrun & Hrect).
  exists layer, g'. split_and!; [done..|].
  unfold Environment._generate_layer in Hrun.
  destruct (Environment.collect _ _ _) as [[l0 g0]|]; [|done].
  destruct (Py.foldM _ _ _) as [sm|]; [|done].
  injection Hrun as <- <-.
  apply Forall_fmap, Forall_forall. intros row _. simpl.
  apply Forall_fmap, Forall_forall. intros v _. apply clamp01_unit.
Qed.

Lemma classify_classes (noise : list (list float)) (b : list (list Z)) :
  Environment.classify noise = Some b ->
  Forall (Forall (fun k => k = 0 \/ k = 1 \/ k = 2)) b.
Proof.
  unfold Environment.classify.
  destruct (Py.index _ _) as [t1|]; [|done].
  destruct (Py.index _ _) as [t2|]; [|done].
  intros [= <-].
  apply Forall_fmap, Forall_forall. intros row _. simpl.
  apply Forall_fmap, Forall_forall. intros v _. simpl.
  destruct (biome_class_cases t1 t2 v) as [[_ ->]|[(_ & _ & ->)|(_ & _ & ->)]];
    tauto.
Qed.

Lemma index2_Forall {A} (P : A -> Prop) (g : list (list A)) (x y : Z) (v : A) :
  Forall (Forall P) g -> Py.index2 g x y = Some v -> P v.
Proof.
  intros Hg. unfold Py.index2.
  destruct (Py.index g y) as [row|] eqn:Hrow; [|done].
  intros Hv. apply index_elem_of in Hrow, Hv.
  rewrite Forall_forall in Hg. specialize (Hg row Hrow).
  rewrite Forall_forall in Hg. by apply Hg.
Qed.

(** X7: [Environment(width, height, rng)] on a grid with at least one cell
    returns; the environment has the given size, every cell is empty, and
    at every cell of the grid the humidity and the fertility are between
    0.0 and 1.0 and the biome is 0, 1 or 2. *)
Theorem environment_built (w h : Z) (g : rng_state) :
  0 < w -> 0 < h ->
  exists e g',
    Environment.init w h g = Some (e, g') /\
    Environment.width e = w /\ Environment.height e = h /\
    forall x y, Environment.in_bounds e x y = true ->
      Environment.get e x y = Some None /\
      (exists v, Environment.humidity_at e x y = Some v /\ in_unit v) /\
      (exists v, Environment.fertility_at e x y = Some v /\ in_unit v) /\
      (exists k, Environment.biome_at e x y = Some k /\ (k = 0 \/ k = 1 \/ k = 2)).
Proof.
  intros Hw Hh.
  destruct (env_init_spec w h g Hw Hh) as (e & g' & Hrun & Hwf & Hew & Heh & Hnone).
  exists e, g'. split_and!; [done..|].
  intros x y Hb. apply in_bounds_inside in Hb. split; [by apply Hnone|].
  assert (Hlayers : Forall (Forall in_unit) (Environment._humidity e) /\
                    Forall (Forall in_unit) (Environment._fertility e) /\
                    Forall (Forall (fun k => k = 0 \/ k = 1 \/ k = 2))
                           (Environment._biome e)).
  { unfold Environment.init, Environment._generate_biomes in Hrun.
    destruct (generate_layer_unit w h 0.55 0.22 (-0.2) 4 g)
      as (hum & g1 & Hg1 & _ & Hhum).
    rewrite Hg1 in Hrun.
    destruct (generate_layer_unit w h 0.5 0.24 0.16 4 g1)
      as (fer & g2 & Hg2 & _ & Hfer).
    rewrite Hg2 in Hrun.
    destruct (Environment._generate_layer w h 0.5 0.35 0 3 g2)
      as [[noise g3]|]; [|done].
    destruct (Environment.classify noise) as [b|] eqn:Hcl; [|done].
    injection Hrun as <- <-. simpl. split_and!; [done..|].
    by eapply classify_classes. }
  destruct Hlayers as (Hhum & Hfer & Hbio).
  destruct (humidity_is_Some e x y Hwf Hb) as [v Hv].
  destruct (fertility_is_Some e x y Hwf Hb) as [f Hf].
  destruct (biome_is_Some e x y Hwf Hb) as [k Hk].
  split_and!.
  - exists v. split; [done|]. exact (index2_Forall _ _ _ _ _ Hhum Hv).
  - exists f. split; [done|]. exact (index2_Forall _ _ _ _ _ Hfer Hf).
  - exists k. split; [done|]. exact (index2_Forall _ _ _ _ _ Hbio Hk).
Qed.

(** X8: the construction of an environment returns exactly when the grid
    has at least one cell: with a width or a height of zero or less the
    thresholds of the biomes are read from an empty list, which raises. *)
Theorem environment_needs_a_cell (w h : Z) (g : rng_state) :
  is_Some (Environment.init w h g) <-> 0 < w /\ 0 < h.
Proof.
  split.
  - intros [[e g'] Hrun]. by eapply env_init_positive.
  - intros [Hw Hh].
    destruct (env_init_spec w h g Hw Hh) as (e & g' & -> & _). done.
Qed.
End Terrain.

(** ** The engine between two ticks *)

Section Engine.
Context {R : PyRandom} {L : Libm}.
Import Simulation.
Implicit Types (s : Simulation.t).

Lemma length_all_coords (w h : Z) :
  length (all_coords w h) = (Z.to_nat w * Z.to_nat h)%nat.
Proof.
  unfold all_coords.
  assert (Hlen : forall l : list Z,
             length (l ≫= fun x => (fun y => (x, y)) <$> Py.range 0 h)
             = (length l * Z.to_nat h)%nat).
  { induction l as [|x l IH]; [done|].
    rewrite bind_cons, length_app, IH, length_fmap, length_range. simpl. lia. }
  rewrite Hlen, length_range. f_equal; lia.
Qed.

(** X9: between two ticks the agents are never more than the cells of the
    grid. *)
Theorem population_fits_grid s :
  reachable s ->
  Z.of_nat (length (population s))
    <= grid_width (settings s) * grid_height (settings s).
Proof.
  intros Hr. apply reachable_Inv in Hr.
  set (pos := fun r => from_option Orc.position (0, 0) (objs s !! r)).
  assert (Hpos : forall r, r ∈ population s ->
            inside (environment s) (pos r) /\
            Environment.get (environment s) (pos r).1 (pos r).2 = Some (Some r)).
  { intros r Hin. destruct (inv_pop _ Hr r Hin) as (o & Ho & Hget).
    destruct (inv_store _ Hr r o Ho) as (_ & Hins & _).
    unfold pos. rewrite Ho. simpl. done. }
  assert (Hnd : NoDup (pos <$> population s)).
  { apply NoDup_fmap_2_strong; [|by apply inv_nodup].
    intros r r' Hin Hin' Heq.
    destruct (Hpos r Hin) as [_ Hg], (Hpos r' Hin') as [_ Hg'].
    rewrite Heq in Hg. congruence. }
  assert (Hsub : pos <$> population s ⊆+ all_coords (grid_width (settings s))
                                                   (grid_height (settings s))).
  { apply NoDup_submseteq; [done|]. intros p Hp.
    apply list_elem_of_fmap in Hp as (r & -> & Hin).
    apply elem_of_all_coords. rewrite <- (inv_width _ Hr), <- (inv_height _ Hr).
    by apply Hpos. }
  apply submseteq_length in Hsub.
  rewrite length_fmap, length_all_coords in Hsub.
  pose proof (inv_w_pos _ Hr). pose proof (inv_h_pos _ Hr).
  apply Nat2Z.inj_le in Hsub. rewrite Nat2Z.inj_mul, !Z2Nat.id in Hsub by lia.
  done.
Qed.

(** X10: between two ticks [metrics()] returns, with the tick of the engine
    and the number of agents of the population. *)
Theorem metrics_counts s :
  reachable s ->
  exists m, metrics s = Some m /\
    SimulationMetrics.tick m = tick s /\
    SimulationMetrics.population m = Z.of_nat (length (population s)).
Proof.
  intros Hr. apply reachable_Inv in Hr.
  destruct (metrics_is_Some s Hr) as [m Hm]. exists m. split; [done|].
  unfold metrics in Hm.
  destruct (mapM _ _) as [pop|] eqn:Hpop; [|done].
  apply length_mapM in Hpop. rewrite <- Hpop in Hm.
  destruct (Z.of_nat (length (population s)) =? 0) eqn:Hz.
  - injection Hm as <-. simpl. split; [done|]. apply Z.eqb_eq in Hz. lia.
  - destruct (Py.fdiv_int _ _) as [a|]; [|done].
    destruct (Py.fdiv_int _ _) as [b|]; [|done].
    destruct (Py.fdiv_int _ _) as [c|]; [|done].
    by injection Hm as <-.
Qed.


(** X12: [_remove_orc] on an agent of the store returns; the agent is then
    out of the population and on no cell, the other agents of the
    population stay, no object changes, and the grid and the population
    still agree.  A second removal changes nothing. *)
Theorem remove_orc_effect s r o :
  Inv s -> objs s !! r = Some o ->
  exists s',
    _remove_orc r s = Some (tt, s') /\
    population s' = filter (fun j => j <> r) (population s) /\
    objs s' = objs s /\ _next_id s' = _next_id s /\
    (forall x y, Environment.in_bounds (environment s') x y = true ->
                 Environment.get (environment s') x y <> Some (Some r)) /\
    consistent s' /\
    _remove_orc r s' = Some (tt, s').
Proof.
  intros Hs Ho.
  destruct (remove_orc_full s r o
              (fun _ s' => Inv s' /\ settings s' = settings s /\
                 population s' = filter (fun j => j <> r) (population s) /\
                 objs s' = objs s /\ _next_id s' = _next_id s) Hs Ho)
    as ([] & s' & Hrun & Hs' & Hst & Hp & Hobjs & Hn).
  { intros s' Hl Hp Hn Hobjs _. split_and!; try done; by destruct Hl as (? & ? & ? & ?). }
  assert (Hout : r ∉ population s').
  { rewrite Hp. intros Hin. by apply list_elem_of_filter in Hin as [? _]. }
  exists s'. split_and!; try done.
  - intros x y Hb Hget. apply in_bounds_inside in Hb.
    by destruct (inv_grid _ Hs' x y r Hb Hget) as [Hin _].
  - by apply Inv_consistent.
  - destruct (inv_store _ Hs r o Ho) as (Hid & Hins & _).
    assert (Hins' : inside (environment s') (Orc.position o)).
    { unfold inside in *.
      rewrite (inv_width _ Hs'), (inv_height _ Hs'), Hst,
        <- (inv_width _ Hs), <- (inv_height _ Hs). done. }
    unfold _remove_orc, bind, deref, read, dict_pop, Environment.remove.
    rewrite Hobjs, Ho. destruct (Orc.position o) as [x y] eqn:Hpos.
    destruct (get_is_Some _ x y (inv_env _ Hs') Hins') as [c Hc]. rewrite Hc.
    rewrite decide_False.
    + change (objs (with_world s' (objs s) (environment s'))) with (objs s).
      rewrite Ho, Hid.
      change (population (with_world s' (objs s) (environment s')))
        with (population s').
      rewrite filter_ne_not_in by done. rewrite <- Hobjs. by destruct s'.
    + intros ->. destruct (inv_grid _ Hs' x y r Hins' Hc) as [Hin _]. done.
Qed.
End Engine.

(** ** Cloning, attacking, reproducing, moving *)

Section Agents.
Context {R : PyRandom} {L : Libm}.
Import Simulation.
Implicit Types (s : Simulation.t).

Lemma mutate_floor (rate scale v : float) (g : rng_state) :
  (Orc.mutate rate scale v g).1 = v \/
  (0.1 <=? (Orc.mutate rate scale v g).1)%float = true.
Proof.
  unfold Orc.mutate. destruct (rng_random g) as [u g1].
  destruct (u <? rate)%float; [|by left].
  destruct (Random.uniform (- scale) scale g1) as [d g2]. right. simpl.
  unfold Py.max. destruct (0.1 <? v + d)%float eqn:Hlt; [by apply ltb_leb|done].
Qed.

(** X13: the clone of an agent has the id it is given, the position and the
    kind of the parent, 0.6 of its energy, age 0 and no infection; each of
    its three traits is the parent's or, when it mutated, at least 0.1. *)
Theorem clone_traits (o : Orc.t) (rate scale : float) (nid : Z) (g : rng_state) :
  let c := (Orc.clone_with_mutation o rate scale nid g).1 in
  Orc.id c = nid /\ Orc.position c = Orc.position o /\
  Orc.kind c = Orc.kind o /\ Orc.energy c = (Orc.energy o * 0.6)%float /\
  Orc.age c = 0 /\ Orc.infected c = false /\ Orc.infection_timer c = 0 /\
  (Orc.strength c = Orc.strength o \/ (0.1 <=? Orc.strength c)%float = true) /\
  (Orc.agility c = Orc.agility o \/ (0.1 <=? Orc.agility c)%float = true) /\
  (Orc.resilience c = Orc.resilience o \/
   (0.1 <=? Orc.resilience c)%float = true).
Proof.
  unfold Orc.clone_with_mutation.
  pose proof (mutate_floor rate scale (Orc.strength o) g) as H1.
  destruct (Orc.mutate rate scale (Orc.strength o) g) as [x1 g1].
  pose proof (mutate_floor rate scale (Orc.agility o) g1) as H2.
  destruct (Orc.mutate rate scale (Orc.agility o) g1) as [x2 g2].
  pose proof (mutate_floor rate scale (Orc.resilience o) g2) as H3.
  destruct (Orc.mutate rate scale (Orc.resilience o) g2) as [x3 g3].
  simpl in *. split_and!; done.
Qed.



End Agents.

(** ** The agents of the construction *)

Section Seeds.
Context {R : PyRandom} {L : Libm}.
Import Simulation.
Implicit Types (s : Simulation.t).

Lemma for_each_inv {A} (J : nat -> t -> Prop) (l : list A) (body : A -> M unit)
    s s' :
  for_each l body s = Some (tt, s') ->
  J 0%nat s ->
  (forall i x s1 s2, l !! i = Some x -> J i s1 ->
     body x s1 = Some (tt, s2) -> J (S i) s2) ->
  J (length l) s'.
Proof.
  revert J s. induction l as [|x l IH]; intros J s Hrun H0 Hstep; simpl in *.
  - apply ret_Some in Hrun as [_ ->]. done.
  - apply bind_Some in Hrun as ([] & s1 & Hx & Hrun).
    apply (IH (fun i => J (S i)) s1 Hrun).
    + by apply (Hstep 0%nat x s s1).
    + intros i y s2 s3 Hy. by apply (Hstep (S i)).
Qed.

Lemma range_snoc (a : Z) (n : nat) :
  Py.range a (a + Z.of_nat (S n)) = Py.range a (a + Z.of_nat n) ++ [a + Z.of_nat n].
Proof.
  unfold Py.range.
  replace (Z.to_nat (a + Z.of_nat (S n) - a)) with (S n) by lia.
  replace (Z.to_nat (a + Z.of_nat n - a)) with n by lia.
  rewrite seq_S, fmap_app. done.
Qed.

Lemma length_slice_to {A} (l : list A) (k : Z) :
  Z.of_nat (length (Py.slice_to l k))
  = if 0 <=? k then Z.min k (Z.of_nat (length l))
    else Z.max 0 (Z.of_nat (length l) + k).
Proof.
  unfold Py.slice_to. destruct (Z.leb_spec 0 k); rewrite length_take; lia.
Qed.

Lemma apply_kind_modifiers_Some r s u s' :
  _apply_kind_modifiers r s = Some (u, s') ->
  exists o a b c,
    objs s !! r = Some o /\
    s' = with_objs s (<[r := Orc.with_traits o a b c]> (objs s)).
Proof.
  unfold _apply_kind_modifiers. intros H.
  run_step H as st Hst. run_step H as o Ho.
  cbv zeta in H.
  run_step H as m1 Hm1. run_step H as m2 Hm2. run_step H as m3 Hm3.
  apply update_orc_Some in H as (o' & Ho' & ->).
  rewrite Ho in Ho'. injection Ho' as <-. by eexists _, _, _, _.
Qed.

Lemma spawn_orc_Some c s a s' :
  _spawn_orc c s = Some (a, s') ->
  a = _next_id s /\ settings s' = settings s /\ tick s' = tick s /\
  _next_id s' = _next_id s + 1 /\
  population s' = (if inb (_next_id s) (population s) then population s
                   else population s ++ [_next_id s]) /\
  exists o g',
    objs s' = <[_next_id s := o]> (objs s) /\
    environment s' = Environment.with_grid (environment s) g' /\
    seeded (settings s) (environment s) (_next_id s) o.
Proof.
  unfold _spawn_orc. intros H.
  run_step H as st Hst. subst st.
  run_step H as biome Hb. run_step H as nid Hnid. subst nid.
  run_step H as x1 Hx1. run_step H as x2 Hx2. run_step H as x3 Hx3.
  run_step H as orc Horc. unfold new_orc in Horc. injection Horc as <- <-.
  run_step H as u1 Hu1. injection Hu1 as <- <-.
  run_step H as u2 Hu2.
  apply apply_kind_modifiers_Some in Hu2 as (o1 & m1 & m2 & m3 & Ho1 & ->).
  simpl in Ho1. rewrite lookup_insert_eq in Ho1. injection Ho1 as <-.
  run_step H as o2 Ho2. simpl in Ho2. rewrite lookup_insert_eq in Ho2.
  injection Ho2 as <-.
  run_step H as u3 Hu3. unfold dict_set in Hu3. injection Hu3 as <- <-.
  run_step H as u4 Hu4.
  pose proof Hu4 as Hplace.
  apply place_Some in Hu4 as (o3 & g' & Ho3 & Hg' & ->).
  simpl in Ho3. rewrite lookup_insert_eq in Ho3. injection Ho3 as <-.
  apply ret_Some in H as [-> ->]. simpl.
  split_and!; try done.
  eexists _, g'. split_and!.
  - by rewrite !insert_insert_eq.
  - done.
  - unfold seeded. simpl. split_and!; try done.
    + unfold place, Environment.place in Hplace. simpl in Hplace.
      by destruct (Environment.in_bounds _ _ _).
    + by exists biome.
Qed.

End Seeds.

(** ** The disease *)

Section Disease.
Context {R : PyRandom} {L : Libm}.
Import Simulation.
Implicit Types (s : Simulation.t).

Lemma spread_to_keeps_sick st coord s s' r o :
  spread_to st coord s = Some (tt, s') ->
  objs s !! r = Some o -> Orc.infected o = true ->
  objs s' !! r = Some o.
Proof.
  unfold spread_to. intros H Ho Hsick.
  run_step H as c Hc. destruct c as [target|].
  - run_step H as tg Htg.
    destruct (Orc.infected tg) eqn:Hinf.
    { by apply ret_Some in H as [_ ->]. }
    run_step H as u Hu.
    destruct (u <? _)%float.
    + apply update_orc_Some in H as (tg' & Htg' & ->). simpl in *.
      rewrite lookup_insert_ne; [done|]. intros ->. congruence.
    + by apply ret_Some in H as [_ ->].
  - by apply ret_Some in H as [_ ->].
Qed.

Lemma bind_intro {A B} (m : M A) (k : A -> M B) s a s1 res :
  m s = Some (a, s1) -> k a s1 = res -> bind m k s = res.
Proof. unfold bind. by intros -> <-. Qed.

Lemma apply_disease_sick s r o s' :
  _apply_disease r s = Some (tt, s') ->
  objs s !! r = Some o -> Orc.infected o = true ->
  exists o', objs s' !! r = Some o' /\
    sick_tick (settings s) (Orc.infection_timer o) o o'.
Proof.
  intros H Ho Hsick. unfold _apply_disease in H.
  run_step H as st Hst. subst st.
  run_step H as o0 Ho0. rewrite Ho in Ho0. injection Ho0 as <-.
  apply bind_Some in H as ([] & s1 & Hfirst & H).
  rewrite Hsick in Hfirst. simpl in Hfirst. apply ret_Some in Hfirst as [_ ->].
  run_step H as o0 Ho0. rewrite Ho in Ho0. injection Ho0 as <-.
  rewrite Hsick in H. simpl in H.
  run_step H as u1 Hu1. apply update_orc_Some in Hu1 as (o1 & Ho1 & ->).
  rewrite Ho in Ho1. injection Ho1 as <-.
  run_step H as u2 Hu2. apply update_orc_Some in Hu2 as (o2 & Ho2 & ->).
  simpl in Ho2. rewrite lookup_insert_eq in Ho2. injection Ho2 as <-.
  run_step H as occ Hocc.
  apply bind_Some in H as ([] & s3 & Hloop & H).
  set (o2 := Orc.adjust_energy _ _) in *.
  assert (H3 : objs s3 !! r = Some o2).
  { apply (for_each_inv (fun _ s' => objs s' !! r = Some o2) occ _ _ s3 Hloop).
    - simpl. apply lookup_insert_eq.
    - intros i c sa sb _ Hsa Hbody.
      apply (spread_to_keeps_sick _ _ _ _ _ _ Hbody Hsa). done. }
  run_step H as o3 Ho3. rewrite H3 in Ho3. injection Ho3 as <-.
  unfold sick_tick.
  change (Orc.infection_timer o2) with (Orc.infection_timer o - 1) in H.
  destruct (Orc.infection_timer o - 1 <=? 0).
  - apply update_orc_Some in H as (o4 & Ho4 & ->). rewrite H3 in Ho4.
    injection Ho4 as <-. eexists. split; [apply lookup_insert_eq|]. done.
  - apply ret_Some in H as [_ ->]. exists o2. done.
Qed.

End Disease.

(** ** What a tick leaves alone *)

Section Frame.
Context {R : PyRandom} {L : Libm}.
Import Simulation.
Implicit Types (s : Simulation.t).

Ltac frame_same := split; first [reflexivity | apply Z.le_refl].

Lemma frame_refl s : frame s s.
Proof. split; reflexivity. Qed.

Lemma frame_trans s1 s2 s3 : frame s1 s2 -> frame s2 s3 -> frame s1 s3.
Proof. intros [] []. split; (congruence || lia). Qed.

Lemma kf_ret {A} (a : A) : keeps_frame (ret a).
Proof. intros s b s' [_ ->]%ret_Some. apply frame_refl. Qed.

Lemma kf_bind {A B} (m : M A) (k : A -> M B) :
  keeps_frame m -> (forall a, keeps_frame (k a)) -> keeps_frame (bind m k).
Proof.
  intros Hm Hk s b s' (a & s1 & H1 & H2)%bind_Some.
  eapply frame_trans; [by eapply Hm | by eapply Hk].
Qed.

Lemma kf_gets {A} (f : t -> A) : keeps_frame (gets f).
Proof. intros s b s' [_ ->]%gets_Some. apply frame_refl. Qed.

Lemma kf_read {A} (f : t -> option A) : keeps_frame (read f).
Proof. intros s b s' [_ ->]%read_Some. apply frame_refl. Qed.

Lemma kf_deref r : keeps_frame (deref r).
Proof. apply kf_read. Qed.

Lemma kf_draw {A} (f : rng_state -> A * rng_state) : keeps_frame (draw f).
Proof. intros s b s' [_ ->]%draw_Some. frame_same. Qed.

Lemma kf_draw_opt {A} (f : rng_state -> option (A * rng_state)) :
  keeps_frame (draw_opt f).
Proof. intros s b s' (g & _ & ->)%draw_opt_Some. frame_same. Qed.

Lemma kf_update_orc r f : keeps_frame (update_orc r f).
Proof. intros s b s' (o & _ & ->)%update_orc_Some. frame_same. Qed.

Lemma kf_new_orc o : keeps_frame (new_orc o).
Proof. intros s b s' H. injection H as _ <-. frame_same. Qed.

Lemma kf_dict_set k : keeps_frame (dict_set k).
Proof. intros s b s' H. injection H as _ <-. frame_same. Qed.

Lemma kf_dict_pop k : keeps_frame (dict_pop k).
Proof. intros s b s' H. injection H as _ <-. frame_same. Qed.

Lemma kf_next_id :
  keeps_frame (fun s => Some (tt, with_next_id s (_next_id s + 1))).
Proof. intros s b s' H. injection H as _ <-. split; try reflexivity. unfold with_next_id; simpl; lia. Qed.

Lemma kf_place r dest : keeps_frame (place r dest).
Proof. intros s b s' (o & g' & _ & _ & ->)%place_Some. frame_same. Qed.

Lemma kf_move r dest : keeps_frame (move r dest).
Proof.
  intros s b s'. unfold move, Environment.move. destruct dest as [dx dy].
  destruct (Environment.in_bounds _ _ _); simpl.
  - destruct (objs s !! r) as [o|]; [|done].
    destruct (Orc.position o) as [sx sy].
    destruct (Environment.get _ _ _) as [[t|]|]; [| |done].
    + intros [= _ <-]. frame_same.
    + destruct (Py.setitem2 _ _ _ _) as [g1|]; [|done].
      destruct (Py.setitem2 _ _ _ _) as [g2|]; [|done].
      intros [= _ <-]. frame_same.
  - intros [= _ <-]. frame_same.
Qed.

Lemma kf_remove_orc r : keeps_frame (_remove_orc r).
Proof.
  unfold _remove_orc. apply kf_bind; [|intros _; apply kf_bind;
    [apply kf_deref | intros o; apply kf_dict_pop]].
  intros s b s'. unfold Environment.remove.
  destruct (objs s !! r) as [o|]; [|done].
  destruct (Orc.position o) as [x y].
  destruct (Environment.get _ _ _) as [c|]; [|done].
  destruct (decide _).
  - destruct (Py.setitem2 _ _ _ _) as [g1|]; [|done]. intros [= _ <-]. frame_same.
  - intros [= _ <-]. frame_same.
Qed.

Lemma kf_for_each {A} (l : list A) (body : A -> M unit) :
  (forall x, keeps_frame (body x)) -> keeps_frame (for_each l body).
Proof.
  intros Hbody. induction l as [|x l IH]; simpl.
  - apply kf_ret.
  - apply kf_bind; [apply Hbody | by intros _].
Qed.

Lemma kf_for_collect {A B} (l : list A) (body : A -> M B) :
  (forall x, keeps_frame (body x)) -> keeps_frame (for_collect l body).
Proof.
  intros Hbody. induction l as [|x l IH]; simpl.
  - apply kf_ret.
  - apply kf_bind; [apply Hbody | intros b].
    apply kf_bind; [apply IH | intros bs; apply kf_ret].
Qed.
End Frame.

Create HintDb frame.
#[global] Hint Resolve kf_ret kf_gets kf_read kf_deref kf_draw kf_draw_opt
  kf_update_orc kf_new_orc kf_dict_set kf_dict_pop kf_next_id kf_place kf_move
  kf_remove_orc : frame.

(** One method after the other: split the binds, the branches and the
    loops, and close the leaves with the lemmas of the primitives and of
    the methods already done. *)
Ltac kf_step :=
  first
    [ solve [eauto with frame]
    | apply kf_bind; [|intros ?]
    | apply kf_for_each; intros ?
    | apply kf_for_collect; intros ?
    | match goal with
      | |- keeps_frame (if ?b then _ else _) => destruct b
      | |- keeps_frame (match ?x with _ => _ end) => destruct x
      end ].
Ltac kf := repeat kf_step.

Section FrameMethods.
Context {R : PyRandom} {L : Libm}.
Import Simulation.

Lemma kf_apply_environment_pressure r : keeps_frame (_apply_environment_pressure r).
Proof. unfold _apply_environment_pressure. kf. Qed.
Lemma kf_apply_social_context r : keeps_frame (_apply_social_context r).
Proof. unfold _apply_social_context. kf. Qed.
Lemma kf_spread_to st c : keeps_frame (spread_to st c).
Proof. unfold spread_to. kf. Qed.
#[local] Hint Resolve kf_spread_to : frame.
Lemma kf_apply_disease r : keeps_frame (_apply_disease r).
Proof. unfold _apply_disease. kf. Qed.
Lemma kf_overpop_kill_check r : keeps_frame (_overpop_kill_check r).
Proof. unfold _overpop_kill_check. kf. Qed.
Lemma kf_maybe_reproduce r : keeps_frame (_maybe_reproduce r).
Proof. unfold _maybe_reproduce. kf. Qed.
Lemma kf_forage r f : keeps_frame (_forage r f).
Proof. unfold _forage. kf. Qed.
Lemma kf_should_attack c d : keeps_frame (_should_attack c d).
Proof. unfold _should_attack. kf. Qed.
Lemma kf_desirability_of r o cs tv fa lp ls c :
  keeps_frame (desirability_of r o cs tv fa lp ls c).
Proof. unfold desirability_of. kf. Qed.
#[local] Hint Resolve kf_desirability_of : frame.
Lemma kf_choose_move_target r e : keeps_frame (_choose_move_target r e).
Proof. unfold _choose_move_target. kf. Qed.
Lemma kf_fight_scores c d : keeps_frame (fight_scores c d).
Proof. unfold fight_scores. kf. Qed.
Lemma kf_remove_if_exhausted r : keeps_frame (remove_if_exhausted r).
Proof. unfold remove_if_exhausted. kf. Qed.
#[local] Hint Resolve kf_fight_scores kf_remove_if_exhausted : frame.
Lemma kf_resolve_fight c d : keeps_frame (_resolve_fight c d).
Proof. unfold _resolve_fight. kf. Qed.
#[local] Hint Resolve kf_forage kf_should_attack kf_choose_move_target kf_resolve_fight
  : frame.
Lemma kf_take_action r : keeps_frame (_take_action r).
Proof. unfold _take_action. kf. Qed.
#[local] Hint Resolve kf_apply_environment_pressure kf_apply_social_context
  kf_apply_disease kf_overpop_kill_check kf_maybe_reproduce kf_take_action
  : frame.
Lemma kf_step_orc r : keeps_frame (step_orc r).
Proof. unfold step_orc. kf. Qed.
End FrameMethods.

Section StepFrame.
Context {R : PyRandom} {L : Libm}.
Import Simulation.
Implicit Types (s : Simulation.t).


(** X20: a target is never of the agent's own kind.  For an agent of the
    store and neighbour cells inside the grid, [_pick_target] returns; a
    cell it returns is one of the given cells, holds an agent of another
    kind and has a score above [-0.3]; and with no agent of another kind on
    the given cells it returns [None]. *)
Theorem pick_target_other_kind s r o occ :
  Inv s -> objs s !! r = Some o ->
  (forall p, p ∈ occ -> inside (environment s) p) ->
  exists res, _pick_target s r occ = Some res /\
    (forall p, res = Some p ->
       p ∈ occ /\
       exists tg, agent_at s p.1 p.2 = Some (Some tg) /\
         Orc.kind tg <> Orc.kind o /\
         (-0.3 <? (Orc.fitness o - Orc.fitness tg)
                  + (Orc.energy o - Orc.energy tg) * 0.1)%float = true) /\
    ((forall p tg, p ∈ occ -> agent_at s p.1 p.2 = Some (Some tg) ->
                   Orc.kind tg = Orc.kind o) ->
     res = None).
Proof.
  intros Hs Ho Hocc. unfold _pick_target. rewrite Ho. simpl.
  set (good := fun c : float * (Z * Z) =>
    c.2 ∈ occ /\
    exists tg, agent_at s c.2.1 c.2.2 = Some (Some tg) /\
      Orc.kind tg <> Orc.kind o /\
      c.1 = ((Orc.fitness o - Orc.fitness tg)
             + (Orc.energy o - Orc.energy tg) * 0.1)%float).
  match goal with
  | |- context [Py.foldM ?f ?b ?l] =>
      destruct (foldM_is_Some (fun cands => forall c, c ∈ cands -> good c) f l b)
        as (cands & Hfold & Hgood)
  end.
  - intros c Hc. by apply elem_of_nil in Hc.
  - intros cands [cx cy] Hp Hcands.
    destruct (agent_at_spec s cx cy Hs (Hocc _ Hp)) as [[tg|] Hat];
      rewrite Hat; simpl; [|by eexists].
    destruct (Orc.kind tg =? Orc.kind o) eqn:Hk; [by eexists|].
    eexists. split; [done|]. intros c [Hc|Hc]%elem_of_app; [by apply Hcands|].
    apply list_elem_of_singleton in Hc as ->. split; [done|].
    exists tg. split; [done|]. split; [by apply Z.eqb_neq|done].
  - rewrite Hfold. simpl.
    pose proof (sorted_reverse_perm score_lt cands) as Hperm.
    destruct (Py.sorted_reverse score_lt cands) as [|[bs bc] rest].
    + eexists. split; [done|]. split; [done|done].
    + assert (Hb : good (bs, bc)).
      { apply Hgood. rewrite <- Hperm. by left. }
      destruct Hb as (Hin & tg & Hat & Hkind & Hscore). simpl in *.
      eexists. split; [done|]. split.
      * intros p Hp. destruct (-0.3 <? bs)%float eqn:Hlt; [|done].
        injection Hp as <-. split; [done|]. exists tg.
        split; [done|]. split; [done|]. by rewrite <- Hscore.
      * intros Hall. by destruct (Hkind (Hall _ _ Hin Hat)).
Qed.
End StepFrame.

(** ** Iterating over the grid *)

Section GridIteration.
Context {R : PyRandom} {L : Libm}.
Import Simulation.
Implicit Types (s : Simulation.t).

Lemma elem_of_concat_rows {A} (x : A) (g : list (list A)) :
  x ∈ concat g <-> exists i row j, g !! i = Some row /\ row !! j = Some x.
Proof.
  induction g as [|row g IH]; simpl.
  - split; [by intros ?%elem_of_nil | by intros (i & ? & ? & ? & _)].
  - rewrite elem_of_app, IH. split.
    + intros [Hx | (i & row' & j & Hi & Hj)].
      * apply list_elem_of_lookup in Hx as [j Hj]. by exists 0%nat, row, j.
      * by exists (S i), row', j.
    + intros ([|i] & row' & j & Hi & Hj).
      * injection Hi as <-. left. by eapply list_elem_of_lookup_2.
      * right. by exists i, row', j.
Qed.

Lemma NoDup_omap_row (row : list (option Z)) :
  (forall j j' r, row !! j = Some (Some r) -> row !! j' = Some (Some r) -> j = j') ->
  NoDup (omap (fun c => c) row).
Proof.
  induction row as [|c row IH]; intros Hrow; simpl; [constructor|].
  assert (Htail : NoDup (omap (fun c => c) row)).
  { apply IH. intros j j' r Hj Hj'.
    pose proof (Hrow (S j) (S j') r Hj Hj'). lia. }
  destruct c as [r|]; [|done]. constructor; [|done].
  intros (c & Hc & ->)%list_elem_of_omap.
  apply list_elem_of_lookup in Hc as [j Hj].
  pose proof (Hrow 0%nat (S j) r eq_refl Hj). lia.
Qed.

Lemma NoDup_omap_rows (g : list (list (option Z))) :
  (forall i i' row row' j j' r,
     g !! i = Some row -> g !! i' = Some row' ->
     row !! j = Some (Some r) -> row' !! j' = Some (Some r) ->
     i = i' /\ j = j') ->
  NoDup (omap (fun c => c) (concat g)).
Proof.
  induction g as [|row g IH]; intros Hg; simpl; [constructor|].
  rewrite omap_app. apply NoDup_app. split; [|split].
  - apply NoDup_omap_row. intros j j' r Hj Hj'.
    by destruct (Hg 0%nat 0%nat row row j j' r eq_refl eq_refl Hj Hj').
  - intros r (c & Hc & ->)%list_elem_of_omap (c' & Hc' & Heq)%list_elem_of_omap.
    simpl in Heq. subst c'.
    apply list_elem_of_lookup in Hc as [j Hj].
    apply elem_of_concat_rows in Hc' as (i' & row' & j' & Hi' & Hj').
    destruct (Hg 0%nat (S i') row row' j j' r eq_refl Hi' Hj Hj'). lia.
  - apply IH. intros i i' r1 r2 j j' r Hi Hi' Hj Hj'.
    destruct (Hg (S i) (S i') r1 r2 j j' r Hi Hi' Hj Hj'). split; lia.
Qed.

Lemma cell_of_lookup (e : Environment.t) i row j (c : option Z) :
  env_wf e ->
  Environment._grid e !! i = Some row -> row !! j = Some c ->
  inside e (Z.of_nat j, Z.of_nat i) /\
  Environment.get e (Z.of_nat j) (Z.of_nat i) = Some c.
Proof.
  intros He Hi Hj. destruct (wf_grid _ He) as [Hlen Hrows].
  assert (Hrow : length row = Z.to_nat (Environment.width e)).
  { rewrite Forall_forall in Hrows. apply Hrows.
    by eapply list_elem_of_lookup_2. }
  apply lookup_lt_Some in Hi as Hi'. apply lookup_lt_Some in Hj as Hj'.
  assert (Hin : inside e (Z.of_nat j, Z.of_nat i)).
  { unfold inside. simpl. lia. }
  split; [done|]. destruct Hin as [Hx Hy]. simpl in Hx, Hy.
  unfold Environment.get.
  rewrite (index2_nat _ _ _ _ _ (wf_grid _ He) Hx Hy).
  rewrite !Nat2Z.id, Hi. simpl. done.
Qed.

Lemma lookup_of_cell (e : Environment.t) x y (c : option Z) :
  env_wf e -> inside e (x, y) -> Environment.get e x y = Some c ->
  exists row, Environment._grid e !! Z.to_nat y = Some row /\
              row !! Z.to_nat x = Some c.
Proof.
  intros He [Hx Hy]. simpl in Hx, Hy. unfold Environment.get.
  rewrite (index2_nat _ _ _ _ _ (wf_grid _ He) Hx Hy).
  destruct (Environment._grid e !! Z.to_nat y) as [row|]; [|done].
  simpl. intros Hc. by exists row.
Qed.

(** X21: iterating over the grid visits the population: on every state an
    engine can be in between two ticks, [iter_orcs()] yields each
    registered agent exactly once and nothing else. *)
Theorem iter_orcs_is_population s :
  reachable s ->
  Environment.iter_orcs (environment s) ≡ₚ population s.
Proof.
  intros Hr. pose proof (reachable_Inv s Hr) as Hs.
  pose proof (inv_env _ Hs) as He.
  unfold Environment.iter_orcs. apply NoDup_Permutation.
  - apply NoDup_omap_rows. intros i i' row row' j j' r Hi Hi' Hj Hj'.
    destruct (cell_of_lookup _ _ _ _ _ He Hi Hj) as [Hin Hget].
    destruct (cell_of_lookup _ _ _ _ _ He Hi' Hj') as [Hin' Hget'].
    destruct (inv_grid _ Hs _ _ _ Hin Hget) as (_ & o & Ho & Hp).
    destruct (inv_grid _ Hs _ _ _ Hin' Hget') as (_ & o' & Ho' & Hp').
    rewrite Ho in Ho'. injection Ho' as <-. rewrite Hp in Hp'.
    injection Hp' as Hjj Hii. lia.
  - apply (inv_nodup _ Hs).
  - intros r. rewrite list_elem_of_omap. split.
    + intros (c & Hc & ->).
      apply elem_of_concat_rows in Hc as (i & row & j & Hi & Hj).
      destruct (cell_of_lookup _ _ _ _ _ He Hi Hj) as [Hin Hget].
      by destruct (inv_grid _ Hs _ _ _ Hin Hget).
    + intros Hin. destruct (inv_pop _ Hs r Hin) as (o & Ho & Hget).
      destruct (inv_store _ Hs r o Ho) as (_ & Hpos & _).
      destruct (Orc.position o) as [x y] eqn:Hp. simpl in Hget.
      destruct (lookup_of_cell _ _ _ _ He Hpos Hget) as (row & Hi & Hj).
      exists (Some r). split; [|done].
      apply elem_of_concat_rows. by exists (Z.to_nat y), row, (Z.to_nat x).
Qed.
End GridIteration.

(** ** The ages of the living *)

Section Ages.
Context {R : PyRandom} {L : Libm}.
Import Simulation.
Implicit Types (s : Simulation.t).

Local Notation "'let!' x ':=' m 'in' k" := (bind m (fun x => k))
  (at level 10, x pattern, m at level 100, k at level 200, only parsing).
Local Notation "m ;; k" := (bind m (fun _ => k))
  (at level 100, k at level 200, right associativity, only parsing).

Lemma ages_kept_refl s : ages_kept s s.
Proof. split; [done | done |]. intros r. by destruct (objs s !! r). Qed.

Lemma ages_kept_same s s' :
  settings s' = settings s -> population s' = population s ->
  objs s' = objs s -> ages_kept s s'.
Proof.
  intros Hst Hp Ho. split; [done | by rewrite Hp |].
  intros r. rewrite Ho. by destruct (objs s !! r).
Qed.

Lemma ages_kept_trans s1 s2 s3 :
  ages_kept s1 s2 -> ages_kept s2 s3 -> ages_kept s1 s3.
Proof.
  intros [Hst1 Hp1 Ho1] [Hst2 Hp2 Ho2]. split; [congruence | auto |].
  intros r. specialize (Ho1 r). specialize (Ho2 r).
  destruct (objs s1 !! r), (objs s2 !! r), (objs s3 !! r); try done.
  destruct Ho1, Ho2. split; congruence.
Qed.

Lemma ages_kept_born s s' : ages_kept s s' -> ages_born s s'.
Proof.
  intros [Hst Hp Ho]. split; [done|]. intros r o' Hr Ho'. right.
  split; [auto|]. specialize (Ho r). rewrite Ho' in Ho.
  destruct (objs s !! r) as [o|]; [|done]. exists o. by destruct Ho.
Qed.

Lemma ages_born_trans s1 s2 s3 :
  ages_born s1 s2 -> ages_born s2 s3 -> ages_born s1 s3.
Proof.
  intros [Hst1 Hp1] [Hst2 Hp2]. split; [congruence|]. intros r o3 Hr Ho3.
  destruct (Hp2 r o3 Hr Ho3) as [?|(Hr2 & o2 & Ho2 & Ha)]; [by left|].
  destruct (Hp1 r o2 Hr2 Ho2) as [?|(Hr1 & o1 & Ho1 & Ha1)];
    [left; congruence|].
  right. split; [done|]. exists o1. split; [done | congruence].
Qed.

Lemma ages_born_bounded s s' :
  ages_bounded s -> ages_born s s' -> ages_bounded s'.
Proof.
  intros Hb [Hst Hp] r o' Hr Ho'. rewrite Hst.
  destruct (Hp r o' Hr Ho') as [->|(Hr0 & o & Ho & ->)]; [lia|].
  by apply (Hb r).
Qed.

Lemma ages_born_fresh s s' :
  population s = [] -> ages_born s s' -> ages_bounded s'.
Proof.
  intros Hnil [Hst Hp] r o' Hr Ho'.
  destruct (Hp r o' Hr Ho') as [->|(Hr0 & _)]; [lia|].
  rewrite Hnil in Hr0. by apply elem_of_nil in Hr0.
Qed.

(** One object of the store replaced by one of the same id and age. *)
Lemma ages_kept_insert s r o o' e :
  objs s !! r = Some o -> Orc.id o' = Orc.id o -> Orc.age o' = Orc.age o ->
  ages_kept s (with_world s (<[r := o']> (objs s)) e).
Proof.
  intros Ho Hid Hage. split; [done | done |]. intros r2.
  change (objs (with_world s (<[r := o']> (objs s)) e))
    with (<[r := o']> (objs s)).
  destruct (decide (r = r2)) as [<-|Hne].
  - by rewrite lookup_insert_eq, Ho.
  - rewrite lookup_insert_ne by done. by destruct (objs s !! r2).
Qed.

Lemma ka_ret {A} (a : A) : keeps_ages (ret a).
Proof. intros s b s' [_ ->]%ret_Some. apply ages_kept_refl. Qed.

Lemma ka_bind {A B} (m : M A) (k : A -> M B) :
  keeps_ages m -> (forall a, keeps_ages (k a)) -> keeps_ages (bind m k).
Proof.
  intros Hm Hk s b s' (a & s1 & H1 & H2)%bind_Some.
  eapply ages_kept_trans; [by eapply Hm | by eapply Hk].
Qed.

Lemma ka_gets {A} (f : t -> A) : keeps_ages (gets f).
Proof. intros s b s' [_ ->]%gets_Some. apply ages_kept_refl. Qed.

Lemma ka_read {A} (f : t -> option A) : keeps_ages (read f).
Proof. intros s b s' [_ ->]%read_Some. apply ages_kept_refl. Qed.

Lemma ka_deref r : keeps_ages (deref r).
Proof. apply ka_read. Qed.

Lemma ka_draw {A} (f : rng_state -> A * rng_state) : keeps_ages (draw f).
Proof. intros s b s' [_ ->]%draw_Some. by apply ages_kept_same. Qed.

Lemma ka_draw_opt {A} (f : rng_state -> option (A * rng_state)) :
  keeps_ages (draw_opt f).
Proof. intros s b s' (g & _ & ->)%draw_opt_Some. by apply ages_kept_same. Qed.

Lemma ka_update_orc r f : keeps_age f -> keeps_ages (update_orc r f).
Proof.
  intros Hf s b s' (o & Ho & ->)%update_orc_Some.
  destruct (Hf o). by apply (ages_kept_insert s r o).
Qed.

Lemma ka_next_id :
  keeps_ages (fun s => Some (tt, with_next_id s (_next_id s + 1))).
Proof. intros s b s' H. injection H as _ <-. by apply ages_kept_same. Qed.

Lemma ka_dict_pop k : keeps_ages (dict_pop k).
Proof.
  intros s b s' H. injection H as _ <-. split; [reflexivity| |].
  - intros r Hr. change (r ∈ filter (fun j => j <> k) (population s)) in Hr.
    by apply list_elem_of_filter in Hr as [_ ?].
  - intros r. change (objs (with_population s ?p)) with (objs s).
    by destruct (objs s !! r).
Qed.

Lemma ka_place r dest : keeps_ages (place r dest).
Proof.
  intros s b s' (o & g' & Ho & _ & ->)%place_Some.
  by apply (ages_kept_insert s r o).
Qed.

Lemma ka_move r dest : keeps_ages (move r dest).
Proof.
  intros s b s'. unfold move, Environment.move. destruct dest as [dx dy].
  destruct (Environment.in_bounds _ _ _); simpl.
  - destruct (objs s !! r) as [o|] eqn:Ho; [|done].
    destruct (Orc.position o) as [sx sy].
    destruct (Environment.get _ _ _) as [[t|]|]; [| |done].
    + intros [= _ <-]. by apply ages_kept_same.
    + destruct (Py.setitem2 _ _ _ _) as [g1|]; [|done].
      destruct (Py.setitem2 _ _ _ _) as [g2|]; [|done].
      intros [= _ <-]. by apply (ages_kept_insert s r o).
  - intros [= _ <-]. by apply ages_kept_same.
Qed.

Lemma ka_remove_orc r : keeps_ages (_remove_orc r).
Proof.
  unfold _remove_orc. apply ka_bind; [|intros _; apply ka_bind;
    [apply ka_deref | intros o; apply ka_dict_pop]].
  intros s b s'. unfold Environment.remove.
  destruct (objs s !! r) as [o|]; [|done].
  destruct (Orc.position o) as [x y].
  destruct (Environment.get _ _ _) as [c|]; [|done].
  destruct (decide _).
  - destruct (Py.setitem2 _ _ _ _) as [g1|]; [|done].
    intros [= _ <-]. by apply ages_kept_same.
  - intros [= _ <-]. by apply ages_kept_same.
Qed.

Lemma ka_for_each {A} (l : list A) (body : A -> M unit) :
  (forall x, keeps_ages (body x)) -> keeps_ages (for_each l body).
Proof.
  intros Hbody. induction l as [|x l IH]; simpl.
  - apply ka_ret.
  - apply ka_bind; [apply Hbody | by intros _].
Qed.

Lemma ka_for_collect {A B} (l : list A) (body : A -> M B) :
  (forall x, keeps_ages (body x)) -> keeps_ages (for_collect l body).
Proof.
  intros Hbody. induction l as [|x l IH]; simpl.
  - apply ka_ret.
  - apply ka_bind; [apply Hbody | intros b].
    apply ka_bind; [apply IH | intros bs; apply ka_ret].
Qed.

Lemma bears_keeps {A} (m : M A) : keeps_ages m -> bears m.
Proof. intros Hm s a s' Hrun. by eapply ages_kept_born, Hm. Qed.

Lemma bears_bind {A B} (m : M A) (k : A -> M B) :
  bears m -> (forall a, bears (k a)) -> bears (bind m k).
Proof.
  intros Hm Hk s b s' (a & s1 & H1 & H2)%bind_Some.
  eapply ages_born_trans; [by eapply Hm | by eapply Hk].
Qed.

(** A bind on a draw, keeping what was drawn. *)
Lemma bears_bind_draw {A B} (f : rng_state -> A * rng_state) (k : A -> M B) :
  (forall g, bears (k (f g).1)) -> bears (bind (draw f) k).
Proof.
  intros Hk s b s' (a & s1 & [-> ->]%draw_Some & H2)%bind_Some.
  eapply ages_born_trans; [|by eapply Hk].
  by apply ages_kept_born, ages_kept_same.
Qed.

Lemma bears_for_each {A} (l : list A) (body : A -> M unit) :
  (forall x, bears (body x)) -> bears (for_each l body).
Proof.
  intros Hbody. induction l as [|x l IH]; simpl.
  - apply bears_keeps, ka_ret.
  - apply bears_bind; [apply Hbody | by intros _].
Qed.

(** The statements that create an agent: the object of age [0] enters the
    store, and after statements that keep the ages its id enters the
    population. *)
Lemma bears_birth {B} (c : Orc.t) (m1 : M unit) (m2 : Z -> M unit)
    (k : Z -> M B) :
  Orc.age c = 0 ->
  keeps_ages m1 -> (forall ch, keeps_ages (m2 ch)) ->
  (forall ch, keeps_ages (k ch)) ->
  bears (let! ch := new_orc c in
         m1;; m2 ch;;
         let! c' := deref ch in
         dict_set (Orc.id c');;
         k ch).
Proof.
  intros Hage Hm1 Hm2 Hk s b s' Hrun.
  apply bind_Some in Hrun as (ch & s1 & H1 & Hrun).
  injection H1 as <- <-.
  apply bind_Some in Hrun as (u1 & s2 & H2 & Hrun).
  apply bind_Some in Hrun as (u2 & s3 & H3 & Hrun).
  apply bind_Some in Hrun as (c' & s4 & [Hc' ->]%deref_Some & Hrun).
  apply bind_Some in Hrun as (u3 & s5 & H5 & Hrun).
  injection H5 as _ <-.
  set (s1 := with_objs s (<[Orc.id c := c]> (objs s))) in *.
  pose proof (ages_kept_trans _ _ _ (Hm1 _ _ _ H2) (Hm2 _ _ _ _ H3)) as H13.
  pose proof (Hk _ _ _ _ Hrun) as H5'.
  assert (Hchild : Orc.id c' = Orc.id c /\ Orc.age c' = 0).
  { pose proof (ak_objs _ _ H13 (Orc.id c)) as Ho. rewrite Hc' in Ho.
    change (objs s1) with (<[Orc.id c := c]> (objs s)) in Ho.
    rewrite lookup_insert_eq in Ho. destruct Ho. split; congruence. }
  destruct Hchild as [Hid Hage'].
  split.
  - rewrite (ak_settings _ _ H5'). apply (ak_settings _ _ H13).
  - intros r o' Hr Ho'.
    apply (ak_population _ _ H5') in Hr.
    pose proof (ak_objs _ _ H5' r) as Ho5. rewrite Ho' in Ho5.
    change (objs (with_population s3 _)) with (objs s3) in Ho5.
    pose proof (ak_objs _ _ H13 r) as Ho3.
    destruct (objs s3 !! r) as [o3|]; [|done].
    destruct (objs s1 !! r) as [o1|] eqn:Ho1; [|done].
    change (objs s1) with (<[Orc.id c := c]> (objs s)) in Ho1.
    destruct Ho5 as [_ Ha5]. destruct Ho3 as [_ Ha3].
    destruct (decide (Orc.id c = r)) as [<-|Hne].
    + rewrite lookup_insert_eq in Ho1. injection Ho1 as <-.
      left. congruence.
    + rewrite lookup_insert_ne in Ho1 by done. right. split.
      * change (population (with_population s3 ?p)) with p in Hr.
        apply (ak_population _ _ H13).
        destruct (inb (Orc.id c') (population s3)); [done|].
        apply elem_of_app in Hr as [?|Hr]; [done|].
        apply list_elem_of_singleton in Hr. congruence.
      * exists o1. split; [done | congruence].
Qed.

Lemma clone_age (o : Orc.t) (rate scale : float) (nid : Z) (g : rng_state) :
  Orc.age (Orc.clone_with_mutation o rate scale nid g).1 = 0.
Proof. by destruct (clone_shape o rate scale nid g) as (_ & _ & _ & ? & _). Qed.
End Ages.

Create HintDb ages.
#[global] Hint Resolve ka_ret ka_gets ka_read ka_deref ka_draw ka_draw_opt
  ka_next_id ka_dict_pop ka_place ka_move ka_remove_orc : ages.

Ltac ka_fun := intros ?; split; reflexivity.
Ltac ka_step :=
  first
    [ solve [eauto with ages]
    | apply ka_update_orc; solve [ka_fun]
    | apply ka_bind; [|intros ?]
    | apply ka_for_each; intros ?
    | apply ka_for_collect; intros ?
    | match goal with
      | |- keeps_ages (if ?b then _ else _) => destruct b
      | |- keeps_ages (match ?x with _ => _ end) => destruct x
      end ].
Ltac ka := repeat ka_step.

Ltac bears_step :=
  first
    [ solve [apply bears_keeps; ka]
    | apply bears_birth;
        [first [reflexivity | apply clone_age] | ka | intros ?; ka | intros ?; ka]
    | apply bears_bind_draw; intros ?
    | apply bears_bind; [|intros ?]
    | match goal with
      | |- bears (if ?b then _ else _) => destruct b
      | |- bears (match ?x with _ => _ end) => destruct x
      end ].

Section AgeMethods.
Context {R : PyRandom} {L : Libm}.
Import Simulation.
Implicit Types (s : Simulation.t).

Lemma ka_apply_kind_modifiers r : keeps_ages (_apply_kind_modifiers r).
Proof. unfold _apply_kind_modifiers. ka. Qed.
Lemma ka_apply_environment_pressure r : keeps_ages (_apply_environment_pressure r).
Proof. unfold _apply_environment_pressure. ka. Qed.
Lemma ka_apply_social_context r : keeps_ages (_apply_social_context r).
Proof. unfold _apply_social_context. ka. Qed.
Lemma ka_spread_to st c : keeps_ages (spread_to st c).
Proof. unfold spread_to. ka. Qed.
#[local] Hint Resolve ka_spread_to ka_apply_kind_modifiers : ages.
Lemma ka_apply_disease r : keeps_ages (_apply_disease r).
Proof. unfold _apply_disease. ka. Qed.
Lemma ka_overpop_kill_check r : keeps_ages (_overpop_kill_check r).
Proof. unfold _overpop_kill_check. ka. Qed.
Lemma ka_forage r f : keeps_ages (_forage r f).
Proof. unfold _forage. ka. Qed.
Lemma ka_should_attack c d : keeps_ages (_should_attack c d).
Proof. unfold _should_attack. ka. Qed.
Lemma ka_desirability_of r o cs tv fa lp ls c :
  keeps_ages (desirability_of r o cs tv fa lp ls c).
Proof. unfold desirability_of. ka. Qed.
#[local] Hint Resolve ka_desirability_of : ages.
Lemma ka_choose_move_target r e : keeps_ages (_choose_move_target r e).
Proof. unfold _choose_move_target. ka. Qed.
Lemma ka_fight_scores c d : keeps_ages (fight_scores c d).
Proof. unfold fight_scores. ka. Qed.
Lemma ka_remove_if_exhausted r : keeps_ages (remove_if_exhausted r).
Proof. unfold remove_if_exhausted. ka. Qed.
#[local] Hint Resolve ka_fight_scores ka_remove_if_exhausted : ages.
Lemma ka_resolve_fight c d : keeps_ages (_resolve_fight c d).
Proof. unfold _resolve_fight. ka. Qed.
#[local] Hint Resolve ka_forage ka_should_attack ka_choose_move_target ka_resolve_fight
  : ages.
Lemma ka_take_action r : keeps_ages (_take_action r).
Proof. unfold _take_action. ka. Qed.

Lemma bears_spawn_orc c : bears (_spawn_orc c).
Proof. unfold _spawn_orc. repeat bears_step. Qed.

Lemma bears_maybe_reproduce r : bears (_maybe_reproduce r).
Proof. unfold _maybe_reproduce. repeat bears_step. Qed.

Lemma bears_seed_initial_population : bears _seed_initial_population.
Proof.
  unfold _seed_initial_population.
  apply bears_bind; [apply bears_keeps, ka_gets | intros st].
  apply bears_bind; [apply bears_keeps, ka_read | intros target].
  apply bears_bind; [apply bears_keeps, ka_draw | intros coords].
  apply bears_for_each. intros c.
  apply bears_bind; [apply bears_spawn_orc | intros _; apply bears_keeps, ka_ret].
Qed.
End AgeMethods.

Section AgeBound.
Context {R : PyRandom} {L : Libm}.
Import Simulation.
Implicit Types (s : Simulation.t).

Lemma remove_orc_out r s o s' :
  objs s !! r = Some o -> Orc.id o = r ->
  _remove_orc r s = Some (tt, s') -> r ∉ population s'.
Proof.
  intros Ho Hid Hrun. unfold _remove_orc in Hrun.
  apply bind_Some in Hrun as (u & s1 & H1 & Hrun).
  apply bind_Some in Hrun as (o1 & s2 & [Ho1 ->]%deref_Some & Hrun).
  injection Hrun as <-.
  assert (Hsame : objs s1 = objs s).
  { destruct (Environment.remove r (objs s) (environment s)); [|done].
    by injection H1 as _ <-. }
  rewrite Hsame, Ho in Ho1. injection Ho1 as <-. rewrite Hid.
  intros Hin. change (r ∈ filter (fun j => j <> r) (population s1)) in Hin.
  by apply list_elem_of_filter in Hin as [Hne _].
Qed.

Lemma overpop_culled r s s' :
  _overpop_kill_check r s = Some (true, s') ->
  exists s1, ages_kept s s1 /\ _remove_orc r s1 = Some (tt, s').
Proof.
  intros H. unfold _overpop_kill_check in H.
  run_step H as st Hst. cbv zeta in H. run_if H.
  run_step H as current Hcur. run_if H.
  run_step H as chance Hchance. run_step H as u Hu.
  destruct (u <? chance)%float; [|by apply ret_Some in H as [? _]].
  apply bind_Some in H as ([] & s2 & H1 & [_ ->]%ret_Some).
  eexists. split; [|exact H1]. by apply ages_kept_same.
Qed.

(** One agent's turn keeps the bound: its age goes up by one, and it is
    removed or passes the check of [_is_dead]. *)
Lemma step_orc_ages r s s' :
  Inv s -> ages_bounded s -> step_orc r s = Some (tt, s') -> ages_bounded s'.
Proof.
  intros Hs Hb H. unfold step_orc in H.
  run_step H as st Hst. run_step H as o Ho. run_step H as pop Hpop.
  destruct (inv_store _ Hs r o Ho) as (Hid & _).
  destruct (inb (Orc.id o) pop) eqn:Hlive; simpl in H;
    [|by apply ret_Some in H as [_ ->]].
  rewrite Hid, Hpop in Hlive. apply inb_elem_of in Hlive.
  apply bind_Some in H as (u1 & s1 & H1 & H).
  apply update_orc_Some in H1 as (o0 & Ho0 & ->).
  rewrite Ho in Ho0. injection Ho0 as <-.
  set (s1 := with_objs s (<[r := Orc.tick (energy_decay st) o]> (objs s))) in *.
  apply bind_Some in H as (u2 & s2 & H2 & H).
  apply ka_apply_environment_pressure in H2.
  apply bind_Some in H as (u3 & s3 & H3 & H).
  apply ka_apply_social_context in H3.
  apply bind_Some in H as (u4 & s4 & H4 & H).
  apply ka_apply_disease in H4.
  pose proof (ages_kept_trans _ _ _ (ages_kept_trans _ _ _ H2 H3) H4) as H14.
  clear H2 H3 H4.
  (* what the agents other than [r] are in a state that kept the ages *)
  assert (Hothers : forall sx, ages_kept s1 sx ->
            forall r' o', r' ∈ population sx -> objs sx !! r' = Some o' ->
                          r' <> r ->
                          0 <= Orc.age o' <= Z.max 0 (max_age (settings sx))).
  { intros sx Hk r' o' Hr' Ho' Hne. rewrite (ak_settings _ _ Hk).
    apply (ak_population _ _ Hk) in Hr'.
    pose proof (ak_objs _ _ Hk r') as Hobj. rewrite Ho' in Hobj.
    change (objs s1) with (<[r := Orc.tick (energy_decay st) o]> (objs s))
      in Hobj.
    rewrite lookup_insert_ne in Hobj by done.
    destruct (objs s !! r') as [o1|] eqn:Ho1; [|done].
    destruct Hobj as [_ ->]. by apply (Hb r'). }
  assert (Hself : forall sx, ages_kept s1 sx ->
            exists ox, objs sx !! r = Some ox /\ Orc.id ox = r /\
                       Orc.age ox = Orc.age o + 1).
  { intros sx Hk. pose proof (ak_objs _ _ Hk r) as Hobj.
    change (objs s1) with (<[r := Orc.tick (energy_decay st) o]> (objs s))
      in Hobj.
    rewrite lookup_insert_eq in Hobj.
    destruct (objs sx !! r) as [ox|]; [|done]. exists ox.
    destruct Hobj as [-> ->]. by split. }
  assert (Hgone : forall sx, ages_kept s1 sx -> r ∉ population sx ->
                             ages_bounded sx).
  { intros sx Hk Hout r' o' Hr' Ho'. apply (Hothers sx Hk r' o' Hr' Ho').
    by intros ->. }
  apply bind_Some in H as (culled & s5 & H5 & H). destruct culled.
  { apply ret_Some in H as [_ ->].
    apply overpop_culled in H5 as (s4' & Hk & Hrm).
    pose proof (ages_kept_trans _ _ _ H14 Hk) as H14'.
    destruct (Hself _ H14') as (ox & Hox & Hidx & _).
    apply Hgone.
    - eapply ages_kept_trans; [exact H14'|]. by eapply ka_remove_orc.
    - by eapply remove_orc_out. }
  apply ka_overpop_kill_check in H5.
  pose proof (ages_kept_trans _ _ _ H14 H5) as H15. clear H14 H5.
  run_step H as o5 Ho5.
  destruct (Hself _ H15) as (ox & Hox & Hidx & Hagex).
  rewrite Ho5 in Hox. injection Hox as <-.
  destruct (_is_dead st o5) eqn:Hdead.
  { apply Hgone.
    - eapply ages_kept_trans; [exact H15|]. by eapply ka_remove_orc.
    - by eapply remove_orc_out. }
  assert (Hb5 : ages_bounded s5).
  { intros r' o' Hr' Ho'. destruct (decide (r' = r)) as [->|Hne];
      [|by apply (Hothers s5 H15 r' o')].
    rewrite Ho5 in Ho'. injection Ho' as <-.
    rewrite (ak_settings _ _ H15). change (settings s1) with (settings s).
    rewrite <- Hst. unfold _is_dead in Hdead.
    apply orb_false_iff in Hdead as [_ Hage].
    apply Z.ltb_ge in Hage. pose proof (Hb r o Hlive Ho). lia. }
  apply bind_Some in H as (reproduced & s6 & H6 & H).
  apply bears_maybe_reproduce in H6.
  pose proof (ages_born_bounded _ _ Hb5 H6) as Hb6.
  destruct reproduced; [by apply ret_Some in H as [_ ->]|].
  apply ka_take_action in H.
  eapply ages_born_bounded; [exact Hb6 | by apply ages_kept_born].
Qed.

Lemma for_each_step_orc_ages l s s' :
  Inv s -> (forall r, r ∈ l -> is_Some (objs s !! r)) ->
  ages_bounded s -> for_each l step_orc s = Some (tt, s') ->
  Inv s' /\ ages_bounded s'.
Proof.
  revert s. induction l as [|r l IH]; intros s Hs Hl Hb H; simpl in H.
  - by apply ret_Some in H as [_ ->].
  - apply bind_Some in H as ([] & s1 & H1 & H).
    destruct (step_orc_spec s r (fun _ s1 => later s s1) Hs)
      as ([] & s1' & Hrun & Hlater); [apply Hl; by left | done |].
    rewrite H1 in Hrun. injection Hrun as <-.
    apply (IH s1); [by eapply later_Inv | | by eapply step_orc_ages | done].
    intros r' Hr'. eapply later_valid; [done|]. apply Hl. by right.
Qed.

Lemma step_ages s s' :
  Inv s -> ages_bounded s -> step s = Some (tt, s') -> ages_bounded s'.
Proof.
  intros Hs Hb H. unfold step in H.
  run_step H as order Horder. run_step H as order' Hdraw.
  apply bind_Some in H as ([] & s2 & Hloop & H). injection H as <-.
  apply for_each_step_orc_ages in Hloop as [_ Hb2].
  - exact Hb2.
  - eapply same_shape_Inv; [|done]. apply same_shape_with_rng.
  - intros r Hr. rewrite Hdraw, shuffle_perm, Horder in Hr.
    destruct (inv_pop _ Hs r Hr) as (o & Ho & _). by exists o.
  - intros r o. apply (Hb r o).
Qed.

Lemma init_ages st rng_arg os_rng s :
  init st rng_arg os_rng = Some s -> ages_bounded s.
Proof.
  unfold init. destruct (Environment.init _ _ _) as [[e g']|]; [|done].
  simpl. destruct (_seed_initial_population _) as [[[] s1]|] eqn:Hseed; [|done].
  intros [= <-]. eapply ages_born_fresh; [|by eapply bears_seed_initial_population].
  done.
Qed.

Lemma reset_ages s s' : reset s = Some (tt, s') -> ages_bounded s'.
Proof.
  unfold reset. destruct (Environment.init _ _ _) as [[e g']|]; [|done].
  simpl. intros Hseed.
  eapply ages_born_fresh; [|by eapply bears_seed_initial_population]. done.
Qed.

(** X22: no living agent is older than [max_age].  On every state an
    engine can be in between two ticks, each registered agent has an age
    from [0] to [max_age] ([0] when [max_age] is negative). *)
Theorem living_agents_within_max_age s r :
  reachable s -> r ∈ population s ->
  exists o, objs s !! r = Some o /\
            0 <= Orc.age o <= Z.max 0 (max_age (settings s)).
Proof.
  intros Hreach Hr.
  assert (Hb : ages_bounded s).
  { clear r Hr.
    induction Hreach as [st rng_arg os_rng s Hinit | s s' Hreach IH Hstep
                        | s s' Hreach IH Hreset].
    - by eapply init_ages.
    - eapply step_ages; [by apply reachable_Inv | done..].
    - by eapply reset_ages. }
  destruct (inv_pop _ (reachable_Inv s Hreach) r Hr) as (o & Ho & _).
  exists o. split; [done|]. by apply (Hb r).
Qed.
End AgeBound.

(** ** The kinds of the agents *)

Section Kinds.
Context {R : PyRandom} {L : Libm}.
Import Simulation.
Implicit Types (s : Simulation.t) (st : SimulationSettings).

Lemma kinds_valid_same st s s' :
  settings s' = settings s -> objs s' = objs s ->
  kinds_valid st s -> kinds_valid st s'.
Proof. intros Hst Ho [? Hk]. split; [congruence|]. by rewrite Ho. Qed.

Lemma kinds_valid_insert st s r o e :
  0 <= Orc.kind o < Z.max 1 (classes st) ->
  kinds_valid st s -> kinds_valid st (with_world s (<[r := o]> (objs s)) e).
Proof.
  intros Ho [Hst Hk]. split; [done|]. intros r' o'.
  change (objs (with_world s (<[r := o]> (objs s)) e))
    with (<[r := o]> (objs s)).
  destruct (decide (r = r')) as [<-|Hne].
  - rewrite lookup_insert_eq. by intros [= <-].
  - rewrite lookup_insert_ne by done. apply Hk.
Qed.

Lemma kk_ret st {A} (a : A) : keeps_kinds st (ret a).
Proof. by intros s b s' Hs [_ ->]%ret_Some. Qed.

Lemma kk_bind st {A B} (m : M A) (k : A -> M B) :
  keeps_kinds st m -> (forall a, keeps_kinds st (k a)) ->
  keeps_kinds st (bind m k).
Proof.
  intros Hm Hk s b s' Hs (a & s1 & H1 & H2)%bind_Some.
  eapply Hk; [|done]. by eapply Hm.
Qed.

Lemma kk_gets st {A} (f : t -> A) : keeps_kinds st (gets f).
Proof. by intros s b s' Hs [_ ->]%gets_Some. Qed.

Lemma kk_read st {A} (f : t -> option A) : keeps_kinds st (read f).
Proof. by intros s b s' Hs [_ ->]%read_Some. Qed.

Lemma kk_deref st r : keeps_kinds st (deref r).
Proof. apply kk_read. Qed.

Lemma kk_draw st {A} (f : rng_state -> A * rng_state) :
  keeps_kinds st (draw f).
Proof.
  intros s b s' Hs [_ ->]%draw_Some. by eapply kinds_valid_same; [| |exact Hs].
Qed.

Lemma kk_draw_opt st {A} (f : rng_state -> option (A * rng_state)) :
  keeps_kinds st (draw_opt f).
Proof.
  intros s b s' Hs (g & _ & ->)%draw_opt_Some.
  by eapply kinds_valid_same; [| |exact Hs].
Qed.

(** A bind that keeps what it read: the settings, an agent of the store, a
    draw. *)
Lemma kk_bind_settings st {B} (k : SimulationSettings -> M B) :
  keeps_kinds st (k st) -> keeps_kinds st (bind (gets settings) k).
Proof.
  intros Hk s b s' Hs (a & s1 & [-> ->]%gets_Some & H2)%bind_Some.
  eapply Hk; [done|]. destruct Hs as [Hst _]. by rewrite <- Hst.
Qed.

Lemma kk_bind_deref st {B} r (k : Orc.t -> M B) :
  (forall o, 0 <= Orc.kind o < Z.max 1 (classes st) -> keeps_kinds st (k o)) ->
  keeps_kinds st (bind (deref r) k).
Proof.
  intros Hk s b s' Hs (o & s1 & [Ho ->]%deref_Some & H2)%bind_Some.
  eapply Hk; [|done..]. destruct Hs as [_ Hkinds]. by eapply Hkinds.
Qed.

Lemma kk_bind_draw st {A B} (f : rng_state -> A * rng_state) (k : A -> M B) :
  (forall g, keeps_kinds st (k (f g).1)) -> keeps_kinds st (bind (draw f) k).
Proof.
  intros Hk s b s' Hs (a & s1 & [-> ->]%draw_Some & H2)%bind_Some.
  eapply Hk; [|done]. by eapply kinds_valid_same; [| |exact Hs].
Qed.

Lemma kk_update_orc st r f : keeps_kind f -> keeps_kinds st (update_orc r f).
Proof.
  intros Hf s b s' Hs (o & Ho & ->)%update_orc_Some.
  apply kinds_valid_insert; [|done]. rewrite Hf. destruct Hs as [_ Hk].
  by eapply Hk.
Qed.

Lemma kk_new_orc st c :
  0 <= Orc.kind c < Z.max 1 (classes st) -> keeps_kinds st (new_orc c).
Proof.
  intros Hc s b s' Hs H. injection H as _ <-. by apply kinds_valid_insert.
Qed.

Lemma kk_next_id st :
  keeps_kinds st (fun s => Some (tt, with_next_id s (_next_id s + 1))).
Proof.
  intros s b s' Hs H. injection H as _ <-.
  by eapply kinds_valid_same; [| |exact Hs].
Qed.

Lemma kk_tick st :
  keeps_kinds st (fun s => Some (tt, with_tick s (tick s + 1))).
Proof.
  intros s b s' Hs H. injection H as _ <-.
  by eapply kinds_valid_same; [| |exact Hs].
Qed.

Lemma kk_dict_set st k : keeps_kinds st (dict_set k).
Proof.
  intros s b s' Hs H. injection H as _ <-.
  by eapply kinds_valid_same; [| |exact Hs].
Qed.

Lemma kk_dict_pop st k : keeps_kinds st (dict_pop k).
Proof.
  intros s b s' Hs H. injection H as _ <-.
  by eapply kinds_valid_same; [| |exact Hs].
Qed.

Lemma kk_place st r dest : keeps_kinds st (place r dest).
Proof.
  intros s b s' Hs (o & g' & Ho & _ & ->)%place_Some.
  apply kinds_valid_insert; [|done]. exact (proj2 Hs r o Ho).
Qed.

Lemma kk_move st r dest : keeps_kinds st (move r dest).
Proof.
  intros s b s' Hs. unfold move, Environment.move. destruct dest as [dx dy].
  destruct (Environment.in_bounds _ _ _); simpl.
  - destruct (objs s !! r) as [o|] eqn:Ho; [|done].
    destruct (Orc.position o) as [sx sy].
    destruct (Environment.get _ _ _) as [[t|]|]; [| |done].
    + intros [= _ <-]. by eapply kinds_valid_same; [| |exact Hs].
    + destruct (Py.setitem2 _ _ _ _) as [g1|]; [|done].
      destruct (Py.setitem2 _ _ _ _) as [g2|]; [|done].
      intros [= _ <-]. apply kinds_valid_insert; [|done].
      exact (proj2 Hs r o Ho).
  - intros [= _ <-]. by eapply kinds_valid_same; [| |exact Hs].
Qed.

Lemma kk_remove_orc st r : keeps_kinds st (_remove_orc r).
Proof.
  unfold _remove_orc. apply kk_bind; [|intros _; apply kk_bind;
    [apply kk_deref | intros o; apply kk_dict_pop]].
  intros s b s' Hs. unfold Environment.remove.
  destruct (objs s !! r) as [o|]; [|done].
  destruct (Orc.position o) as [x y].
  destruct (Environment.get _ _ _) as [c|]; [|done].
  destruct (decide _).
  - destruct (Py.setitem2 _ _ _ _) as [g1|]; [|done].
    intros [= _ <-]. by eapply kinds_valid_same; [| |exact Hs].
  - intros [= _ <-]. by eapply kinds_valid_same; [| |exact Hs].
Qed.

Lemma kk_for_each st {A} (l : list A) (body : A -> M unit) :
  (forall x, keeps_kinds st (body x)) -> keeps_kinds st (for_each l body).
Proof.
  intros Hbody. induction l as [|x l IH]; simpl.
  - apply kk_ret.
  - apply kk_bind; [apply Hbody | by intros _].
Qed.

Lemma kk_for_collect st {A B} (l : list A) (body : A -> M B) :
  (forall x, keeps_kinds st (body x)) -> keeps_kinds st (for_collect l body).
Proof.
  intros Hbody. induction l as [|x l IH]; simpl.
  - apply kk_ret.
  - apply kk_bind; [apply Hbody | intros b].
    apply kk_bind; [apply IH | intros bs; apply kk_ret].
Qed.

Lemma clone_kind (o : Orc.t) (rate scale : float) (nid : Z) (g : rng_state) :
  Orc.kind (Orc.clone_with_mutation o rate scale nid g).1 = Orc.kind o.
Proof. by destruct (clone_shape o rate scale nid g) as (_ & _ & ? & _). Qed.

Lemma kind_for_biome_valid st biome :
  0 <= _kind_for_biome st biome < Z.max 1 (classes st).
Proof. unfold _kind_for_biome. apply Z.mod_pos_bound. lia. Qed.
End Kinds.

Create HintDb kinds.
#[global] Hint Resolve kk_ret kk_gets kk_read kk_deref kk_draw kk_draw_opt
  kk_next_id kk_tick kk_dict_set kk_dict_pop kk_place kk_move kk_remove_orc
  : kinds.

Ltac kk_step :=
  first
    [ solve [eauto with kinds]
    | apply kk_update_orc; solve [intros ?; reflexivity]
    | apply kk_new_orc;
        solve [ apply kind_for_biome_valid | rewrite clone_kind; assumption ]
    | apply kk_bind_settings
    | apply kk_bind_deref; intros ? ?
    | apply kk_bind_draw; intros ?
    | apply kk_bind; [|intros ?]
    | apply kk_for_each; intros ?
    | apply kk_for_collect; intros ?
    | match goal with
      | |- keeps_kinds _ (if ?b then _ else _) => destruct b
      | |- keeps_kinds _ (match ?x with _ => _ end) => destruct x
      end ].
Ltac kk := repeat kk_step.

Section KindMethods.
Context {R : PyRandom} {L : Libm}.
Import Simulation.
Implicit Types (s : Simulation.t) (st : SimulationSettings).

Lemma kk_apply_kind_modifiers st r : keeps_kinds st (_apply_kind_modifiers r).
Proof. unfold _apply_kind_modifiers. kk. Qed.
#[local] Hint Resolve kk_apply_kind_modifiers : kinds.
Lemma kk_spawn_orc st c : keeps_kinds st (_spawn_orc c).
Proof. unfold _spawn_orc. kk. Qed.
Lemma kk_seed_initial_population st : keeps_kinds st _seed_initial_population.
Proof.
  unfold _seed_initial_population. apply kk_bind_settings.
  apply kk_bind; [apply kk_read | intros target].
  apply kk_bind; [apply kk_draw | intros coords].
  apply kk_for_each. intros c.
  apply kk_bind; [apply kk_spawn_orc | intros _; apply kk_ret].
Qed.
Lemma kk_apply_environment_pressure st r :
  keeps_kinds st (_apply_environment_pressure r).
Proof. unfold _apply_environment_pressure. kk. Qed.
Lemma kk_apply_social_context st r : keeps_kinds st (_apply_social_context r).
Proof. unfold _apply_social_context. kk. Qed.
Lemma kk_spread_to st st' c : keeps_kinds st (spread_to st' c).
Proof. unfold spread_to. kk. Qed.
#[local] Hint Resolve kk_spread_to : kinds.
Lemma kk_apply_disease st r : keeps_kinds st (_apply_disease r).
Proof. unfold _apply_disease. kk. Qed.
Lemma kk_overpop_kill_check st r : keeps_kinds st (_overpop_kill_check r).
Proof. unfold _overpop_kill_check. kk. Qed.
Lemma kk_maybe_reproduce st r : keeps_kinds st (_maybe_reproduce r).
Proof. unfold _maybe_reproduce. kk. Qed.
Lemma kk_forage st r f : keeps_kinds st (_forage r f).
Proof. unfold _forage. kk. Qed.
Lemma kk_should_attack st c d : keeps_kinds st (_should_attack c d).
Proof. unfold _should_attack. kk. Qed.
Lemma kk_desirability_of st r o cs tv fa lp ls c :
  keeps_kinds st (desirability_of r o cs tv fa lp ls c).
Proof. unfold desirability_of. kk. Qed.
#[local] Hint Resolve kk_desirability_of : kinds.
Lemma kk_choose_move_target st r e : keeps_kinds st (_choose_move_target r e).
Proof. unfold _choose_move_target. kk. Qed.
Lemma kk_fight_scores st c d : keeps_kinds st (fight_scores c d).
Proof. unfold fight_scores. kk. Qed.
Lemma kk_remove_if_exhausted st r : keeps_kinds st (remove_if_exhausted r).
Proof. unfold remove_if_exhausted. kk. Qed.
#[local] Hint Resolve kk_fight_scores kk_remove_if_exhausted : kinds.
Lemma kk_resolve_fight st c d : keeps_kinds st (_resolve_fight c d).
Proof. unfold _resolve_fight. kk. Qed.
#[local] Hint Resolve kk_forage kk_should_attack kk_choose_move_target
  kk_resolve_fight : kinds.
Lemma kk_take_action st r : keeps_kinds st (_take_action r).
Proof. unfold _take_action. kk. Qed.
#[local] Hint Resolve kk_apply_environment_pressure kk_apply_social_context
  kk_apply_disease kk_overpop_kill_check kk_maybe_reproduce kk_take_action
  : kinds.
Lemma kk_step_orc st r : keeps_kinds st (step_orc r).
Proof. unfold step_orc. kk. Qed.
Lemma kk_step st : keeps_kinds st step.
Proof.
  unfold step. apply kk_bind; [apply kk_gets | intros ?].
  apply kk_bind; [apply kk_draw | intros ?].
  apply kk_bind; [apply kk_for_each, kk_step_orc | intros _; apply kk_tick].
Qed.

Lemma seeded_kinds_valid st g e s' :
  _seed_initial_population (mk st g e ∅ [] 0 1) = Some (tt, s') ->
  kinds_valid st s'.
Proof.
  intros Hseed. eapply kk_seed_initial_population; [|exact Hseed].
  split; [done|]. intros r o Ho.
  change (objs (mk st g e ∅ [] 0 1)) with (∅ : gmap Z Orc.t) in Ho.
  by rewrite lookup_empty in Ho.
Qed.

Lemma reachable_kinds_valid s : reachable s -> kinds_valid (settings s) s.
Proof.
  induction 1 as [st rng_arg os_rng s Hinit | s s' _ IH Hstep | s s' _ IH Hreset].
  - unfold init in Hinit.
    destruct (Environment.init _ _ _) as [[e g']|]; [|done]. simpl in Hinit.
    destruct (_seed_initial_population _) as [[[] s1]|] eqn:Hseed; [|done].
    injection Hinit as <-. apply seeded_kinds_valid in Hseed.
    by rewrite (proj1 Hseed).
  - pose proof (kk_step _ _ _ _ IH Hstep) as Hk. by rewrite (proj1 Hk).
  - unfold reset in Hreset.
    destruct (Environment.init _ _ _) as [[e g']|]; [|done]. simpl in Hreset.
    apply seeded_kinds_valid in Hreset. by rewrite (proj1 Hreset).
Qed.

(** X23: the kind of an agent is a class of the settings.  On every state
    an engine can be in between two ticks, each registered agent has a
    kind from [0] to [max(1, classes) - 1]. *)
Theorem kinds_are_classes s r :
  reachable s -> r ∈ population s ->
  exists o, objs s !! r = Some o /\
            0 <= Orc.kind o < Z.max 1 (classes (settings s)).
Proof.
  intros Hreach Hr.
  destruct (inv_pop _ (reachable_Inv s Hreach) r Hr) as (o & Ho & _).
  exists o. split; [done|].
  by apply (proj2 (reachable_kinds_valid s Hreach) r).
Qed.
End KindMethods.

(** ** Counting by kind *)

Section Counts.
Context {R : PyRandom} {L : Libm}.
Import Simulation.
Implicit Types (s : Simulation.t).

Lemma sum_insert (l : list Z) (i : nat) (c : Z) :
  l !! i = Some c ->
  foldr Z.add 0 (<[i := c + 1]> l) = foldr Z.add 0 l + 1.
Proof.
  revert i. induction l as [|x l IH]; intros [|i] Hi; simpl in *; try done.
  - injection Hi as ->. lia.
  - rewrite (IH i Hi). lia.
Qed.

(** The loop of [counts_by_kind] against the loops of [_kind_count], on
    agents whose kinds are below the number of counters. *)
Lemma count_loop s (l : list Z) (counts : list Z) :
  (0 < length counts)%nat ->
  (forall r, r ∈ l -> exists o, objs s !! r = Some o /\
                                0 <= Orc.kind o < Z.of_nat (length counts)) ->
  exists counts',
    Py.foldM (fun counts r =>
                let? o := objs s !! r in
                let idx := Orc.kind o mod Z.of_nat (length counts) in
                let? c := Py.index counts idx in
                Py.setitem counts idx (c + 1)) counts l = Some counts' /\
    length counts' = length counts /\
    foldr Z.add 0 counts' = foldr Z.add 0 counts + Z.of_nat (length l) /\
    forall k a, 0 <= k < Z.of_nat (length counts) ->
      Py.index counts k = Some a ->
      exists c, Py.index counts' k = Some c /\
        Py.foldM (fun n r =>
                    let? o := objs s !! r in
                    Some (if Orc.kind o =? k then n + 1 else n)) a l = Some c.
Proof.
  revert counts. induction l as [|r l IH]; intros counts Hlen Hl.
  - exists counts. simpl. split_and!; [done | done | lia |].
    intros k a _ Ha. by exists a.
  - destruct (Hl r) as (o & Ho & Hkind); [by left|].
    simpl. rewrite Ho. simpl. rewrite (Z.mod_small _ _ Hkind).
    destruct (index_is_Some counts (Orc.kind o) Hkind) as [c Hc].
    rewrite Hc. simpl. rewrite (setitem_in_range _ _ _ Hkind).
    rewrite (index_in_range _ _ Hkind) in Hc.
    set (counts1 := <[Z.to_nat (Orc.kind o) := c + 1]> counts).
    assert (Hlen1 : length counts1 = length counts) by apply length_insert.
    destruct (IH counts1) as (counts' & Hrun & Hlen' & Hsum & Hk).
    { by rewrite Hlen1. }
    { intros r' Hr'. rewrite Hlen1. apply Hl. by right. }
    exists counts'. rewrite Hlen1 in *. split_and!; [done | done | |].
    + rewrite Hsum. unfold counts1. rewrite (sum_insert _ _ _ Hc). lia.
    + intros k a Hkr Ha. rewrite (index_in_range _ _ Hkr) in Ha.
      destruct (Z.eqb_spec (Orc.kind o) k) as [Heq|Hne].
      * subst k. rewrite Hc in Ha. injection Ha as <-.
        apply (Hk (Orc.kind o) (c + 1) Hkr).
        rewrite index_in_range by (rewrite Hlen1; lia).
        apply list_lookup_insert_eq. lia.
      * apply (Hk k a Hkr).
        rewrite index_in_range by (rewrite Hlen1; lia).
        unfold counts1. rewrite list_lookup_insert_ne by lia. done.
Qed.

(** X24: between two ticks [counts_by_kind()] returns one counter per
    class, [max(1, classes)] of them; the counters add up to the size of
    the population, and the counter of a class is what [_kind_count]
    returns for it. *)
Theorem counts_by_kind_counts s :
  reachable s ->
  exists counts,
    counts_by_kind s = Some counts /\
    Z.of_nat (length counts) = Z.max 1 (classes (settings s)) /\
    foldr Z.add 0 counts = Z.of_nat (length (population s)) /\
    forall k, 0 <= k < Z.max 1 (classes (settings s)) ->
      exists c, Py.index counts k = Some c /\ _kind_count s k = Some c.
Proof.
  intros Hreach. unfold counts_by_kind, _kind_count.
  set (n := Z.max 1 (classes (settings s))).
  set (counts0 := (fun _ : Z => 0) <$> Py.range 0 n).
  assert (Hlen0 : Z.of_nat (length counts0) = n).
  { unfold counts0. rewrite length_fmap, length_range. lia. }
  assert (Hzero : forall c, c ∈ counts0 -> c = 0).
  { intros c (x & -> & _)%list_elem_of_fmap. done. }
  assert (Hsum0 : foldr Z.add 0 counts0 = 0).
  { clear Hlen0. induction counts0 as [|c l IH]; simpl; [done|].
    rewrite (Hzero c) by (by left). rewrite IH; [done|].
    intros c' Hc'. apply Hzero. by right. }
  destruct (count_loop s (population s) counts0)
    as (counts & Hrun & Hlen & Hsum & Hk).
  { lia. }
  { intros r Hr. rewrite Hlen0.
    destruct (inv_pop _ (reachable_Inv s Hreach) r Hr) as (o & Ho & _).
    exists o. split; [done|].
    by apply (proj2 (reachable_kinds_valid s Hreach) r). }
  exists counts. split_and!; [done | by rewrite Hlen | lia |].
  intros k Hkr. rewrite <- Hlen0 in Hkr.
  destruct (index_is_Some counts0 k Hkr) as [a Ha].
  assert (a = 0) as -> by (by eapply Hzero, index_elem_of).
  by apply Hk.
Qed.
End Counts.

(** ** What an action leaves alone *)

Section Actions.
Context {R : PyRandom} {L : Libm}.
Import Simulation.
Implicit Types (s : Simulation.t).

End Actions.

(** ** When the construction returns *)

Section Construction.
Context {R : PyRandom} {L : Libm}.
Import Simulation.
Implicit Types (s : Simulation.t).

(** X26: the construction of an engine returns exactly when the grid has
    at least one cell and [int(width * height * initial_orc_ratio)] is
    defined, that is, the product is a finite float: an empty grid raises in
    the environment, and a ratio that is [nan] or infinite raises in
    [int]. *)
Theorem construction_returns_iff st rng_arg os_rng :
  is_Some (init st rng_arg os_rng) <->
  0 < grid_width st /\ 0 < grid_height st /\
  is_Some (Py.int_of_float
             (Py.float_of_int (grid_width st * grid_height st)
              * initial_orc_ratio st)).
Proof.
  unfold init. set (g := match rng_arg with Some _ => _ | None => _ end).
  split.
  - intros [s Hinit].
    destruct (Environment.init (grid_width st) (grid_height st) g)
      as [[e g1]|] eqn:He; [|done].
    destruct (env_init_positive _ _ _ _ _ He) as [Hw Hh].
    split; [done|]. split; [done|].
    destruct (_seed_initial_population _) as [[[] s0]|] eqn:Hseed; [|done].
    unfold _seed_initial_population in Hseed.
    run_step Hseed as st0 Hst0. simpl in Hst0. subst st0.
    run_step Hseed as target Ht. simpl in Ht. by exists target.
  - intros (Hw & Hh & Ht).
    destruct (env_init_spec (grid_width st) (grid_height st) g Hw Hh)
      as (e & g' & -> & Hwf & Hew & Heh & Hnone).
    destruct (seed_initial_population_spec (mk st g' e ∅ [] 0 1))
      as ([] & s' & Hs' & _).
    + by apply fresh_Inv.
    + done.
    + rewrite Hs'. by exists s'.
Qed.
End Construction.

(** ** Unchecked coordinates and ids *)

Section Indexing.
Context {R : PyRandom} {L : Libm}.
Import Simulation.
Implicit Types (s : Simulation.t) (e : Environment.t).

Lemma index_wrap {A} (l : list A) (i : Z) :
  - Z.of_nat (length l) <= i < Z.of_nat (length l) ->
  is_Some (Py.index l i) /\
  Py.index l i = Py.index l (i mod Z.of_nat (length l)).
Proof.
  intros Hi. destruct (Z.leb_spec 0 i) as [Hpos|Hneg].
  - rewrite Z.mod_small by lia. split; [|done]. apply index_is_Some. lia.
  - assert (Hmod : i mod Z.of_nat (length l) = Z.of_nat (length l) + i).
    { rewrite <- (Z.mod_add i 1) by lia. rewrite Z.mod_small by lia. lia. }
    rewrite Hmod.
    assert (Heq : Py.index l i = Py.index l (Z.of_nat (length l) + i)).
    { unfold Py.index.
      destruct (Z.leb_spec 0 i); [lia|].
      destruct (Z.leb_spec 0 (Z.of_nat (length l) + i)); [done | lia]. }
    split; [|done]. rewrite Heq. apply index_is_Some. lia.
Qed.

Lemma index_out {A} (l : list A) (i : Z) :
  i < - Z.of_nat (length l) \/ Z.of_nat (length l) <= i ->
  Py.index l i = None.
Proof.
  intros Hi. unfold Py.index. destruct (Z.leb_spec 0 i).
  - apply lookup_ge_None. lia.
  - destruct (Z.leb_spec 0 (Z.of_nat (length l) + i)); [lia | done].
Qed.

(** X27: [get] does not check the bounds, and the lists do it the Python
    way.  On a well-formed grid a coordinate from [-width] to [width - 1]
    and from [-height] to [height - 1] reads a cell, for a negative one the
    cell counted back from the far edge; any other coordinate raises. *)
Theorem get_wraps_negative e x y :
  env_wf e ->
  (- Environment.width e <= x < Environment.width e ->
   - Environment.height e <= y < Environment.height e ->
   is_Some (Environment.get e x y) /\
   Environment.get e x y
     = Environment.get e (x mod Environment.width e)
                         (y mod Environment.height e)) /\
  (x < - Environment.width e \/ Environment.width e <= x \/
   y < - Environment.height e \/ Environment.height e <= y ->
   Environment.get e x y = None).
Proof.
  intros He. destruct (wf_grid _ He) as [Hlen Hrows].
  rewrite Forall_forall in Hrows.
  unfold Environment.get, Py.index2. split.
  - intros Hx Hy.
    assert (Hh : Z.of_nat (length (Environment._grid e)) = Environment.height e)
      by lia.
    destruct (index_wrap (Environment._grid e) y) as [[row Hrow] Hwrap];
      [lia|].
    rewrite <- Hh, <- Hwrap, Hrow. simpl.
    assert (Hw : Z.of_nat (length row) = Environment.width e).
    { rewrite (Hrows row) by (by eapply index_elem_of). lia. }
    destruct (index_wrap row x) as [Hsome Hwrap']; [lia|].
    by rewrite <- Hw.
  - intros Hout.
    destruct (Py.index (Environment._grid e) y) as [row|] eqn:Hrow; [|done].
    simpl.
    assert (Hw : length row = Z.to_nat (Environment.width e)).
    { apply Hrows. by eapply index_elem_of. }
    destruct (decide (- Environment.height e <= y < Environment.height e))
      as [Hy|Hy].
    + apply index_out. lia.
    + rewrite index_out in Hrow; [done | lia].
Qed.

(** X28: the ids of the living are distinct and below the counter.
    Between two ticks the population lists no id twice, every id of it is
    below [_next_id], and the agent registered under an id carries that
    id. *)
Theorem ids_below_counter s :
  reachable s ->
  NoDup (population s) /\
  forall r, r ∈ population s ->
    r < _next_id s /\ exists o, objs s !! r = Some o /\ Orc.id o = r.
Proof.
  intros Hreach. pose proof (reachable_Inv s Hreach) as Hs.
  split; [apply Hs|]. intros r Hr.
  destruct (inv_pop _ Hs r Hr) as (o & Ho & _).
  destruct (inv_store _ Hs r o Ho) as (Hid & _ & Hlt).
  split; [done|]. by exists o.
Qed.
End Indexing.

(** ** The further properties on the engines of the examples *)

Lemma neighbors_split_witness :
  exists emp occ,
    Environment.empty_neighbors (Simulation.environment demo_engine) 2 0
      = Some emp /\
    Environment.occupied_neighbors (Simulation.environment demo_engine) 2 0
      = Some occ /\
    emp ++ occ ≡ₚ Environment.neighbors (Simulation.environment demo_engine) 2 0.
Proof.
  assert (Hs : Inv demo_engine).
  { apply (init_Inv (R := lcg_random) demo_settings None 0). reflexivity. }
  destruct (neighbors_split (Simulation.environment demo_engine) 2 0
              (inv_env _ Hs)) as (emp & occ & H1 & H2 & _ & _ & H3).
  exists emp, occ. split; [exact H1|]. split; [exact H2 | exact H3].
Defined.

Lemma place_outcomes_witness :
  let e := Simulation.environment demo_engine in
  let h := Simulation.objs demo_engine in
  Environment.place 1 5 5 h e = None /\
  Environment.place 1 1 0 h e = None /\
  exists o g',
    h !! 1 = Some o /\
    Environment.place 1 0 0 h e
      = Some (<[1 := Orc.with_position o (0, 0)]> h, Environment.with_grid e g').
Proof.
  intros e h.
  assert (Hs : Inv demo_engine).
  { apply (init_Inv (R := lcg_random) demo_settings None 0). reflexivity. }
  pose proof (inv_env _ Hs : env_wf e) as He.
  split; [|split].
  - exact (proj1 (place_outcomes e h 1 _ 5 5 He eq_refl) eq_refl).
  - exact (proj1 (proj2 (place_outcomes e h 1 _ 1 0 He eq_refl)) 2 eq_refl
             eq_refl).
  - destruct (proj2 (proj2 (place_outcomes e h 1 _ 0 0 He eq_refl))
                eq_refl eq_refl) as (g' & Hp & _).
    eexists _, g'. split; [reflexivity | exact Hp].
Defined.

Lemma move_outcomes_witness :
  let e := Simulation.environment demo_engine in
  let h := Simulation.objs demo_engine in
  Environment.move 1 (9, 9) h e = Some (h, e) /\
  Environment.move 1 (1, 0) h e = Some (h, e) /\
  exists o g',
    h !! 1 = Some o /\
    Environment.move 1 (2, 1) h e
      = Some (<[1 := Orc.with_position o (2, 1)]> h, Environment.with_grid e g').
Proof.
  intros e h.
  assert (Hs : Inv demo_engine).
  { apply (init_Inv (R := lcg_random) demo_settings None 0). reflexivity. }
  pose proof (inv_env _ Hs : env_wf e) as He.
  destruct (inv_store _ Hs 1 _ eq_refl) as (_ & Hin & _).
  split; [|split].
  - exact (proj1 (move_outcomes e h 1 _ 9 9 He eq_refl Hin) eq_refl).
  - exact (proj1 (proj2 (move_outcomes e h 1 _ 1 0 He eq_refl Hin)) 2 eq_refl).
  - destruct (proj2 (proj2 (move_outcomes e h 1 _ 2 1 He eq_refl Hin))
                eq_refl eq_refl) as (g' & Hp & _).
    eexists _, g'. split; [reflexivity | exact Hp].
Defined.

Lemma remove_outcomes_witness :
  let e := Simulation.environment demo_engine in
  exists g',
    Environment.remove 1 (Simulation.objs demo_engine) e
      = Some (Environment.with_grid e g') /\
    Environment.get (Environment.with_grid e g') 2 0 = Some None /\
    Environment.get (Environment.with_grid e g') 1 0 = Some (Some 2).
Proof.
  intros e. set (h := Simulation.objs demo_engine).
  assert (Hs : Inv demo_engine).
  { apply (init_Inv (R := lcg_random) demo_settings None 0). reflexivity. }
  pose proof (inv_env _ Hs : env_wf e) as He.
  destruct (inv_store _ Hs 1 _ eq_refl) as (_ & Hin & _).
  pose proof (remove_outcomes e h 1 _ He eq_refl Hin) as H.
  simpl in H. destruct H as [H _].
  destruct (H eq_refl) as (g' & Hrm & _ & Hcells).
  exists g'. split; [exact Hrm|]. split.
  - exact (Hcells 2 0 eq_refl).
  - exact (Hcells 1 0 eq_refl).
Defined.

Lemma place_then_remove_witness :
  let e := Simulation.environment demo_engine in
  exists h1 e1 e2,
    Environment.place 1 0 0 (Simulation.objs demo_engine) e = Some (h1, e1) /\
    Environment.remove 1 h1 e1 = Some e2 /\
    forall px py, Environment.in_bounds e px py = true ->
      Environment.get e2 px py = Environment.get e px py.
Proof.
  intros e. set (h := Simulation.objs demo_engine).
  assert (Hs : Inv demo_engine).
  { apply (init_Inv (R := lcg_random) demo_settings None 0). reflexivity. }
  exact (place_then_remove e h 1 _ 0 0 (inv_env _ Hs) eq_refl eq_refl
           eq_refl).
Defined.

Lemma environment_built_witness :
  exists e g',
    Environment.init (R := lcg_random) 4 3 42 = Some (e, g') /\
    Environment.width e = 4 /\ Environment.height e = 3 /\
    Environment.get e 3 2 = Some None /\
    exists k, Environment.biome_at e 3 2 = Some k /\ (k = 0 \/ k = 1 \/ k = 2).
Proof.
  destruct (environment_built (R := lcg_random) 4 3 42)
    as (e & g' & Hrun & Hw & Hh & Hcells); [lia | lia |].
  exists e, g'. split; [exact Hrun|]. split; [exact Hw|]. split; [exact Hh|].
  destruct (Hcells 3 2) as (Hnone & _ & _ & Hb).
  - unfold Environment.in_bounds. rewrite Hw, Hh. reflexivity.
  - split; [exact Hnone | exact Hb].
Defined.

Lemma environment_needs_a_cell_witness :
  is_Some (Environment.init (R := lcg_random) 4 3 42) /\
  Environment.init (R := lcg_random) 0 3 42 = None.
Proof.
  split.
  - apply (environment_needs_a_cell (R := lcg_random) 4 3 42). lia.
  - destruct (Environment.init (R := lcg_random) 0 3 42) as [p|] eqn:Hrun;
      [|reflexivity].
    assert (Hcell : 0 < 0 /\ 0 < 3); [|lia].
    apply (environment_needs_a_cell (R := lcg_random) 0 3 42).
    rewrite Hrun. exists p. reflexivity.
Defined.

Lemma population_fits_grid_witness :
  Z.of_nat (length (Simulation.population demo_step))
    <= grid_width (Simulation.settings demo_step)
       * grid_height (Simulation.settings demo_step).
Proof.
  apply (population_fits_grid (R := lcg_random) (L := sqrt_libm) demo_step).
  apply (reach_step demo_engine); [|reflexivity].
  apply (reach_init (R := lcg_random) demo_settings None 0). reflexivity.
Defined.

Lemma metrics_counts_witness :
  exists m, Simulation.metrics demo_step = Some m /\
    SimulationMetrics.tick m = Simulation.tick demo_step /\
    SimulationMetrics.population m
      = Z.of_nat (length (Simulation.population demo_step)).
Proof.
  apply (metrics_counts (R := lcg_random) (L := sqrt_libm) demo_step).
  apply (reach_step demo_engine); [|reflexivity].
  apply (reach_init (R := lcg_random) demo_settings None 0). reflexivity.
Defined.


Lemma remove_orc_effect_witness :
  exists s',
    Simulation._remove_orc 1 demo_engine = Some (tt, s') /\
    Simulation.population s'
      = filter (fun j => j <> 1) (Simulation.population demo_engine) /\
    consistent s' /\
    Simulation._remove_orc 1 s' = Some (tt, s').
Proof.
  assert (Hs : Inv demo_engine).
  { apply (init_Inv (R := lcg_random) demo_settings None 0). reflexivity. }
  destruct (remove_orc_effect (R := lcg_random) demo_engine 1 _ Hs eq_refl)
    as (s' & Hrun & Hpop & _ & _ & _ & Hc & Hagain).
  exists s'. split; [exact Hrun|]. split; [exact Hpop|].
  split; [exact Hc | exact Hagain].
Defined.







Lemma pick_target_other_kind_witness :
  exists res,
    Simulation._pick_target demo_step 2 [(1, 0); (0, 1)] = Some res /\
    forall p, res = Some p -> p ∈ [(1, 0); (0, 1)].
Proof.
  assert (Hs : Inv demo_step).
  { apply (reachable_Inv (R := lcg_random) (L := sqrt_libm)).
    apply (reach_step demo_engine); [|reflexivity].
    apply (reach_init (R := lcg_random) demo_settings None 0). reflexivity. }
  destruct (pick_target_other_kind (R := lcg_random) demo_step 2 _
              [(1, 0); (0, 1)] Hs eq_refl) as (res & Hrun & Hres & _).
  - intros p Hp. apply elem_of_cons in Hp as [-> | Hp];
      [|apply list_elem_of_singleton in Hp as ->]; split; simpl; lia.
  - exists res. split; [exact Hrun|]. intros p Hp. by destruct (Hres p Hp).
Defined.

Lemma iter_orcs_is_population_witness :
  Environment.iter_orcs (Simulation.environment demo_step)
    ≡ₚ Simulation.population demo_step.
Proof.
  apply (iter_orcs_is_population (R := lcg_random) (L := sqrt_libm) demo_step).
  apply (reach_step demo_engine); [|reflexivity].
  apply (reach_init (R := lcg_random) demo_settings None 0). reflexivity.
Defined.

Lemma living_agents_within_max_age_witness :
  exists o, Simulation.objs demo_step !! 7 = Some o /\
            0 <= Orc.age o <= Z.max 0 (max_age (Simulation.settings demo_step)).
Proof.
  apply (living_agents_within_max_age (R := lcg_random) (L := sqrt_libm) demo_step 7).
  - apply (reach_step demo_engine); [|reflexivity].
    apply (reach_init (R := lcg_random) demo_settings None 0). reflexivity.
  - unfold demo_step. simpl. set_solver.
Defined.

Lemma kinds_are_classes_witness :
  exists o, Simulation.objs demo_step !! 7 = Some o /\
            0 <= Orc.kind o < Z.max 1 (classes (Simulation.settings demo_step)).
Proof.
  apply (kinds_are_classes (R := lcg_random) (L := sqrt_libm) demo_step 7).
  - apply (reach_step demo_engine); [|reflexivity].
    apply (reach_init (R := lcg_random) demo_settings None 0). reflexivity.
  - unfold demo_step. simpl. set_solver.
Defined.

Lemma counts_by_kind_counts_witness :
  exists counts,
    Simulation.counts_by_kind demo_step = Some counts /\
    Z.of_nat (length counts) = 3 /\
    foldr Z.add 0 counts = Z.of_nat (length (Simulation.population demo_step)).
Proof.
  destruct (counts_by_kind_counts (R := lcg_random) (L := sqrt_libm) demo_step)
    as (counts & Hrun & Hlen & Hsum & _).
  - apply (reach_step demo_engine); [|reflexivity].
    apply (reach_init (R := lcg_random) demo_settings None 0). reflexivity.
  - exists counts. split; [exact Hrun|]. split; [exact Hlen | exact Hsum].
Defined.


Lemma construction_returns_iff_witness :
  is_Some (Simulation.init (R := lcg_random) demo_settings None 0) /\
  Simulation.init (R := lcg_random)
    (settings_with 0 3 0.5 3 400 0.12 0.9 (Some 42)) None 0 = None /\
  Simulation.init (R := lcg_random)
    (settings_with 4 3 infinity 3 400 0.12 0.9 (Some 42)) None 0 = None.
Proof.
  split; [|split].
  - apply (construction_returns_iff (R := lcg_random) demo_settings None 0).
    split; [reflexivity|]. split; [reflexivity|]. by eexists.
  - destruct (Simulation.init (R := lcg_random)
                (settings_with 0 3 0.5 3 400 0.12 0.9 (Some 42)) None 0)
      as [s|] eqn:Hrun; [|reflexivity].
    assert (H : is_Some (Simulation.init (R := lcg_random)
                (settings_with 0 3 0.5 3 400 0.12 0.9 (Some 42)) None 0))
      by (rewrite Hrun; by eexists).
    apply construction_returns_iff in H as [H _]. discriminate H.
  - destruct (Simulation.init (R := lcg_random)
                (settings_with 4 3 infinity 3 400 0.12 0.9 (Some 42)) None 0)
      as [s|] eqn:Hrun; [|reflexivity].
    assert (H : is_Some (Simulation.init (R := lcg_random)
                (settings_with 4 3 infinity 3 400 0.12 0.9 (Some 42)) None 0))
      by (rewrite Hrun; by eexists).
    apply construction_returns_iff in H as (_ & _ & [t Ht]). discriminate Ht.
Defined.

Lemma get_wraps_negative_witness :
  let e := Simulation.environment demo_engine in
  Environment.get e (-1) (-1) = Environment.get e 3 2 /\
  Environment.get e 4 0 = None.
Proof.
  intros e.
  assert (Hs : Inv demo_engine).
  { apply (init_Inv (R := lcg_random) demo_settings None 0). reflexivity. }
  destruct (get_wraps_negative e (-1) (-1) (inv_env _ Hs)) as [Hin _].
  destruct (get_wraps_negative e 4 0 (inv_env _ Hs)) as [_ Hout].
  split.
  - apply Hin; unfold e, demo_engine; simpl; lia.
  - apply Hout. right. left. unfold e, demo_engine. simpl. lia.
Defined.

Lemma ids_below_counter_witness :
  NoDup (Simulation.population demo_step) /\
  forall r, r ∈ Simulation.population demo_step ->
    r < Simulation._next_id demo_step /\
    exists o, Simulation.objs demo_step !! r = Some o /\ Orc.id o = r.
Proof.
  apply (ids_below_counter (R := lcg_random) (L := sqrt_libm) demo_step).
  apply (reach_step demo_engine); [|reflexivity].
  apply (reach_init (R := lcg_random) demo_settings None 0). reflexivity.
Defined.
